(** * Loom: frame specification parser, range compactor, sequence indexer
      and render scheduler

    A shallow embedding of the frame engine of [loom.py] and the properties
    its specification states about it.

    Conventions of the embedding.
    - Python [str] values are lists of ASCII characters ([list ascii]);
      string literals are converted with [list_ascii_of_string].
    - The three verbose regular expressions of [filter_frames] are values of
      the type [regex] below, interpreted by a backtracking matcher that
      enumerates the successes in the priority order of Python's [re] module.
    - Python [float] values are exact rationals ([Q], kept in lowest terms).
      Every frame value the parser builds is a finite decimal; on integers
      below 2^53 and on dyadic fractions binary64 arithmetic is exact and the
      model coincides with the code. *)

From Stdlib Require Import Ascii String.
From Stdlib Require Import List Bool Arith ZArith QArith Qround Qabs Sorted Lia.
From Stdlib Require Qcanon.
From Stdlib Require Import Lqa.
From Stdlib Require Import SpecFloat.
Import ListNotations.
Close Scope Q_scope.

(** ** Regular expressions with Python's backtracking priorities *)

Module Regex.

Definition str := list ascii.

(** Character classes of the patterns. [\d] and [\s] are restricted to the
    ASCII range: [\s] of a [str] pattern accepts the characters for which
    [str.isspace] holds, in ASCII the codes 9-13 and 28-32. *)
Definition is_digit (c : ascii) : bool :=
  let n := nat_of_ascii c in (48 <=? n)%nat && (n <=? 57)%nat.

Definition is_space (c : ascii) : bool :=
  let n := nat_of_ascii c in
  ((9 <=? n)%nat && (n <=? 13)%nat) || ((28 <=? n)%nat && (n <=? 32)%nat).

Definition is_alpha (c : ascii) : bool :=
  let n := nat_of_ascii c in
  ((65 <=? n)%nat && (n <=? 90)%nat) || ((97 <=? n)%nat && (n <=? 122)%nat).

(** [\w]: letters, digits and the underscore. *)
Definition is_word (c : ascii) : bool :=
  is_alpha c || is_digit c || Ascii.eqb c "_"%char.

Definition one_of (l : list ascii) (c : ascii) : bool :=
  existsb (Ascii.eqb c) l.

Definition chr (a : ascii) : ascii -> bool := Ascii.eqb a.

(** The fragment of [re] syntax used by the three patterns. Repetition is
    only ever applied to a single character class, except for [?], which is
    also applied to a group. *)
Inductive regex : Type :=
| Eps
| Cls (p : ascii -> bool)        (* one character of a class *)
| Seq (a b : regex)
| Alt (a b : regex)              (* a|b *)
| Opt (a : regex)                (* a?  (greedy) *)
| Star (p : ascii -> bool)       (* c*  (greedy) *)
| StarLazy (p : ascii -> bool)   (* c*? *)
| Plus (p : ascii -> bool)       (* c+  (greedy) *)
| Grp (n : nat) (a : regex)      (* capturing group number n *)
| WordB                          (* \b *)
| Eos.                           (* $ *)

(** One way of matching: the characters consumed, the groups captured on
    the way, and the input left. *)
Record success : Type := Success {
  consumed : str;
  groups : list (nat * str);
  rest : str
}.

Definition eps_success (s : str) : success := Success [] [] s.

Definition push (c : ascii) (r : success) : success :=
  Success (c :: consumed r) (groups r) (rest r).

Definition after (r1 r2 : success) : success :=
  Success (consumed r1 ++ consumed r2) (groups r1 ++ groups r2) (rest r2).

(** The last character before the current position. *)
Definition prev_after (prev : option ascii) (w : str) : option ascii :=
  match List.rev w with
  | [] => prev
  | c :: _ => Some c
  end.

Definition word_at (o : option ascii) : bool :=
  match o with
  | Some c => is_word c
  | None => false
  end.

Fixpoint star_greedy (p : ascii -> bool) (s : str) : list success :=
  match s with
  | c :: t =>
      if p c then map (push c) (star_greedy p t) ++ [eps_success s]
      else [eps_success s]
  | [] => [eps_success s]
  end.

Fixpoint star_lazy (p : ascii -> bool) (s : str) : list success :=
  match s with
  | c :: t =>
      if p c then eps_success s :: map (push c) (star_lazy p t)
      else [eps_success s]
  | [] => [eps_success s]
  end.

(** All the ways [r] matches at the head of [s], best first: the first
    element is the match a backtracking engine reports. [prev] is the
    character before the position, which [\b] looks at. *)
Fixpoint matches (r : regex) (prev : option ascii) (s : str) : list success :=
  match r with
  | Eps => [eps_success s]
  | Cls p =>
      match s with
      | c :: t => if p c then [Success [c] [] t] else []
      | [] => []
      end
  | Seq a b =>
      flat_map
        (fun r1 => map (after r1) (matches b (prev_after prev (consumed r1)) (rest r1)))
        (matches a prev s)
  | Alt a b => matches a prev s ++ matches b prev s
  | Opt a => matches a prev s ++ [eps_success s]
  | Star p => star_greedy p s
  | StarLazy p => star_lazy p s
  | Plus p =>
      match s with
      | c :: t => if p c then map (push c) (star_greedy p t) else []
      | [] => []
      end
  | Grp n a =>
      map (fun r1 => Success (consumed r1) ((n, consumed r1) :: groups r1) (rest r1))
          (matches a prev s)
  | WordB =>
      if xorb (word_at prev) (word_at (hd_error s)) then [eps_success s] else []
  | Eos =>
      match s with
      | [] => [eps_success s]
      | [c] => if Ascii.eqb c "010"%char then [eps_success s] else []
      | _ => []
      end
  end.

Definition first_match (r : regex) (prev : option ascii) (s : str) : option success :=
  hd_error (matches r prev s).

(** [re.search]: the first position, from the left, at which the pattern
    matches. *)
Fixpoint search_from (r : regex) (prev : option ascii) (s : str) : option success :=
  match first_match r prev s with
  | Some m => Some m
  | None =>
      match s with
      | c :: t => search_from r (Some c) t
      | [] => None
      end
  end.

Definition search (r : regex) (s : str) : option success := search_from r None s.

(** [m.group(n)]: [None] when the group took no part in the match. *)
Definition group (n : nat) (m : success) : option str :=
  match find (fun g => Nat.eqb (fst g) n) (groups m) with
  | Some g => Some (snd g)
  | None => None
  end.

(** [re.findall] for a pattern without groups: the matched substrings, left
    to right, without overlap. [skip] counts the characters of the previous
    match still to be passed over. *)
Fixpoint findall_from (r : regex) (skip : nat) (prev : option ascii) (s : str)
  : list str :=
  match s with
  | c :: t =>
      match skip with
      | S k => findall_from r k (Some c) t
      | O =>
          match first_match r prev s with
          | Some m => consumed m :: findall_from r (pred (List.length (consumed m))) (Some c) t
          | None => findall_from r 0 (Some c) t
          end
      end
  | [] =>
      match skip, first_match r prev s with
      | O, Some m => [consumed m]
      | _, _ => []
      end
  end.

Definition findall (r : regex) (s : str) : list str := findall_from r 0 None s.

End Regex.

(** ** Python values: strings, floats and exceptions *)

Module Py.

Import Regex.

(** A string literal as a Python [str]. *)
Definition lit (s : String.string) : str := String.list_ascii_of_string s.

Arguments lit s%_string.

Inductive exn : Type :=
| IndexError
| ValueError
| TypeError
| ZeroDivisionError.

(** The outcome of a call: a value, or an exception that leaves it. *)
Inductive outcome (A : Type) : Type :=
| Ok (a : A)
| Raise (e : exn).

Arguments Ok {A} a.
Arguments Raise {A} e.

Definition bind {A B : Type} (x : outcome A) (f : A -> outcome B) : outcome B :=
  match x with
  | Ok a => f a
  | Raise e => Raise e
  end.

(** [s.startswith(("^", "!"))] *)
Definition starts_with_exclude (s : str) : bool :=
  match s with
  | c :: _ => one_of ["^"; "!"]%char c
  | [] => false
  end.

(** ["^" in v or "!" in v] *)
Definition has_exclude (s : str) : bool := existsb (one_of ["^"; "!"]%char) s.

(** [s.lstrip(' ')] *)
Fixpoint lstrip_blank (s : str) : str :=
  match s with
  | c :: t => if Ascii.eqb c " "%char then lstrip_blank t else s
  | [] => []
  end.

(** [s.strip()] as [float] applies it: white space off both ends. *)
Fixpoint lstrip (s : str) : str :=
  match s with
  | c :: t => if is_space c then lstrip t else s
  | [] => []
  end.

Definition strip (s : str) : str := List.rev (lstrip (List.rev (lstrip s))).

Definition digit_value (c : ascii) : Z := (Z.of_nat (nat_of_ascii c) - 48)%Z.

(** The number a string of decimal digits denotes. *)
Definition digits_value (ds : str) : Z :=
  fold_left (fun acc c => 10 * acc + digit_value c)%Z ds 0%Z.

Definition pow10 (n : nat) : positive := Pos.pow 10 (Pos.of_nat n).

Definition decimal (int_part frac_part : str) : Q :=
  match frac_part with
  | [] => inject_Z (digits_value int_part)
  | _ => Qred (digits_value (int_part ++ frac_part) # pow10 (List.length frac_part))
  end.

(** Splits a string at its leading digits. *)
Fixpoint span_digits (s : str) : str * str :=
  match s with
  | c :: t =>
      if is_digit c then let (ds, r) := span_digits t in (c :: ds, r)
      else ([], s)
  | [] => ([], [])
  end.

(** [10 ** e] *)
Definition scale10 (e : Z) : Q :=
  match e with
  | Z0 => 1%Q
  | Zpos p => inject_Z (Z.pow 10 (Zpos p))
  | Zneg p => (1 # Pos.pow 10 p)%Q
  end.

(** The exponent part of a numeral: empty, or [e], an optional sign and at
    least one digit. *)
Definition exponent (s : str) : option Z :=
  match s with
  | [] => Some 0%Z
  | c :: t =>
      if one_of ["e"; "E"]%char c then
        let (neg, ds) :=
          match t with
          | d :: t' =>
              if Ascii.eqb d "-"%char then (true, t')
              else if Ascii.eqb d "+"%char then (false, t')
              else (false, t)
          | [] => (false, t)
          end in
        let (es, r) := span_digits ds in
        match es, r with
        | _ :: _, [] => Some (if neg then - digits_value es else digits_value es)%Z
        | _, _ => None
        end
      else None
  end.

(** An unsigned decimal numeral: [12], [12.], [12.5], [.5], each with an
    optional exponent; at least one digit before the exponent. *)
Definition unsigned_float (s : str) : option Q :=
  let (ip, r) := span_digits s in
  let (fp, r') :=
    match r with
    | c :: t => if Ascii.eqb c "."%char then span_digits t else ([], r)
    | [] => ([], r)
    end in
  match ip ++ fp with
  | [] => None
  | _ :: _ =>
      match exponent r' with
      | Some 0%Z => Some (decimal ip fp)
      | Some e => Some (Qred (decimal ip fp * scale10 e))
      | None => None
      end
  end.

(** [float(st)] for a string: white space around an optionally signed decimal
    numeral. The spellings of infinity and not-a-number and digits grouped
    with underscores, which [float] also accepts, are not modelled: no string
    built by [filter_frames] or by [repr] of a finite decimal contains them.
    [None] stands for [ValueError]. *)
Definition py_float (st : str) : option Q :=
  match strip st with
  | c :: t =>
      if Ascii.eqb c "-"%char then option_map Qopp (unsigned_float t)
      else if Ascii.eqb c "+"%char then unsigned_float t
      else unsigned_float (c :: t)
  | [] => None
  end.

(** [int(st)] for a string of an optionally signed run of digits. *)
Definition py_int (st : str) : option Z :=
  let digits s :=
    match span_digits s with
    | ((_ :: _) as ds, []) => Some (digits_value ds)
    | _ => None
    end in
  match strip st with
  | c :: t =>
      if Ascii.eqb c "-"%char then option_map Z.opp (digits t)
      else if Ascii.eqb c "+"%char then digits t
      else digits (c :: t)
  | [] => None
  end.

(** numpy's [arange(start, stop, step)] on floats: [ceil((stop - start) / step)]
    values [start + i * step]; the division by a zero step raises. *)
Definition arange (start stop step : Q) : outcome (list Q) :=
  if Qeq_bool step 0 then Raise ZeroDivisionError
  else
    let n := Z.to_nat (Qceiling ((stop - start) / step)%Q) in
    Ok (map (fun i => Qred (start + inject_Z (Z.of_nat i) * step)%Q) (seq 0 n)).

(** Rounding to the nearest integer, halves to the even neighbour. *)
Definition rint (x : Q) : Z :=
  let f := Qfloor x in
  let d := (x - inject_Z f)%Q in
  match (d ?= 1 # 2)%Q with
  | Lt => f
  | Gt => (f + 1)%Z
  | Eq => if Z.even f then f else (f + 1)%Z
  end.

(** numpy's [around(x, decimals=5)] *)
Definition around5 (x : Q) : Q := Qred (rint (x * 100000)%Q # 100000).

(** numpy's [isclose(a, b)] with its default tolerances
    [rtol = 1e-05] and [atol = 1e-08]. *)
Definition isclose (a b : Q) : bool :=
  Qle_bool (Qabs (a - b)%Q) ((1 # 100000000) + (1 # 100000) * Qabs b)%Q.

(** [flt.is_integer()] and [int(flt)] *)
Definition is_integer (x : Q) : bool := Qeq_bool x (inject_Z (Qfloor x)).

Definition int_of (x : Q) : Z := Z.quot (Qnum x) (Zpos (Qden x)).

(** The frame numbers on which the floats of the code and the rationals of
    the model agree: binary64 holds [x] exactly, and [x * 10^5], the product
    that [around] forms. *)
Definition exact_frame (x : Z) : Prop := (Z.abs x * 100000 < 2 ^ 53)%Z.

(** [a < b], [min(a, b)] and [max(a, b)] *)
Definition qlt (a b : Q) : bool := negb (Qle_bool b a).

Definition py_min (a b : Q) : Q := if qlt b a then b else a.

Definition py_max (a b : Q) : Q := if qlt a b then b else a.

(** [set(l)], [a.difference(b)] and [sorted(l)] on lists, for an element
    type with a decidable equality and order. *)
Section Sets.

Variable A : Type.
Variable eqb : A -> A -> bool.
Variable leb : A -> A -> bool.

Definition mem (x : A) (l : list A) : bool := existsb (eqb x) l.

(** [set(l)]: the elements of [l], each once. *)
Fixpoint to_set (l : list A) : list A :=
  match l with
  | x :: t => if mem x t then to_set t else x :: to_set t
  | [] => []
  end.

(** [a.difference(b)] *)
Definition difference (a b : list A) : list A :=
  filter (fun x => negb (mem x b)) a.

Fixpoint insert_sorted (x : A) (l : list A) : list A :=
  match l with
  | y :: t => if leb x y then x :: l else y :: insert_sorted x t
  | [] => [x]
  end.

(** [sorted(l)] *)
Definition sorted (l : list A) : list A := fold_right insert_sorted [] l.

End Sets.

Arguments mem {A} eqb x l.
Arguments to_set {A} eqb l.
Arguments difference {A} eqb a b.
Arguments insert_sorted {A} leb x l.
Arguments sorted {A} leb l.

(** [range(a, b)] *)
Definition range (a b : Z) : list Z :=
  map (fun i => (a + Z.of_nat i)%Z) (seq 0 (Z.to_nat (b - a))).

(** [sep.join(l)] *)
Fixpoint join (sep : str) (l : list str) : str :=
  match l with
  | [] => []
  | [x] => x
  | x :: t => x ++ sep ++ join sep t
  end.

Definition digit_char (d : Z) : ascii := ascii_of_nat (48 + Z.to_nat d).

(** The decimal digits of a natural number, most significant first. *)
Fixpoint digits_of (fuel : nat) (n : Z) (acc : str) : str :=
  match fuel with
  | O => acc
  | S f =>
      let acc' := digit_char (n mod 10) :: acc in
      if (n <? 10)%Z then acc' else digits_of f (n / 10) acc'
  end.

Definition str_of_nat (n : Z) : str := digits_of (S (Z.to_nat (Z.log2 n))) n [].

(** [str(n)] for an [int] *)
Definition str_of_int (n : Z) : str :=
  if (n <? 0)%Z then "-"%char :: str_of_nat (- n) else str_of_nat n.

(** [s.split(sep)] for a one-character separator *)
Fixpoint split (sep : ascii) (s : str) : list str :=
  match s with
  | [] => [[]]
  | c :: t =>
      if Ascii.eqb c sep then [] :: split sep t
      else match split sep t with
           | w :: ws => (c :: w) :: ws
           | [] => [[c]]
           end
  end.

(** [s.zfill(w)] on a string of digits *)
Definition zfill (w : nat) (s : str) : str := repeat "0"%char (w - length s) ++ s.

(** [format(n, "0{w}d")]: the sign counts in the width. *)
Definition format_int (w : nat) (n : Z) : str :=
  if (n <? 0)%Z then "-"%char :: zfill (pred w) (str_of_nat (- n))
  else zfill w (str_of_nat n).

(** The number of decimals of a finite decimal: the least [k] with
    [x * 10^k] an integer, looked for up to [fuel]. *)
Fixpoint decimals_from (fuel k : nat) (x : Q) : nat :=
  match fuel with
  | O => k
  | S f => if is_integer x then k else decimals_from f (S k) (Qred (x * 10))
  end.

Definition decimals (x : Q) : nat :=
  decimals_from (Pos.size_nat (Qden (Qred x))) 0 (Qred x).

Definition pow10Z (k : nat) : Z := Z.pow 10 (Z.of_nat k).

Fixpoint strip_zeros_rev (s : str) : str :=
  match s with
  | c :: t => if Ascii.eqb c "0"%char then strip_zeros_rev t else s
  | [] => []
  end.

(** [repr(x)] and [str(x)] of a float that is a finite decimal of at most 15
    significant digits, for which the shortest digits that round-trip are
    the digits of the decimal itself. Position notation is used from 1e-04
    up to, but excluding, 1e+16, and exponent notation outside. *)
Definition repr_float (x : Q) : str :=
  let a := Qabs x in
  let sgn := if qlt x 0 then ["-"%char] else [] in
  if Qeq_bool a 0 then lit "0.0"
  else
    let k := decimals a in
    let n := Qfloor (a * inject_Z (pow10Z k)) in
    if Qle_bool (1 # 10000) a && qlt a (inject_Z (pow10Z 16)) then
      sgn ++ str_of_nat (Qfloor a) ++ "."%char ::
        (match k with
         | O => ["0"%char]
         | _ => zfill k (str_of_nat (n mod pow10Z k))
         end)
    else
      let ds := List.rev (strip_zeros_rev (List.rev (str_of_nat n))) in
      let e := (Z.of_nat (length (str_of_nat n)) - Z.of_nat k - 1)%Z in
      sgn ++ firstn 1 ds
          ++ (match skipn 1 ds with [] => [] | r => "."%char :: r end)
          ++ "e"%char :: (if (e <? 0)%Z then "-"%char else "+"%char)
          :: zfill 2 (str_of_nat (Z.abs e)).

(** [format(x, ".{dec}f")]: [dec] decimals, the nearest such decimal. *)
Definition format_fixed (dec : nat) (x : Q) : str :=
  let n := rint (Qabs x * inject_Z (pow10Z dec)) in
  (if qlt x 0 then ["-"%char] else [])
    ++ str_of_nat (n / pow10Z dec)
    ++ (match dec with
        | O => []
        | _ => "."%char :: zfill dec (str_of_nat (n mod pow10Z dec))
        end).

End Py.

(** ** Binary64: the floats of the interpreter, with their rounding *)

Module Binary64.

Import Regex Py.

Definition prec : Z := 53.
Definition emax : Z := 1024.

(** The float nearest to a rational, ties to the even mantissa: the value
    of [float(s)] for the numeral [s] of the rational. *)
Definition of_Q (x : Q) : spec_float :=
  let round (sx : bool) (n : positive) :=
    let '(m, e, l) := SFdiv_core_binary prec emax (Zpos n) 0 (Zpos (Qden x)) 0 in
    binary_round_aux prec emax sx m e l in
  match Qnum x with
  | Z0 => S754_zero false
  | Zpos n => round false n
  | Zneg n => round true n
  end.

(** The rational a finite float is. *)
Definition to_Q (f : spec_float) : Q :=
  match f with
  | S754_finite s m e =>
      let v := match e with
               | Zneg p => (Zpos m # Pos.pow 2 p)%Q
               | _ => inject_Z (Zpos m * 2 ^ e)
               end in
      if s then Qopp v else v
  | _ => 0%Q
  end.

(** The exponent of a positive rational in scientific notation:
    [10^e <= x < 10^(e+1)]. *)
Fixpoint magnitude_up (fuel : nat) (e : Z) (x : Q) : Z :=
  match fuel with
  | O => e
  | S f => if Qle_bool 10 x then magnitude_up f (e + 1) (Qred (x / 10)) else e
  end.

Fixpoint magnitude_down (fuel : nat) (e : Z) (x : Q) : Z :=
  match fuel with
  | O => e
  | S f => if Qle_bool 1 x then e else magnitude_down f (e - 1) (Qred (x * 10))
  end.

Definition magnitude (x : Q) : Z :=
  if Qle_bool 1 x then magnitude_up (Z.to_nat (Z.log2 (Qnum x))) 0 x
  else magnitude_down (S (Pos.size_nat (Qden x))) 0 x.

(** The decimals of [p] significant digits next to the positive rational
    [x], below and above. *)
Definition neighbours (x : Q) (p : nat) : Q * Q :=
  let q := (Z.of_nat p - 1 - magnitude x)%Z in
  let n := Qfloor (x * scale10 q) in
  (Qred (inject_Z n * scale10 (- q)), Qred (inject_Z (n + 1) * scale10 (- q))).

(** The decimal of at most [p + fuel] significant digits with the fewest
    digits that [float] reads back as [f]; of two such decimals, the one
    nearer to [f]. *)
Fixpoint shortest_from (fuel p : nat) (f : spec_float) (x : Q) : Q :=
  match fuel with
  | O => x
  | S fuel' =>
      let (lo, hi) := neighbours x p in
      let ok d := SFeqb (of_Q d) f in
      match ok lo, ok hi with
      | true, true => if Qle_bool (x - lo) (hi - x) then lo else hi
      | true, false => lo
      | false, true => hi
      | false, false => shortest_from fuel' (S p) f x
      end
  end.

(** The decimal whose digits [repr] prints: seventeen significant digits
    tell any two floats apart. *)
Definition shortest (f : spec_float) : Q :=
  match f with
  | S754_finite s _ _ =>
      let d := shortest_from 17 1 (SFabs f) (Qabs (to_Q f)) in
      if s then Qopp d else d
  | _ => 0%Q
  end.

(** [repr(f)] and [str(f)] of a finite float, [float(s)], [a + b] and
    [a == b]. *)
Definition repr (f : spec_float) : str := repr_float (shortest f).

Definition float (s : str) : option spec_float := option_map of_Q (py_float s).

Definition add (a b : spec_float) : spec_float := SFadd prec emax a b.

Definition eqb (a b : spec_float) : bool := SFeqb a b.

Definition of_int (n : Z) : spec_float := of_Q (inject_Z n).

End Binary64.

(** ** [filter_frames]: the frame specification parser *)

Module Parser.

Import Regex Py.

Definition seqs (l : list regex) : regex := fold_right Seq Eps l.

Definition digit := is_digit.
Definition space := is_space.
Definition dot := chr "."%char.
Definition minus := chr "-"%char.
Definition sign := one_of ["-"; "+"]%char.
Definition marker := one_of ["^"; "!"]%char.
Definition step_marker := one_of ["x"; "%"]%char.

(** [\d* \.? \d+] *)
Definition number : list regex := [Star digit; Opt (Cls dot); Plus digit].

(** The alternatives of [numeric_pattern], in the order they are tried:
    range and increment, range, fraction, whole number. *)
Definition range_increment : regex :=
  seqs (number ++ [Opt (Cls space); Cls minus; Opt (Cls space)]
        ++ number ++ [Opt (Cls space); Cls step_marker; Opt (Cls space); Opt (Cls sign)]
        ++ number).

Definition range_plain : regex :=
  seqs (number ++ [Opt (Cls space); Cls minus; Opt (Cls space); Opt (Cls sign)] ++ number).

Definition fraction : regex := seqs [Star digit; Cls dot; Plus digit].

Definition whole : regex := seqs [Plus digit; Opt (Cls dot)].

Definition alternatives : regex :=
  Alt range_increment (Alt range_plain (Alt fraction whole)).

(** [numeric_pattern] *)
Definition numeric_pattern : regex :=
  seqs [Opt (Cls marker); StarLazy space; Opt (Cls sign); alternatives].

(** The groups of [range_pattern]; [[0-9]] and [\d] are the same class on
    ASCII input. *)
Definition start_frame : regex :=
  seqs [Opt (Cls sign); StarLazy digit; Opt (Cls dot); Plus digit; WordB].

Definition minus_sign : regex := seqs [StarLazy space; Cls minus; StarLazy space].

Definition end_frame : regex := seqs [Opt (Cls sign); Star digit; Opt (Cls dot); Plus digit].

Definition increment_part : regex :=
  seqs [ Grp 5 (seqs [StarLazy space; Cls step_marker; StarLazy space]);
         Grp 6 (seqs [Opt (Cls sign); Star digit; Opt (Cls dot); Plus digit; WordB]) ].

(** [range_pattern] *)
Definition range_pattern : regex :=
  seqs [ Grp 1 start_frame; Grp 2 minus_sign; Grp 3 end_frame;
         Opt (Grp 4 increment_part) ].

(** [exclude_pattern] *)
Definition exclude_pattern : regex :=
  seqs [ Cls marker; StarLazy space;
         Grp 1 (seqs [Opt (Cls sign); Star digit; Opt (Cls dot); Plus digit]); Eos ].

(** What [filter_frames] returns: integers whenever possible. *)
Inductive frames : Type :=
| IntFrames (l : list Z)
| FloatFrames (l : list Q).

Definition float_filter (st : str) : option Q := py_float st.

Definition int_filter (flt : Q) : option Z :=
  if is_integer flt then Some (int_of flt) else None.

(** The index of the first item carrying an exclusion marker. *)
Fixpoint first_exclude_from (i : nat) (l : list str) : option nat :=
  match l with
  | v :: t => if has_exclude v then Some i else first_exclude_from (S i) t
  | [] => None
  end.

(** The rewriting of the items in global mode. The test
    [if first_exclude_item:] is a truth test on the index. *)
Definition auto_exclude (input_filtered : list str) : list str :=
  match first_exclude_from 0 input_filtered with
  | Some (S i) =>
      firstn (S i) input_filtered ++
      map (fun elem => if starts_with_exclude elem then elem
                       else "^"%char :: lstrip_blank elem)
          (skipn (S i) input_filtered)
  | _ => input_filtered
  end.

(** The lists the main loop fills. *)
Record acc : Type := Acc {
  frame_list : list Q;
  exclude_list : list Q;
  conform_list : list Q;
  conform_flag : bool
}.

Definition last_of (l : list Q) : outcome Q :=
  match List.rev l with
  | x :: _ => Ok x
  | [] => Raise IndexError
  end.

Definition need (o : option Q) : outcome Q :=
  match o with
  | Some x => Ok x
  | None => Raise TypeError
  end.

(** The values of one range: [around(arange(start, end, step), decimals=5)],
    followed by [end] when [isclose(step, end - frame_range[-1])]. *)
Definition expand_range (start stop step : Q) : outcome (list Q * list Q) :=
  bind (arange start stop step) (fun r =>
  let frame_range := map around5 r in
  bind (last_of frame_range) (fun l =>
  Ok (frame_range, if isclose step (stop - l)%Q then [stop] else []))).

(** One turn of the loop over the items. *)
Definition step_item (increment : Q) (filter_individual : bool)
  (a : acc) (item : str) : outcome acc :=
  match float_filter item with
  | Some frame =>
      Ok (Acc (frame_list a ++ [frame]) (exclude_list a)
              (if conform_flag a then conform_list a ++ [frame] else conform_list a)
              (conform_flag a))
  | None =>
      match search exclude_pattern item with
      | Some exclude_item =>
          bind (need (match group 1 exclude_item with
                      | Some g => float_filter g
                      | None => None
                      end)) (fun x =>
          Ok (Acc (frame_list a) (exclude_list a ++ [x]) (conform_list a)
                  (if filter_individual then true else conform_flag a)))
      | None =>
          match search range_pattern item with
          | Some range_item =>
              let g n := match group n range_item with
                         | Some g => float_filter g
                         | None => None
                         end in
              bind (need (g 1%nat)) (fun g1 =>
              bind (need (g 3%nat)) (fun g3 =>
              let start := py_min g1 g3 in
              let stop := py_max g1 g3 in
              bind (match group 4 range_item with
                    | None | Some [] => Ok increment
                    | Some _ => need (g 6%nat)
                    end) (fun step =>
              if qlt start stop then
                bind (expand_range start stop step) (fun '(frame_range, tail) =>
                if starts_with_exclude item then
                  Ok (Acc (frame_list a) (exclude_list a ++ frame_range ++ tail)
                          (conform_list a)
                          (if filter_individual then true else conform_flag a))
                else
                  Ok (Acc (frame_list a ++ frame_range ++ tail) (exclude_list a)
                          (if conform_flag a then conform_list a ++ frame_range ++ tail
                           else conform_list a)
                          (conform_flag a)))
              else if Qeq_bool start stop then
                if negb (starts_with_exclude item) then
                  Ok (Acc (frame_list a ++ [start]) (exclude_list a) (conform_list a)
                          (conform_flag a))
                else
                  Ok (Acc (frame_list a) (exclude_list a ++ [start]) (conform_list a)
                          (conform_flag a))
              else Ok a)))
          | None => Ok a
          end
      end
  end.

Fixpoint run_items (increment : Q) (filter_individual : bool)
  (a : acc) (items : list str) : outcome acc :=
  match items with
  | item :: t =>
      bind (step_item increment filter_individual a item)
           (fun a' => run_items increment filter_individual a' t)
  | [] => Ok a
  end.

Fixpoint all_some (l : list (option Z)) : option (list Z) :=
  match l with
  | Some x :: t => option_map (cons x) (all_some t)
  | None :: _ => None
  | [] => Some []
  end.

(** [filter_frames(frame_input, increment, filter_individual)]; the inner
    [None] is the value returned when nothing in the input matches. *)
Definition filter_frames (frame_input : str) (increment : Q)
  (filter_individual : bool) : outcome (option frames) :=
  let input_filtered := findall numeric_pattern frame_input in
  match input_filtered with
  | [] => Ok None
  | _ =>
      let input_filtered :=
        if negb filter_individual then auto_exclude input_filtered
        else input_filtered in
      bind (run_items increment filter_individual (Acc [] [] [] false) input_filtered)
      (fun a =>
         let exclude_list :=
           if filter_individual
           then sorted Qle_bool (difference Qeq_bool (to_set Qeq_bool (exclude_list a)) (conform_list a))
           else exclude_list a in
         let float_frames :=
           sorted Qle_bool (difference Qeq_bool (to_set Qeq_bool (frame_list a)) exclude_list) in
         let int_frames := map int_filter float_frames in
         match all_some int_frames with
         | Some l => Ok (Some (IntFrames l))
         | None => Ok (Some (FloatFrames float_frames))
         end)
  end.

(** The call with the default arguments [increment=1], [filter_individual=False]. *)
Definition parse (frame_input : String.string) : outcome (option frames) :=
  filter_frames (lit frame_input) 1%Q false.

Arguments parse frame_input%_string.

End Parser.

(** ** [rangify_frames]: the range compactor *)

Module Compactor.

Import Regex Py.

(** The key of [groupby]: [count()] hands out 0, 1, 2, ... in the order of
    the calls, one call per element, so the i-th frame has key [i - x]. *)
Definition keyed (frames : list Z) : list (Z * Z) :=
  map (fun p => ((Z.of_nat (fst p) - snd p)%Z, snd p))
      (combine (seq 0 (length frames)) frames).

(** [itertools.groupby]: the maximal runs of neighbours with equal keys. *)
Fixpoint groupby (l : list (Z * Z)) : list (list Z) :=
  match l with
  | [] => []
  | p :: t =>
      let gs := groupby t in
      match t, gs with
      | q :: _, g :: gs' =>
          if (fst p =? fst q)%Z then (snd p :: g) :: gs' else [snd p] :: gs
      | _, _ => [snd p] :: gs
      end
  end.

(** ["-".join(map(str, (g[0], g[-1])[:len(g)]))] *)
Definition token (g : list Z) : str :=
  join ["-"%char] (map str_of_int (firstn (length g) [hd 0%Z g; last g 0%Z])).

Definition rangify_frames (frames : list Z) : str :=
  join [","%char] (map token (groupby (keyed frames))).

End Compactor.

(** ** [missing_frames]: the gaps of a sequence on disk *)

Module Indexer.

Import Py.

(** [sorted(set(range(frames[0], frames[-1] + 1)).difference(frames))];
    indexing an empty list raises. *)
Definition missing_frames (frames : list Z) : outcome (list Z) :=
  match frames with
  | [] => Raise IndexError
  | first :: _ =>
      Ok (sorted Z.leb
            (difference Z.eqb (to_set Z.eqb (range first (last frames 0%Z + 1))) frames))
  end.

End Indexer.

(** ** [LOOM_OT_render_image_sequence]: the render scheduler *)

Module Scheduler.

Import Regex Py Parser.

(** A queued frame: an [int], or the pair [(main, sub)] of sub-frame mode. *)
Inductive frame : Type :=
| Whole (n : Z)
| Sub (main : Z) (sub : Q).

Definition frame_eqb (a b : frame) : bool :=
  match a, b with
  | Whole n, Whole m => (n =? m)%Z
  | Sub n x, Sub m y => (n =? m)%Z && Qeq_bool x y
  | _, _ => false
  end.

(** A file output node of the compositor. *)
Record node : Type := Node {
  base_path : str;
  file_slots : list str;          (* the [path] of each file slot *)
  layered : bool                  (* ["LAYER" in format.file_format] *)
}.

(** What [execute] records about a node. The entries ["Type"] and
    ["Extension"] of the dictionary are never read and are left out;
    ["File Slots"] is present for the nodes that are not layered. *)
Record saved : Type := Saved {
  sv_base_path : str;             (* "Base Path" *)
  sv_folder : str;                (* "Folder" *)
  sv_filename : str;              (* "Filename" *)
  sv_file_slots : option (list str)  (* "File Slots" *)
}.

Inductive status : Type :=
| Finished
| Cancelled (report : str)
| RunningModal
| PassThrough.

(** The scene and the files on disk. A node object is known by its index in
    [node_store]. *)
Record scene : Type := Scene {
  filepath : str;                 (* scene.render.filepath *)
  use_overwrite : bool;           (* scene.render.use_overwrite *)
  frame_step : Z;                 (* scene.frame_step *)
  extension_of_format : str;      (* file_extension(image_settings.file_format) *)
  node_store : list node;         (* the node objects *)
  out_nodes : list nat;           (* out_nodes(scene) *)
  files : list str                (* the paths for which os.path.isfile holds *)
}.

(** The fields of the operator. *)
Record operator : Type := Operator {
  digits : nat;
  _frames : list frame;
  _rendered_frames : list frame;
  _skipped_frames : list frame;
  _stop : option bool;
  _rendering : option bool;
  _dec : option nat;
  _subframe_flag : bool;
  _output_path : option str;
  _folder : str;
  _filename : str;
  _extension : str;
  _output_nodes : list (nat * saved)
}.

Record state : Type := State {
  scn : scene;
  self : operator
}.

(** The operator as its class body declares it. *)
Definition fresh (digits : nat) : operator :=
  Operator digits [] [] [] None None None false None [] [] [] [].

(** A statement of a method: it runs from a state to a state and either
    yields a value or raises. *)
Definition M (A : Type) : Type := state -> outcome A * state.

Definition ret {A : Type} (a : A) : M A := fun s => (Ok a, s).

Definition raise {A : Type} (e : exn) : M A := fun s => (Raise e, s).

Definition mbind {A B : Type} (m : M A) (f : A -> M B) : M B :=
  fun s =>
    match m s with
    | (Ok a, s') => f a s'
    | (Raise e, s') => (Raise e, s')
    end.

Definition get : M state := fun s => (Ok s, s).

Definition on_scene (f : scene -> scene) : M unit :=
  fun s => (Ok tt, State (f (scn s)) (self s)).

Definition on_self (f : operator -> operator) : M unit :=
  fun s => (Ok tt, State (scn s) (f (self s))).

Declare Scope sched_scope.
Delimit Scope sched_scope with sched.
Notation "x <- m ;; k" := (mbind m (fun x => k))
  (at level 61, m at next level, right associativity) : sched_scope.
Notation "m ;;; k" := (mbind m (fun _ => k))
  (at level 61, right associativity) : sched_scope.
Local Open Scope sched_scope.

(** A loop over a list that is not changed by its body. *)
Fixpoint for_each {A : Type} (l : list A) (body : A -> M unit) : M unit :=
  match l with
  | [] => ret tt
  | x :: t => body x ;;; for_each t body
  end.

(** Assignments to the fields of the scene. *)
Definition set_filepath (p : str) (c : scene) : scene :=
  Scene p (use_overwrite c) (frame_step c) (extension_of_format c) (node_store c)
        (out_nodes c) (files c).

Definition set_node_store (l : list node) (c : scene) : scene :=
  Scene (filepath c) (use_overwrite c) (frame_step c) (extension_of_format c) l
        (out_nodes c) (files c).

Definition set_files (l : list str) (c : scene) : scene :=
  Scene (filepath c) (use_overwrite c) (frame_step c) (extension_of_format c)
        (node_store c) (out_nodes c) l.

(** Assignments to the fields of the operator. *)
Definition set_frames (l : list frame) (o : operator) : operator :=
  Operator (digits o) l (_rendered_frames o) (_skipped_frames o) (_stop o)
           (_rendering o) (_dec o) (_subframe_flag o) (_output_path o) (_folder o)
           (_filename o) (_extension o) (_output_nodes o).

Definition set_rendered (l : list frame) (o : operator) : operator :=
  Operator (digits o) (_frames o) l (_skipped_frames o) (_stop o)
           (_rendering o) (_dec o) (_subframe_flag o) (_output_path o) (_folder o)
           (_filename o) (_extension o) (_output_nodes o).

Definition set_skipped (l : list frame) (o : operator) : operator :=
  Operator (digits o) (_frames o) (_rendered_frames o) l (_stop o)
           (_rendering o) (_dec o) (_subframe_flag o) (_output_path o) (_folder o)
           (_filename o) (_extension o) (_output_nodes o).

Definition set_stop (b : option bool) (o : operator) : operator :=
  Operator (digits o) (_frames o) (_rendered_frames o) (_skipped_frames o) b
           (_rendering o) (_dec o) (_subframe_flag o) (_output_path o) (_folder o)
           (_filename o) (_extension o) (_output_nodes o).

Definition set_rendering (b : option bool) (o : operator) : operator :=
  Operator (digits o) (_frames o) (_rendered_frames o) (_skipped_frames o) (_stop o)
           b (_dec o) (_subframe_flag o) (_output_path o) (_folder o)
           (_filename o) (_extension o) (_output_nodes o).

(** [self._dec = d; self._subframe_flag = True] *)
Definition set_subframes (d : nat) (o : operator) : operator :=
  Operator (digits o) (_frames o) (_rendered_frames o) (_skipped_frames o) (_stop o)
           (_rendering o) (Some d) true (_output_path o) (_folder o)
           (_filename o) (_extension o) (_output_nodes o).

(** The fields of the main output path, and [self.digits]. *)
Definition set_main (digits' : nat) (p folder name ext : str) (o : operator) : operator :=
  Operator digits' (_frames o) (_rendered_frames o) (_skipped_frames o) (_stop o)
           (_rendering o) (_dec o) (_subframe_flag o) (Some p) folder name ext
           (_output_nodes o).

Definition set_output_nodes (d : list (nat * saved)) (o : operator) : operator :=
  Operator (digits o) (_frames o) (_rendered_frames o) (_skipped_frames o) (_stop o)
           (_rendering o) (_dec o) (_subframe_flag o) (_output_path o) (_folder o)
           (_filename o) (_extension o) d.

Definition no_node : node := Node [] [] false.

(** The node object [k]. *)
Definition node_at (c : scene) (k : nat) : node := nth k (node_store c) no_node.

Fixpoint update_nth {A : Type} (k : nat) (f : A -> A) (l : list A) : list A :=
  match l, k with
  | [], _ => []
  | x :: t, O => f x :: t
  | x :: t, S k' => x :: update_nth k' f t
  end.

(** Assignment to fields of the node object [k]. *)
Definition update_node (k : nat) (f : node -> node) : M unit :=
  on_scene (fun c => set_node_store (update_nth k f (node_store c)) c).

Definition set_base_path (p : str) (n : node) : node :=
  Node p (file_slots n) (layered n).

(** [n.file_slots[c].path = p] *)
Definition set_slot (c : nat) (p : str) (n : node) : node :=
  Node (base_path n) (update_nth c (fun _ => p) (file_slots n)) (layered n).

(** [d[k] = v] on a dictionary kept in insertion order. *)
Fixpoint dict_set (k : nat) (v : saved) (d : list (nat * saved)) : list (nat * saved) :=
  match d with
  | [] => [(k, v)]
  | (j, w) :: t => if Nat.eqb j k then (j, v) :: t else (j, w) :: dict_set k v t
  end.

(** The two halves of a float: [repr(frame).split('.')] unpacked into two
    names, then [int] and [float]; [repr] and [float] are those of the
    floats [F]. *)
Definition halves {F : Type} (repr : F -> str) (float : str -> option F) (frame : F)
  : outcome (Z * F) :=
  match split "."%char (repr frame) with
  | [main_frame; sub_frame] =>
      match py_int main_frame, float ("."%char :: sub_frame) with
      | Some m, Some f => Ok (m, f)
      | _, _ => Raise ValueError
      end
  | _ => Raise ValueError
  end.

Fixpoint pairs {F : Type} (repr : F -> str) (float : str -> option F) (sub_frames : list F)
  : outcome (list (Z * F)) :=
  match sub_frames with
  | [] => Ok []
  | frame :: t =>
      bind (halves repr float frame) (fun p =>
      bind (pairs repr float t) (fun subs => Ok (p :: subs)))
  end.

(** [subframes] on the floats of the model. *)
Definition subframe (x : Q) : outcome frame :=
  bind (halves repr_float py_float x) (fun p => Ok (Sub (fst p) (snd p))).

Definition subframes (sub_frames : list Q) : outcome (list frame) :=
  bind (pairs repr_float py_float sub_frames)
       (fun subs => Ok (map (fun p => Sub (fst p) (snd p)) subs)).

(** [len(str(x[1]).split('.')[1])] for one queued pair. *)
Definition fraction_width (f : frame) : outcome nat :=
  match f with
  | Sub _ x =>
      match nth_error (split "."%char (repr_float x)) 1 with
      | Some d => Ok (length d)
      | None => Raise IndexError
      end
  | Whole _ => Raise TypeError
  end.

(** [max(map(..., self._frames))]; the map is consumed element by element. *)
Fixpoint max_width (l : list frame) : outcome nat :=
  match l with
  | [] => Raise ValueError
  | [f] => fraction_width f
  | f :: t => bind (fraction_width f) (fun w => bind (max_width t) (fun m => Ok (Nat.max w m)))
  end.

(** The truth test [not self._frames] on what [filter_frames] returned. *)
Definition no_frames (parsed : option frames) : bool :=
  match parsed with
  | None | Some (IntFrames []) | Some (FloatFrames []) => true
  | _ => false
  end.

Section Methods.

(** The collaborators of the scheduler. *)
Variable replace_globals : str -> str.
Variable path_join : str -> str -> str.           (* os.path.join *)
Variable split_abs : str -> str * str.            (* os.path.split(bpy.path.abspath(p)) *)
Variable realpath : str -> str.                   (* os.path.realpath *)
Variable safe_filename : nat -> str -> str * nat. (* the name, and self.digits afterwards *)
Variable uses_globals : str -> bool.              (* any(ext in folder for ext in glob_vars.keys()) *)
Variable isdir_created : str -> bool.             (* os.path.isdir after create_directory *)

Definition pre_render : M unit := on_self (set_rendering (Some true)).

Definition post_render : M unit :=
  s <- get ;;
  match _frames (self s) with
  | [] => raise IndexError
  | _ :: t => on_self (set_frames t) ;;; on_self (set_rendering (Some false))
  end.

(** [for c, fs in enumerate(k.file_slots): fs.path = value(c)] *)
Definition assign_slots (k : nat) (value : nat -> M str) : M unit :=
  s <- get ;;
  for_each (seq 0 (length (file_slots (node_at (scn s) k)))) (fun c =>
    p <- value c ;;
    update_node k (set_slot c p)).

Definition item (l : list str) (c : nat) : M str :=
  match nth_error l c with
  | Some p => ret p
  | None => raise IndexError
  end.

Definition reset_output_paths : M unit :=
  s <- get ;;
  match _output_path (self s) with
  | Some p => on_scene (set_filepath p)
  | None => raise TypeError
  end ;;;
  for_each (_output_nodes (self s)) (fun kv =>
    let (k, v) := kv in
    update_node k (set_base_path (sv_base_path v)) ;;;
    match sv_file_slots v with
    | Some slots => assign_slots k (item slots)
    | None => ret tt
    end).

Definition cancel_render : M unit :=
  on_self (set_stop (Some true)) ;;;
  reset_output_paths ;;;
  s <- get ;;
  match List.rev (_rendered_frames (self s)) with
  | [] => raise IndexError
  | _ :: r => on_self (set_rendered (List.rev r))
  end.

(** The end of a file name: [.ext] when an extension is given, [_] when it
    is not. *)
Definition suffix (extension : option str) : str :=
  match extension with
  | Some ((_ :: _) as ext) => "."%char :: ext
  | _ => ["_"%char]
  end.

Definition format_frame (file_name : str) (f : frame) (extension : option str) : M str :=
  s <- get ;;
  match f with
  | Whole n =>
      ret (replace_globals file_name ++ format_int (digits (self s)) n ++ suffix extension)
  | Sub _ _ => raise TypeError
  end.

Definition format_subframe (file_name : str) (f : frame) (extension : option str) : M str :=
  s <- get ;;
  match f, _dec (self s) with
  | Sub main sub, Some dec =>
      match nth_error (split "."%char (format_fixed dec sub)) 1 with
      | Some sub_frame =>
          ret (replace_globals file_name ++ format_int (digits (self s)) main
               ++ sub_frame ++ suffix extension)
      | None => raise IndexError
      end
  | Sub _ _, None => raise ValueError
  | Whole _, _ => raise TypeError
  end.

Definition frame_repath (frame_number : frame) : M unit :=
  s <- get ;;
  let o := self s in
  ff <- (if _subframe_flag o
         then format_subframe (_filename o) frame_number (Some (_extension o))
         else format_frame (_filename o) frame_number (Some (_extension o))) ;;
  on_scene (set_filepath (path_join (_folder o) ff)) ;;;
  for_each (_output_nodes o) (fun kv =>
    let (k, v) := kv in
    match sv_file_slots v with
    | Some slots =>
        s' <- get ;;
        update_node k (set_base_path (replace_globals (base_path (node_at (scn s') k)))) ;;;
        assign_slots k (fun c =>
          p <- item slots c ;;
          if _subframe_flag o then format_subframe p frame_number None
          else ret (replace_globals p))
    | None =>
        name <- (if _subframe_flag o then format_subframe (sv_filename v) frame_number None
                 else ret (replace_globals (sv_filename v))) ;;
        update_node k (set_base_path (path_join (replace_globals (sv_folder v)) name))
    end).

(** [os.path.isfile(p)] *)
Definition isfile (c : scene) (p : str) : bool :=
  existsb (fun q => if list_eq_dec ascii_dec p q then true else false) (files c).

(** [bpy.ops.render.render(write_still=True)]: the blocking call renders and
    writes the still; with ["INVOKE_DEFAULT"] the call only starts the job,
    whose progress arrives through the handlers. *)
Definition render (silent : bool) : M unit :=
  if silent then on_scene (fun c => set_files (filepath c :: files c) c) else ret tt.

Definition start_render (f : frame) (silent : bool) : M unit :=
  s <- get ;;
  if negb (use_overwrite (scn s)) && isfile (scn s) (filepath (scn s)) then
    on_self (set_skipped (_skipped_frames (self s) ++ [f])) ;;;
    post_render
  else
    render silent ;;;
    s' <- get ;;
    if negb (existsb (frame_eqb f) (_rendered_frames (self s')))
    then on_self (set_rendered (_rendered_frames (self s') ++ [f]))
    else ret tt.

(** [for frame_number in self._frames: ...]: the iterator holds an index
    into the list object, which [post_render] shortens from the front while
    the loop runs. The list never grows, so its length at the start bounds
    the number of turns. *)
Fixpoint silent_loop (turns i : nat) : M unit :=
  match turns with
  | O => ret tt
  | S turns' =>
      s <- get ;;
      match nth_error (_frames (self s)) i with
      | None => ret tt
      | Some frame_number =>
          frame_repath frame_number ;;;
          start_render frame_number true ;;;
          silent_loop turns' (S i)
      end
  end.

(** [self._output_nodes[out_node] = {...}] *)
Definition record_node (k : nat) : M unit :=
  s <- get ;;
  let n := node_at (scn s) k in
  let (fd, fn) := split_abs (base_path n) in
  on_self (set_output_nodes
    (dict_set k (Saved (base_path n) (realpath fd) fn
                       (if layered n then None else Some (file_slots n)))
              (_output_nodes (self s)))).

Definition no_frames_report : str := lit "No frames to render".
Definition no_folder_report : str := lit "Specified folder can not be created".

(** [execute] with the operator properties [frames], [isolate_numbers] and
    [render_silent]; no render preset is given. *)
Definition execute (frames : str) (isolate_numbers render_silent : bool) : M status :=
  s <- get ;;
  match filter_frames frames (inject_Z (frame_step (scn s))) isolate_numbers with
  | Raise e => raise e
  | Ok parsed =>
      match parsed with
      | None | Some (IntFrames []) | Some (FloatFrames []) =>
          on_self (set_frames []) ;;; ret (Cancelled no_frames_report)
      | Some parsed =>
          let (output_folder, name) := split_abs (filepath (scn s)) in
          let (name', digits') := safe_filename (digits (self s)) name in
          let folder := realpath output_folder in
          let folder' := if uses_globals folder then replace_globals folder else folder in
          on_self (set_main digits' (filepath (scn s)) folder' name'
                            (extension_of_format (scn s))) ;;;
          if uses_globals folder && negb (isdir_created folder')
          then ret (Cancelled no_folder_report)
          else
            for_each (out_nodes (scn s)) record_node ;;;
            on_self (set_skipped []) ;;; on_self (set_rendered []) ;;;
            match parsed with
            | IntFrames l => on_self (set_frames (map Whole l))
            | FloatFrames l =>
                match subframes l with
                | Ok subs =>
                    on_self (set_frames subs) ;;;
                    match max_width subs with
                    | Ok w => on_self (set_subframes w)
                    | Raise e => raise e
                    end
                | Raise e => raise e
                end
            end ;;;
            if render_silent then
              s' <- get ;;
              silent_loop (length (_frames (self s'))) 0 ;;;
              reset_output_paths ;;;
              ret Finished
            else
              on_self (set_stop (Some false)) ;;;
              on_self (set_rendering (Some false)) ;;;
              ret RunningModal
      end
  end.

(** [modal] on a timer event. *)
Definition modal : M status :=
  s <- get ;;
  match _frames (self s), _stop (self s) with
  | [], _ | _, Some true =>
      reset_output_paths ;;; ret Finished
  | frame_number :: _, _ =>
      match _rendering (self s) with
      | Some false =>
          frame_repath frame_number ;;;
          start_render frame_number false ;;;
          ret PassThrough
      | _ => ret PassThrough
      end
  end.

(** What reaches the operator while it runs as a modal handler: the timer,
    and the render handlers. [RenderPost] tells whether the job wrote its
    still before the handler ran. *)
Inductive event : Type :=
| Timer
| RenderPre
| RenderPost (wrote : bool)
| RenderCancel.

(** An exception raised in a render handler is printed by the host and the
    run goes on from the state the handler reached. *)
Definition handle (m : M unit) : M status := fun s => (Ok PassThrough, snd (m s)).

Definition on_event (e : event) : M status :=
  match e with
  | Timer => modal
  | RenderPre => handle pre_render
  | RenderPost wrote => handle (render wrote ;;; post_render)
  | RenderCancel => handle cancel_render
  end.

(** The run of a modal operator over the events that arrive: it ends with
    the first [modal] call that returns [FINISHED], or raises. *)
Fixpoint run (events : list event) : M status :=
  match events with
  | [] => ret PassThrough
  | e :: t =>
      r <- on_event e ;;
      match r with
      | PassThrough => run t
      | _ => ret r
      end
  end.

End Methods.

End Scheduler.

(** ** A host for the examples *)

Module Host.

Import Regex Py Parser Scheduler.

(** No global variable is in use: [replace_globals] leaves its argument,
    and no folder name holds one. *)
Definition replace_globals (s : str) : str := s.

Definition uses_globals (folder : str) : bool := false.

Definition isdir_created (folder : str) : bool := true.

(** [os.path.join] of a folder without final separator and a relative
    name. *)
Definition path_join (a b : str) : str := a ++ "/"%char :: b.

(** [os.path.split] of an absolute path. *)
Definition split_abs (p : str) : str * str :=
  match List.rev (split "/"%char p) with
  | name :: r => (join ["/"%char] (List.rev r), name)
  | [] => ([], [])
  end.

(** No symbolic link is on the way. *)
Definition realpath (p : str) : str := p.

(** [safe_filename] of a name that has no extension and no [#], and does
    not end with a digit. *)
Definition safe_filename (digits : nat) (name : str) : str * nat := (name, digits).

Definition execute : str -> bool -> bool -> M status :=
  Scheduler.execute replace_globals path_join split_abs realpath safe_filename
                    uses_globals isdir_created.

Definition run : list event -> M status := Scheduler.run replace_globals path_join.

(** A scene that renders to [/out/img_####.png], with overwriting switched
    off, and two file output nodes, the second one of a multilayer format;
    [on_disk] are the files that exist. *)
Definition stage (on_disk : list str) : state :=
  State (Scene (lit "/out/img_") false 1 (lit "png")
               [Node (lit "/comp/node") [lit "Image"; lit "Depth"] false;
                Node (lit "/comp/exr") [lit "Image"; lit "Depth"] true]
               [0; 1] on_disk)
        (fresh 4).

End Host.

(** * Properties *)

(** ** Sets and sorting *)

Module SetFacts.

Import Py.

Section Ordered.

Variable A : Type.
Variable eqb leb : A -> A -> bool.
Variable lt : A -> A -> Prop.
Hypothesis lt_neq : forall x y, lt x y -> eqb x y = false.
Hypothesis lt_leb : forall x y, lt x y -> leb x y = true.

Lemma mem_above (x : A) (l : list A) : Forall (lt x) l -> mem eqb x l = false.
Proof.
  induction 1 as [|y l Hy _ IH]; simpl; [reflexivity|].
  now rewrite (lt_neq _ _ Hy).
Qed.

(** A strictly increasing list is its own set. *)
Lemma to_set_increasing (l : list A) : StronglySorted lt l -> to_set eqb l = l.
Proof.
  induction 1 as [|x l _ IH Hx]; simpl; [reflexivity|].
  now rewrite (mem_above _ _ Hx), IH.
Qed.

Lemma insert_sorted_above (x : A) (l : list A) :
  Forall (lt x) l -> insert_sorted leb x l = x :: l.
Proof.
  destruct 1 as [|y l Hy _]; simpl; [reflexivity|].
  now rewrite (lt_leb _ _ Hy).
Qed.

(** Sorting a strictly increasing list leaves it as it is. *)
Lemma sorted_increasing (l : list A) : StronglySorted lt l -> sorted leb l = l.
Proof.
  unfold sorted. induction 1 as [|x l _ IH Hx]; simpl; [reflexivity|].
  rewrite IH. now apply insert_sorted_above.
Qed.

Lemma filter_increasing (f : A -> bool) (l : list A) :
  StronglySorted lt l -> StronglySorted lt (filter f l).
Proof.
  induction 1 as [|x l _ IH Hx]; simpl; [constructor|].
  destruct (f x); [constructor|]; auto.
  apply Forall_forall. intros y Hy. apply filter_In in Hy.
  rewrite Forall_forall in Hx. now apply Hx.
Qed.

End Ordered.

Lemma mem_Z (x : Z) (l : list Z) : mem Z.eqb x l = true <-> In x l.
Proof.
  unfold mem. rewrite existsb_exists. split.
  - intros (y & Hy & E). apply Z.eqb_eq in E. now subst.
  - intros H. exists x. split; [assumption | apply Z.eqb_refl].
Qed.

Lemma range_increasing (a b : Z) : StronglySorted Z.lt (range a b).
Proof.
  unfold range. generalize (Z.to_nat (b - a)) as n. intros n. generalize 0%nat as i.
  induction n as [|n IH]; intros i; simpl; constructor.
  - apply IH.
  - apply Forall_forall. intros y Hy. apply in_map_iff in Hy.
    destruct Hy as (j & <- & Hj). apply in_seq in Hj. lia.
Qed.

Lemma in_range (a b x : Z) : In x (range a b) <-> (a <= x < b)%Z.
Proof.
  unfold range. rewrite in_map_iff. split.
  - intros (i & <- & Hi). apply in_seq in Hi. lia.
  - intros H. exists (Z.to_nat (x - a)). split; [lia|]. apply in_seq. lia.
Qed.

End SetFacts.

(** ** The sequence indexer *)

Module IndexerFacts.

Import Py Indexer SetFacts.

Lemma last_in (l : list Z) (d : Z) : l <> [] -> In (last l d) l.
Proof.
  intros H. rewrite (app_removelast_last d H) at 2. apply in_or_app. right. now left.
Qed.

Lemma sorted_bounds (l : list Z) (x : Z) :
  StronglySorted Z.le l -> In x l -> (hd 0 l <= x <= last l 0)%Z.
Proof.
  intros Hs. revert x. induction Hs as [|y l Hs IH Hy]; intros x Hx; [contradiction|].
  rewrite Forall_forall in Hy. destruct l as [|z l]; simpl in *.
  - destruct Hx as [<-|[]]. lia.
  - destruct Hx as [<-|Hx].
    + specialize (IH z (or_introl eq_refl)). specialize (Hy z (or_introl eq_refl)). lia.
    + specialize (IH x Hx). specialize (Hy z (or_introl eq_refl)). lia.
Qed.

(** C9. For a non-empty ascending list of integer frames, [missing_frames]
    returns [range(frames[0], frames[-1] + 1)] without the members of
    [frames], in ascending order; the first and the last frame are the least
    and the greatest, so these are exactly the integers strictly inside the
    span that the list does not contain, and nothing outside the span is
    reported; [missing([1,2,4,5])] is [[3]]. *)
Theorem missing_frames_inside_span (frames : list Z) :
  frames <> [] ->
  StronglySorted Z.le frames ->
  exists m,
    missing_frames frames = Ok m /\
    m = filter (fun x => negb (mem Z.eqb x frames))
               (range (hd 0%Z frames) (last frames 0%Z + 1)) /\
    StronglySorted Z.lt m /\
    (forall y, In y frames -> (hd 0 frames <= y <= last frames 0)%Z) /\
    (forall x, In x m <-> (hd 0 frames < x < last frames 0)%Z /\ ~ In x frames) /\
    missing_frames [1; 2; 4; 5]%Z = Ok [3%Z].
Proof.
  intros Hne Hs.
  set (m := filter (fun x => negb (mem Z.eqb x frames))
                   (range (hd 0%Z frames) (last frames 0%Z + 1))).
  assert (Hm : StronglySorted Z.lt m)
    by (apply filter_increasing, range_increasing).
  assert (Hin : forall x, In x m <->
            (hd 0 frames <= x < last frames 0 + 1)%Z /\ ~ In x frames).
  { intros x. unfold m. rewrite filter_In, in_range.
    destruct (mem Z.eqb x frames) eqn:E; simpl.
    - apply mem_Z in E. intuition discriminate.
    - assert (~ In x frames) by (rewrite <- mem_Z, E; discriminate). tauto. }
  assert (Hfirst : In (hd 0%Z frames) frames)
    by (destruct frames; [contradiction | now left]).
  assert (Hlast : In (last frames 0%Z) frames) by now apply last_in.
  exists m.
  split; [|split; [reflexivity|split; [exact Hm|split; [|split; [|reflexivity]]]]].
  2: intros y Hy; now apply sorted_bounds.
  - destruct frames as [|first rest]; [contradiction|].
    unfold missing_frames. f_equal.
    rewrite (to_set_increasing Z Z.eqb Z.lt).
    + apply (sorted_increasing Z Z.leb Z.lt); [|exact Hm].
      intros x y H. apply Z.leb_le. lia.
    + intros x y H. apply Z.eqb_neq. lia.
    + apply range_increasing.
  - intros x. rewrite Hin. split; intros [Hr Hn]; (split; [|exact Hn]).
    + assert (x <> hd 0%Z frames) by (intros ->; contradiction).
      assert (x <> last frames 0%Z) by (intros ->; contradiction).
      lia.
    + lia.
Qed.

Lemma missing_frames_inside_span_witness :
  exists m, missing_frames [1; 2; 4; 5]%Z = Ok m /\ m = [3%Z].
Proof.
  destruct (missing_frames_inside_span [1; 2; 4; 5]%Z) as (m & H1 & H2 & _).
  - discriminate.
  - repeat constructor; lia.
  - exists m. split; [exact H1 | rewrite H2; reflexivity].
Defined.

End IndexerFacts.

(** ** The matcher *)

Module RegexFacts.

Import Regex.

(** A property of all 256 characters, by enumeration. *)
Definition all_ascii (f : ascii -> bool) : bool :=
  forallb (fun n => f (ascii_of_nat n)) (seq 0 256).

Lemma all_ascii_spec (f : ascii -> bool) :
  all_ascii f = true -> forall c, f c = true.
Proof.
  unfold all_ascii. rewrite forallb_forall. intros H c.
  rewrite <- (ascii_nat_embedding c). apply H, in_seq.
  pose proof (nat_ascii_bounded c). lia.
Qed.

(** [m] with [u] added to what the match leaves. *)
Definition extend (u : str) (m : success) : success :=
  Success (consumed m) (groups m) (rest m ++ u).

(** Every class of [r] refuses [c], and [r] has no anchor. *)
Fixpoint refuses (c : ascii) (r : regex) : bool :=
  match r with
  | Eps => true
  | Cls p | Star p | StarLazy p | Plus p => negb (p c)
  | Seq a b | Alt a b => refuses c a && refuses c b
  | Opt a | Grp _ a => refuses c a
  | WordB | Eos => false
  end.

(** [r] does not look behind. *)
Fixpoint no_boundary (r : regex) : bool :=
  match r with
  | WordB => false
  | Seq a b | Alt a b => no_boundary a && no_boundary b
  | Opt a | Grp _ a => no_boundary a
  | _ => true
  end.

(** Every match of [r] consumes a character. *)
Fixpoint nonempty (r : regex) : bool :=
  match r with
  | Cls _ | Plus _ => true
  | Seq a b => nonempty a || nonempty b
  | Alt a b => nonempty a && nonempty b
  | Grp _ a => nonempty a
  | _ => false
  end.

(** Every match of [r] consumes a character of the class [p]. *)
Fixpoint needs (p : ascii -> bool) (r : regex) : bool :=
  match r with
  | Cls q | Plus q => all_ascii (fun c => implb (q c) (p c))
  | Seq a b => needs p a || needs p b
  | Alt a b => needs p a && needs p b
  | Grp _ a => needs p a
  | _ => false
  end.

(** Every character [r] consumes is of the class [p]. *)
Fixpoint within (p : ascii -> bool) (r : regex) : bool :=
  match r with
  | Cls q | Star q | StarLazy q | Plus q => all_ascii (fun c => implb (q c) (p c))
  | Seq a b | Alt a b => within p a && within p b
  | Opt a | Grp _ a => within p a
  | _ => true
  end.

Lemma in_star_greedy p s m :
  In m (star_greedy p s) ->
  s = consumed m ++ rest m /\ Forall (fun c => p c = true) (consumed m) /\ groups m = [].
Proof.
  revert m. induction s as [|c t IH]; simpl; intros m H.
  - destruct H as [<-|[]]. simpl. auto.
  - destruct (p c) eqn:E.
    + apply in_app_or in H. destruct H as [H|[<-|[]]]; [|simpl; auto].
      apply in_map_iff in H. destruct H as (m' & <- & H). apply IH in H.
      destruct H as (-> & H & G). simpl. auto.
    + destruct H as [<-|[]]. simpl. auto.
Qed.

Lemma in_star_lazy p s m :
  In m (star_lazy p s) ->
  s = consumed m ++ rest m /\ Forall (fun c => p c = true) (consumed m) /\ groups m = [].
Proof.
  revert m. induction s as [|c t IH]; simpl; intros m H.
  - destruct H as [<-|[]]. simpl. auto.
  - destruct (p c) eqn:E.
    + destruct H as [<-|H]; [simpl; auto|].
      apply in_map_iff in H. destruct H as (m' & <- & H). apply IH in H.
      destruct H as (-> & H & G). simpl. auto.
    + destruct H as [<-|[]]. simpl. auto.
Qed.

(** A match splits the input into what it consumed and what it left. *)
Lemma matches_split r : forall prev s m,
  In m (matches r prev s) -> s = consumed m ++ rest m.
Proof.
  induction r; simpl; intros prev s m H.
  - destruct H as [<-|[]]. reflexivity.
  - destruct s as [|c t]; [contradiction|]. destruct (p c); [|contradiction].
    destruct H as [<-|[]]. reflexivity.
  - apply in_flat_map in H. destruct H as (m1 & H1 & H).
    apply in_map_iff in H. destruct H as (m2 & <- & H2).
    apply IHr1 in H1. apply IHr2 in H2. simpl. rewrite <- app_assoc. congruence.
  - apply in_app_or in H. destruct H; eauto.
  - apply in_app_or in H. destruct H as [H|[<-|[]]]; eauto.
  - now apply in_star_greedy in H.
  - now apply in_star_lazy in H.
  - destruct s as [|c t]; [contradiction|]. destruct (p c); [|contradiction].
    apply in_map_iff in H. destruct H as (m' & <- & H).
    apply in_star_greedy in H. destruct H as (-> & _). reflexivity.
  - apply in_map_iff in H. destruct H as (m' & <- & H). simpl. eauto.
  - destruct (xorb _ _); [|contradiction]. destruct H as [<-|[]]. reflexivity.
  - destruct s as [|c [|d t]]; try contradiction.
    + destruct H as [<-|[]]. reflexivity.
    + destruct (Ascii.eqb c _); [|contradiction]. destruct H as [<-|[]]. reflexivity.
Qed.

Lemma matches_nonempty r : nonempty r = true -> forall prev s m,
  In m (matches r prev s) -> consumed m <> [].
Proof.
  induction r; simpl; intros Hr prev s m H; try discriminate.
  - destruct s as [|c t]; [contradiction|]. destruct (p c); [|contradiction].
    destruct H as [<-|[]]. discriminate.
  - apply in_flat_map in H. destruct H as (m1 & H1 & H).
    apply in_map_iff in H. destruct H as (m2 & <- & H2). simpl.
    apply orb_true_iff in Hr. destruct Hr as [Hr|Hr].
    + apply (IHr1 Hr) in H1. destruct (consumed m1); [contradiction|discriminate].
    + apply (IHr2 Hr) in H2. intros E. apply app_eq_nil in E. tauto.
  - apply andb_true_iff in Hr. apply in_app_or in H. destruct H; intuition eauto.
  - destruct s as [|c t]; [contradiction|]. destruct (p c); [|contradiction].
    apply in_map_iff in H. destruct H as (m' & <- & H). discriminate.
  - apply in_map_iff in H. destruct H as (m' & <- & H). simpl. eauto.
Qed.

Lemma matches_needs p r : needs p r = true -> forall prev s m,
  In m (matches r prev s) -> existsb p (consumed m) = true.
Proof.
  induction r; simpl; intros Hr prev s m H; try discriminate.
  - destruct s as [|c t]; [contradiction|]. destruct (p0 c) eqn:E; [|contradiction].
    destruct H as [<-|[]]. simpl. pose proof (all_ascii_spec _ Hr c) as Hc.
    simpl in Hc. rewrite E in Hc. simpl in Hc. now rewrite Hc.
  - apply in_flat_map in H. destruct H as (m1 & H1 & H).
    apply in_map_iff in H. destruct H as (m2 & <- & H2). simpl.
    rewrite existsb_app. apply orb_true_iff in Hr. apply orb_true_iff.
    destruct Hr as [Hr|Hr]; eauto.
  - apply andb_true_iff in Hr. apply in_app_or in H. destruct H; intuition eauto.
  - destruct s as [|c t]; [contradiction|]. destruct (p0 c) eqn:E; [|contradiction].
    apply in_map_iff in H. destruct H as (m' & <- & H). simpl.
    pose proof (all_ascii_spec _ Hr c) as Hc. simpl in Hc. rewrite E in Hc.
    simpl in Hc. now rewrite Hc.
  - apply in_map_iff in H. destruct H as (m' & <- & H). simpl. eauto.
Qed.

Lemma Forall_class (p q : ascii -> bool) (w : str) :
  all_ascii (fun c => implb (q c) (p c)) = true ->
  Forall (fun c => q c = true) w -> forallb p w = true.
Proof.
  intros Hq. induction 1 as [|c w Hc _ IH]; simpl; [reflexivity|].
  pose proof (all_ascii_spec _ Hq c) as Hi. simpl in Hi. rewrite Hc in Hi.
  simpl in Hi. now rewrite Hi.
Qed.

Lemma matches_within p r : within p r = true -> forall prev s m,
  In m (matches r prev s) -> forallb p (consumed m) = true.
Proof.
  induction r; simpl; intros Hr prev s m H.
  - destruct H as [<-|[]]. reflexivity.
  - destruct s as [|c t]; [contradiction|]. destruct (p0 c) eqn:E; [|contradiction].
    destruct H as [<-|[]]. simpl. pose proof (all_ascii_spec _ Hr c) as Hc.
    simpl in Hc. rewrite E in Hc. simpl in Hc. now rewrite Hc.
  - apply andb_true_iff in Hr. destruct Hr as [Ha Hb].
    apply in_flat_map in H. destruct H as (m1 & H1 & H).
    apply in_map_iff in H. destruct H as (m2 & <- & H2). simpl.
    rewrite forallb_app. apply andb_true_iff. eauto.
  - apply andb_true_iff in Hr. apply in_app_or in H. destruct H; intuition eauto.
  - apply in_app_or in H. destruct H as [H|[<-|[]]]; eauto.
  - apply in_star_greedy in H. eapply Forall_class; [exact Hr|apply H].
  - apply in_star_lazy in H. eapply Forall_class; [exact Hr|apply H].
  - destruct s as [|c t]; [contradiction|]. destruct (p0 c) eqn:E; [|contradiction].
    apply in_map_iff in H. destruct H as (m' & <- & H). simpl.
    pose proof (all_ascii_spec _ Hr c) as Hc. simpl in Hc. rewrite E in Hc.
    simpl in Hc. rewrite Hc. simpl.
    apply in_star_greedy in H. eapply Forall_class; [exact Hr|apply H].
  - apply in_map_iff in H. destruct H as (m' & <- & H). simpl. eauto.
  - destruct (xorb _ _); [|contradiction]. destruct H as [<-|[]]. reflexivity.
  - destruct s as [|c [|d t]]; try contradiction.
    + destruct H as [<-|[]]. reflexivity.
    + destruct (Ascii.eqb c _); [|contradiction]. destruct H as [<-|[]]. reflexivity.
Qed.

(** *** Characters no class accepts *)

Lemma flat_map_map {A B C : Type} (f : A -> list B) (g : B -> C) (l : list A) :
  flat_map (fun x => map g (f x)) l = map g (flat_map f l).
Proof.
  induction l as [|x l IH]; simpl; [reflexivity|]. now rewrite map_app, IH.
Qed.

Lemma flat_map_of_map {A B C : Type} (f : B -> list C) (g : A -> B) (l : list A) :
  flat_map f (map g l) = flat_map (fun x => f (g x)) l.
Proof.
  induction l as [|x l IH]; simpl; [reflexivity|]. now rewrite IH.
Qed.

Lemma star_greedy_junk p c s t :
  p c = false ->
  star_greedy p (s ++ c :: t) = map (extend (c :: t)) (star_greedy p s).
Proof.
  intros Hc. induction s as [|d s IH]; simpl.
  - now rewrite Hc.
  - destruct (p d); [|reflexivity].
    rewrite IH, map_app, !map_map. reflexivity.
Qed.

Lemma star_lazy_junk p c s t :
  p c = false ->
  star_lazy p (s ++ c :: t) = map (extend (c :: t)) (star_lazy p s).
Proof.
  intros Hc. induction s as [|d s IH]; simpl.
  - now rewrite Hc.
  - destruct (p d); [|reflexivity].
    rewrite IH. simpl. rewrite !map_map. reflexivity.
Qed.

(** A character that no class of [r] accepts ends every match of [r], as the
    end of the input does. *)
Lemma matches_junk r c : refuses c r = true -> forall prev s t,
  matches r prev (s ++ c :: t) = map (extend (c :: t)) (matches r prev s).
Proof.
  induction r; simpl; intros Hr prev s t; try discriminate.
  - reflexivity.
  - apply negb_true_iff in Hr. destruct s as [|d s]; simpl.
    + now rewrite Hr.
    + destruct (p d); reflexivity.
  - apply andb_true_iff in Hr. destruct Hr as [Ha Hb].
    rewrite (IHr1 Ha), flat_map_of_map, <- flat_map_map.
    apply flat_map_ext. intros m1. simpl.
    rewrite (IHr2 Hb), !map_map. apply map_ext. intros m2.
    unfold after, extend. simpl. reflexivity.
  - apply andb_true_iff in Hr. destruct Hr as [Ha Hb].
    now rewrite (IHr1 Ha), (IHr2 Hb), map_app.
  - now rewrite (IHr Hr), map_app.
  - apply negb_true_iff in Hr. now apply star_greedy_junk.
  - apply negb_true_iff in Hr. now apply star_lazy_junk.
  - apply negb_true_iff in Hr. destruct s as [|d s]; simpl.
    + now rewrite Hr.
    + destruct (p d); [|reflexivity].
      rewrite (star_greedy_junk _ _ _ _ Hr), !map_map. reflexivity.
  - rewrite (IHr Hr), !map_map. reflexivity.
Qed.

Lemma matches_prev r : no_boundary r = true -> forall p1 p2 s,
  matches r p1 s = matches r p2 s.
Proof.
  induction r; simpl; intros Hr p1 p2 s; try reflexivity; try discriminate.
  - apply andb_true_iff in Hr. destruct Hr as [Ha Hb].
    rewrite (IHr1 Ha p1 p2). apply flat_map_ext. intros m1.
    now rewrite (IHr2 Hb (prev_after p1 (consumed m1)) (prev_after p2 (consumed m1))).
  - apply andb_true_iff in Hr. destruct Hr as [Ha Hb].
    now rewrite (IHr1 Ha p1 p2), (IHr2 Hb p1 p2).
  - now rewrite (IHr Hr p1 p2).
  - now rewrite (IHr Hr p1 p2).
Qed.

Lemma refuses_no_boundary r c : refuses c r = true -> no_boundary r = true.
Proof.
  induction r; simpl; intros H; try reflexivity; try discriminate; auto.
  - apply andb_true_iff in H. apply andb_true_iff. intuition.
  - apply andb_true_iff in H. apply andb_true_iff. intuition.
Qed.

Lemma first_match_nil r prev : nonempty r = true -> first_match r prev [] = None.
Proof.
  intros Hr. unfold first_match. destruct (matches r prev []) as [|m l] eqn:E; [reflexivity|].
  assert (H : In m (matches r prev [])) by (rewrite E; now left).
  pose proof (matches_split _ _ _ _ H) as Hs.
  pose proof (matches_nonempty _ Hr _ _ _ H) as Hn.
  symmetry in Hs. apply app_eq_nil in Hs. tauto.
Qed.

Lemma first_match_length r prev s m :
  first_match r prev s = Some m -> length (consumed m) <= length s.
Proof.
  unfold first_match. intros H.
  assert (Hin : In m (matches r prev s)).
  { destruct (matches r prev s); [discriminate|]. injection H as ->. now left. }
  pose proof (matches_split _ _ _ _ Hin) as E. apply (f_equal (@length ascii)) in E.
  rewrite length_app in E. lia.
Qed.

Lemma findall_from_prev r : no_boundary r = true -> forall s skip p1 p2,
  findall_from r skip p1 s = findall_from r skip p2 s.
Proof.
  intros Hr. induction s as [|c t IH]; intros skip p1 p2; simpl.
  - unfold first_match. now rewrite (matches_prev _ Hr p1 p2).
  - unfold first_match. now rewrite (matches_prev _ Hr p1 p2).
Qed.

(** Around a character that no class accepts, the two sides are searched
    independently of each other. *)
Lemma findall_from_junk r c :
  refuses c r = true -> nonempty r = true -> forall a b skip prev,
  skip <= length a ->
  findall_from r skip prev (a ++ c :: b) = findall_from r skip prev a ++ findall r b.
Proof.
  intros Hr Hn. pose proof (refuses_no_boundary _ _ Hr) as Hb.
  induction a as [|x a IH]; intros b skip prev Hs.
  - assert (skip = 0) as -> by (simpl in Hs; lia).
    pose proof (matches_junk r c Hr prev [] b) as E.
    pose proof (first_match_nil r prev Hn) as H.
    simpl. rewrite H. unfold first_match in *.
    destruct (matches r prev []); [|discriminate].
    simpl in E. rewrite E. simpl.
    apply (findall_from_prev _ Hb).
  - pose proof (matches_junk r c Hr prev (x :: a) b) as E. simpl in *.
    destruct skip as [|k].
    + unfold first_match. rewrite E.
      destruct (matches r prev (x :: a)) as [|m l] eqn:Em; simpl.
      * apply IH. lia.
      * f_equal. apply IH.
        assert (H : first_match r prev (x :: a) = Some m)
          by (unfold first_match; now rewrite Em).
        apply first_match_length in H. simpl in H. lia.
    + apply IH. lia.
Qed.

Lemma findall_junk r c a b :
  refuses c r = true -> nonempty r = true ->
  findall r (a ++ c :: b) = findall r a ++ findall r b.
Proof.
  intros Hr Hn. apply (findall_from_junk _ _ Hr Hn). lia.
Qed.

End RegexFacts.

(** ** Numerals: printing, reading, rounding *)

Module PyFacts.

Import Regex Py RegexFacts.

#[local] Arguments is_digit : simpl never.
#[local] Arguments is_space : simpl never.
#[local] Arguments is_word : simpl never.

(** [s] starts with a character of the class [p]. *)
Definition heads (p : ascii -> bool) (s : str) : bool :=
  match s with
  | c :: _ => p c
  | [] => false
  end.

Definition digits (ds : str) : Prop := Forall (fun c => is_digit c = true) ds.

Lemma digit_char_spec (d : Z) :
  (0 <= d < 10)%Z -> is_digit (digit_char d) = true /\ digit_value (digit_char d) = d.
Proof.
  intros H.
  assert (E : (d = 0 \/ d = 1 \/ d = 2 \/ d = 3 \/ d = 4 \/ d = 5 \/ d = 6 \/ d = 7
               \/ d = 8 \/ d = 9)%Z) by lia.
  repeat (destruct E as [->|E]; [split; reflexivity|]). subst. split; reflexivity.
Qed.

Lemma digits_value_snoc (ds : str) (c : ascii) :
  digits_value (ds ++ [c]) = (10 * digits_value ds + digit_value c)%Z.
Proof. unfold digits_value. now rewrite fold_left_app. Qed.

Lemma digits_of_spec (fuel : nat) : forall n acc,
  (0 <= n < 2 ^ Z.of_nat fuel)%Z -> fuel <> 0 ->
  exists ds, digits_of fuel n acc = ds ++ acc /\ ds <> [] /\ digits ds /\
             digits_value ds = n.
Proof.
  induction fuel as [|fuel IH]; intros n acc Hn Hf; [contradiction|].
  simpl. destruct (Z.ltb_spec n 10) as [Hlt|Hge].
  - exists [digit_char (n mod 10)]. rewrite Z.mod_small by lia.
    destruct (digit_char_spec n) as [Hd Hv]; [lia|].
    repeat split; [discriminate | now repeat constructor |].
    unfold digits_value. simpl. lia.
  - assert (Hq : (0 <= n / 10 < 2 ^ Z.of_nat fuel)%Z).
    { split; [apply Z.div_pos; lia|].
      apply Z.div_lt_upper_bound; [lia|].
      rewrite Nat2Z.inj_succ, Z.pow_succ_r in Hn by lia. lia. }
    assert (Hf' : fuel <> 0).
    { intros ->. simpl in Hq. assert (1 <= n / 10)%Z by (apply Z.div_le_lower_bound; lia).
      lia. }
    destruct (IH (n / 10)%Z (digit_char (n mod 10) :: acc) Hq Hf')
      as (ds & E & Hne & Hd & Hv).
    exists (ds ++ [digit_char (n mod 10)]). rewrite E, <- app_assoc.
    destruct (digit_char_spec (n mod 10)) as [Hc Hcv]; [apply Z.mod_pos_bound; lia|].
    repeat split.
    + destruct ds; discriminate.
    + apply Forall_app. split; [assumption | now repeat constructor].
    + rewrite digits_value_snoc, Hv, Hcv. symmetry. apply Z.div_mod. lia.
Qed.

(** The decimal numeral of a natural number: digits, at least one, and
    reading them gives the number back. *)
Lemma str_of_nat_spec (n : Z) :
  (0 <= n)%Z ->
  str_of_nat n <> [] /\ digits (str_of_nat n) /\ digits_value (str_of_nat n) = n.
Proof.
  intros Hn. unfold str_of_nat.
  destruct (digits_of_spec (S (Z.to_nat (Z.log2 n))) n []) as (ds & E & H).
  - split; [assumption|]. rewrite Nat2Z.inj_succ, Z2Nat.id by apply Z.log2_nonneg.
    destruct (Z.eq_dec n 0) as [->|Hz]; [reflexivity|].
    apply Z.log2_spec. lia.
  - discriminate.
  - rewrite E, app_nil_r. exact H.
Qed.

(** *** The classes of the patterns on digits and signs *)

Definition beside_digits (c : ascii) : bool :=
  negb (is_space c) && negb (Parser.dot c) && negb (Parser.minus c)
  && negb (Parser.sign c) && negb (Parser.marker c) && negb (Parser.step_marker c)
  && is_word c && negb (one_of ["e"; "E"]%char c).

Lemma beside_digits_all :
  all_ascii (fun c => implb (is_digit c) (beside_digits c)) = true.
Proof. vm_compute. reflexivity. Qed.

Lemma digit_classes (c : ascii) :
  is_digit c = true ->
  is_space c = false /\ Parser.dot c = false /\ Parser.minus c = false /\
  Parser.sign c = false /\ Parser.marker c = false /\ Parser.step_marker c = false /\
  is_word c = true /\ one_of ["e"; "E"]%char c = false.
Proof.
  intros H. pose proof (all_ascii_spec _ beside_digits_all c) as E.
  cbv beta in E. rewrite H in E. cbv [implb] in E. unfold beside_digits in E.
  repeat (apply andb_true_iff in E; destruct E as [E ?]).
  repeat match goal with
         | K : negb _ = true |- _ => apply negb_true_iff in K
         end.
  auto 10.
Qed.

Lemma digits_last (ds : str) :
  digits ds -> ds <> [] -> exists ds' d, ds = ds' ++ [d] /\ is_digit d = true.
Proof.
  intros Hd Hne. destruct (exists_last Hne) as (ds' & d & ->).
  exists ds', d. split; [reflexivity|].
  apply Forall_app in Hd. destruct Hd as [_ Hd]. now inversion Hd.
Qed.

Lemma span_digits_app (ds r : str) :
  digits ds -> heads is_digit r = false -> span_digits (ds ++ r) = (ds, r).
Proof.
  intros Hd Hr. induction Hd as [|c ds Hc _ IH]; simpl.
  - destruct r as [|c r]; [reflexivity|]. simpl in *. now rewrite Hr.
  - now rewrite Hc, IH.
Qed.

Lemma span_digits_all (ds : str) : digits ds -> span_digits ds = (ds, []).
Proof.
  intros Hd. rewrite <- (app_nil_r ds) at 1. now apply span_digits_app.
Qed.

Lemma lstrip_id (s : str) : heads is_space s = false -> lstrip s = s.
Proof. destruct s as [|c s]; simpl; [reflexivity|]. now intros ->. Qed.

Lemma strip_id (s : str) :
  heads is_space s = false -> heads is_space (List.rev s) = false -> strip s = s.
Proof.
  intros H1 H2. unfold strip. rewrite (lstrip_id s H1), (lstrip_id _ H2).
  apply rev_involutive.
Qed.

(** A string that starts with a sign or a digit and ends with a digit has no
    white space to strip. *)
Lemma strip_numeral (u ds : str) :
  heads is_space (u ++ ds) = false -> digits ds -> ds <> [] -> strip (u ++ ds) = u ++ ds.
Proof.
  intros Hu Hd Hne. apply strip_id; [assumption|].
  destruct (digits_last _ Hd Hne) as (ds' & d & -> & Hdig).
  rewrite !rev_app_distr. simpl. now destruct (digit_classes d Hdig) as (-> & _).
Qed.

Lemma unsigned_float_digits (ds : str) :
  digits ds -> ds <> [] -> unsigned_float ds = Some (inject_Z (digits_value ds)).
Proof.
  intros Hd Hne. unfold unsigned_float. rewrite (span_digits_all _ Hd).
  rewrite app_nil_r. destruct ds; [contradiction|]. reflexivity.
Qed.

Lemma str_of_int_cases (x : Z) :
  (0 <= x /\ str_of_int x = str_of_nat x)%Z \/
  (x < 0 /\ str_of_int x = "-"%char :: str_of_nat (- x))%Z.
Proof.
  unfold str_of_int. destruct (Z.ltb_spec x 0); [right|left]; split; auto; lia.
Qed.

Lemma digit_not_sign (c : ascii) :
  is_digit c = true -> Ascii.eqb c "-" = false /\ Ascii.eqb c "+" = false.
Proof.
  intros Hc. destruct (digit_classes c Hc) as (_ & _ & _ & Hs & _).
  unfold Parser.sign, one_of in Hs. simpl in Hs.
  apply orb_false_iff in Hs. destruct Hs as [H1 Hs].
  apply orb_false_iff in Hs. tauto.
Qed.

Lemma py_float_digits (ds : str) :
  digits ds -> ds <> [] -> py_float ds = Some (inject_Z (digits_value ds)).
Proof.
  intros Hd Hne. unfold py_float.
  assert (Hc : exists c t, ds = c :: t /\ is_digit c = true).
  { destruct ds as [|c t]; [contradiction|]. inversion Hd. eauto. }
  destruct Hc as (c & t & E & Hc).
  rewrite <- (app_nil_l ds), strip_numeral; try assumption.
  - simpl app. rewrite E at 1. destruct (digit_not_sign c Hc) as [-> ->].
    rewrite <- E. now apply unsigned_float_digits.
  - simpl. rewrite E. simpl. now destruct (digit_classes c Hc) as (-> & _).
Qed.

Lemma py_float_minus_digits (ds : str) :
  digits ds -> ds <> [] ->
  py_float ("-"%char :: ds) = Some (inject_Z (- digits_value ds)).
Proof.
  intros Hd Hne. unfold py_float.
  change ("-"%char :: ds) with (["-"%char] ++ ds).
  rewrite strip_numeral by (assumption || reflexivity). simpl.
  rewrite unsigned_float_digits by assumption. reflexivity.
Qed.

(** [float(str(x))] is [x]. *)
Lemma py_float_int (x : Z) : py_float (str_of_int x) = Some (inject_Z x).
Proof.
  destruct (str_of_int_cases x) as [[Hx ->]|[Hx ->]].
  - destruct (str_of_nat_spec x Hx) as (Hne & Hd & Hv).
    now rewrite py_float_digits, Hv.
  - assert (Hx' : (0 <= - x)%Z) by lia.
    destruct (str_of_nat_spec (- x) Hx') as (Hne & Hd & Hv).
    now rewrite py_float_minus_digits, Hv, Z.opp_involutive.
Qed.

(** *** Arithmetic on integral floats *)

Lemma Qred_int (e : Q) (k : Z) : (e == inject_Z k)%Q -> Qred e = inject_Z k.
Proof.
  intros H. rewrite (Qred_complete _ _ H). apply Qcanon.Qred_identity.
  simpl. apply Z.gcd_1_r.
Qed.

Lemma rint_int (e : Q) (k : Z) : (e == inject_Z k)%Q -> rint e = k.
Proof.
  intros H. unfold rint. rewrite (Qfloor_comp _ _ H), Qfloor_Z.
  assert (E : ((e - inject_Z k ?= 1 # 2) = Lt)%Q).
  { apply (proj1 (Qlt_alt _ _)). lra. }
  now rewrite E.
Qed.

Lemma around5_int (k : Z) : around5 (inject_Z k) = inject_Z k.
Proof.
  unfold around5. rewrite (rint_int (inject_Z k * 100000)%Q (k * 100000)%Z).
  - apply Qred_int. unfold Qeq, inject_Z. simpl. lia.
  - unfold Qeq, inject_Z, Qmult. simpl. lia.
Qed.

Lemma is_integer_int (k : Z) : is_integer (inject_Z k) = true.
Proof. unfold is_integer. rewrite Qfloor_Z. apply Qeq_bool_refl. Qed.

Lemma int_of_int (k : Z) : int_of (inject_Z k) = k.
Proof. unfold int_of. simpl. apply Z.quot_1_r. Qed.

Lemma isclose_same (a b : Q) : (a == b)%Q -> isclose a b = true.
Proof.
  intros H. unfold isclose. apply Qle_bool_iff.
  assert (E : (Qabs (a - b) == 0)%Q).
  { rewrite H. setoid_replace (b - b)%Q with 0%Q by ring. reflexivity. }
  rewrite E. pose proof (Qabs_nonneg b). nra.
Qed.

(** The integers from [a] to [b - 1], as floats. *)
Lemma arange_int (a b : Z) :
  arange (inject_Z a) (inject_Z b) 1 = Ok (map inject_Z (range a b)).
Proof.
  unfold arange. change (Qeq_bool 1 0) with false. cbv iota. f_equal.
  assert (E : ((inject_Z b - inject_Z a) / 1 == inject_Z (b - a))%Q).
  { unfold Z.sub. rewrite inject_Z_plus, inject_Z_opp. field. }
  rewrite (Qceiling_comp _ _ E), Qceiling_Z. unfold range. rewrite map_map.
  apply map_ext. intros i. apply Qred_int.
  rewrite inject_Z_plus. ring.
Qed.

Lemma last_of_map_range (a b : Z) :
  (a < b)%Z -> Parser.last_of (map inject_Z (range a b)) = Ok (inject_Z (b - 1)).
Proof.
  intros H. unfold Parser.last_of, range.
  replace (Z.to_nat (b - a)) with (S (Z.to_nat (b - a - 1))) by lia.
  rewrite seq_S, !map_app, rev_app_distr. simpl. do 2 f_equal. lia.
Qed.

(** A range of integers with step 1 yields every integer from the start to
    the end, the end included. *)
Lemma expand_range_int (a b : Z) :
  (a < b)%Z ->
  Parser.expand_range (inject_Z a) (inject_Z b) 1 =
  Ok (map inject_Z (range a b), [inject_Z b]).
Proof.
  intros H. unfold Parser.expand_range. rewrite arange_int. simpl bind.
  assert (E : map around5 (map inject_Z (range a b)) = map inject_Z (range a b)).
  { rewrite map_map. apply map_ext. intros k. apply around5_int. }
  rewrite E, (last_of_map_range a b H). simpl bind.
  rewrite isclose_same; [reflexivity|].
  unfold Z.sub. rewrite inject_Z_plus, inject_Z_opp. ring.
Qed.

Lemma range_snoc (a b : Z) : (a <= b)%Z -> range a (b + 1) = range a b ++ [b].
Proof.
  intros H. unfold range.
  replace (Z.to_nat (b + 1 - a)) with (S (Z.to_nat (b - a))) by lia.
  rewrite seq_S, map_app. simpl. do 2 f_equal. lia.
Qed.

End PyFacts.

(** ** The first match of a pattern *)

Module FirstMatch.

Import Regex RegexFacts PyFacts.

#[local] Arguments is_digit : simpl never.
#[local] Arguments is_space : simpl never.
#[local] Arguments is_word : simpl never.

Lemma first_eps prev s : first_match Eps prev s = Some (eps_success s).
Proof. reflexivity. Qed.

Lemma first_cls p prev c t :
  p c = true -> first_match (Cls p) prev (c :: t) = Some (Success [c] [] t).
Proof. intros H. unfold first_match. simpl. now rewrite H. Qed.

Lemma no_cls p prev s : heads p s = false -> matches (Cls p) prev s = [].
Proof. destruct s as [|c t]; simpl; [reflexivity|]. now intros ->. Qed.

Lemma no_plus p prev s : heads p s = false -> matches (Plus p) prev s = [].
Proof. destruct s as [|c t]; simpl; [reflexivity|]. now intros ->. Qed.

(** When the first match of [a] can be continued by [b], the sequence
    matches without backtracking into [a]. *)
Lemma first_seq a b prev s m1 m2 :
  first_match a prev s = Some m1 ->
  first_match b (prev_after prev (consumed m1)) (rest m1) = Some m2 ->
  first_match (Seq a b) prev s = Some (after m1 m2).
Proof.
  unfold first_match. simpl. intros H1 H2.
  destruct (matches a prev s) as [|m l]; [discriminate|]. injection H1 as ->.
  simpl. destruct (matches b _ (rest m1)) as [|m l2]; [discriminate|].
  injection H2 as ->. reflexivity.
Qed.

Lemma first_alt_l a b prev s m :
  first_match a prev s = Some m -> first_match (Alt a b) prev s = Some m.
Proof.
  unfold first_match. simpl. destruct (matches a prev s); [discriminate|]. auto.
Qed.

Lemma first_alt_r a b prev s :
  matches a prev s = [] -> first_match (Alt a b) prev s = first_match b prev s.
Proof. unfold first_match. simpl. now intros ->. Qed.

Lemma first_opt_some a prev s m :
  first_match a prev s = Some m -> first_match (Opt a) prev s = Some m.
Proof.
  unfold first_match. simpl. destruct (matches a prev s); [discriminate|]. auto.
Qed.

Lemma first_opt_none a prev s :
  matches a prev s = [] -> first_match (Opt a) prev s = Some (eps_success s).
Proof. unfold first_match. simpl. now intros ->. Qed.

Lemma first_grp n a prev s m :
  first_match a prev s = Some m ->
  first_match (Grp n a) prev s =
  Some (Success (consumed m) ((n, consumed m) :: groups m) (rest m)).
Proof.
  unfold first_match. simpl. destruct (matches a prev s); [discriminate|].
  simpl. now intros [= ->].
Qed.

Lemma first_star_lazy p prev s : first_match (StarLazy p) prev s = Some (eps_success s).
Proof. unfold first_match. destruct s as [|c t]; simpl; [|destruct (p c)]; reflexivity. Qed.

Lemma star_greedy_stop p s : heads p s = false -> star_greedy p s = [eps_success s].
Proof. destruct s as [|c t]; simpl; [reflexivity|]. now intros ->. Qed.

(** The two longest ways for [c*] to match a run of the class. *)
Lemma star_greedy_run p ds d r :
  Forall (fun c => p c = true) ds -> p d = true -> heads p r = false ->
  exists l, star_greedy p (ds ++ d :: r) =
            Success (ds ++ [d]) [] r :: Success ds [] (d :: r) :: l.
Proof.
  intros Hds Hd Hr. induction Hds as [|c ds Hc _ [l IH]]; simpl.
  - rewrite Hd, (star_greedy_stop _ _ Hr). exists []. reflexivity.
  - rewrite Hc, IH. simpl. eexists. reflexivity.
Qed.

Lemma first_plus_run p prev ds r :
  Forall (fun c => p c = true) ds -> ds <> [] -> heads p r = false ->
  first_match (Plus p) prev (ds ++ r) = Some (Success ds [] r).
Proof.
  intros Hds Hne Hr. destruct ds as [|c ds]; [contradiction|].
  inversion Hds as [|? ? Hc Hds']; subst. unfold first_match. simpl. rewrite Hc.
  destruct (exists_last (l := c :: ds) Hne) as (init & d & E).
  destruct ds as [|c' ds].
  - simpl. now rewrite (star_greedy_stop _ _ Hr).
  - destruct (exists_last (l := c' :: ds)) as (i' & d' & E'); [discriminate|].
    rewrite E'. rewrite E' in Hds'. apply Forall_app in Hds'. destruct Hds' as [Hi Hd'].
    inversion Hd'; subst. rewrite <- app_assoc. simpl app.
    destruct (star_greedy_run p i' d' r) as [l ->]; auto.
Qed.

Lemma matches_seq a b prev s :
  matches (Seq a b) prev s =
  flat_map (fun r1 => map (after r1) (matches b (prev_after prev (consumed r1)) (rest r1)))
           (matches a prev s).
Proof. reflexivity. Qed.

Lemma matches_opt a prev s : matches (Opt a) prev s = matches a prev s ++ [eps_success s].
Proof. reflexivity. Qed.

(** [\d* \.? \d+] followed by [k], on a run of digits after which neither a
    digit nor a point comes: the star gives back the last digit to the plus,
    and [k] goes on from the end of the run. *)
Lemma first_number k prev init d r mk :
  digits init -> is_digit d = true ->
  heads is_digit r = false -> heads Parser.dot r = false ->
  first_match k (Some d) r = Some mk ->
  first_match (Seq (Star Parser.digit) (Seq (Opt (Cls Parser.dot)) (Seq (Plus Parser.digit) k)))
              prev (init ++ d :: r) =
  Some (Success (init ++ d :: consumed mk) (groups mk) (rest mk)).
Proof.
  intros Hi Hd Hr Hdot Hk.
  remember (Seq (Opt (Cls Parser.dot)) (Seq (Plus Parser.digit) k)) as x eqn:Ex.
  assert (Hx1 : forall p, matches x p r = []).
  { intros p. subst x. rewrite matches_seq, matches_opt, (no_cls _ p _ Hdot).
    cbn [flat_map app eps_success rest consumed].
    rewrite matches_seq, (no_plus _ _ _ Hr). reflexivity. }
  assert (Hx2 : forall p, first_match x p (d :: r) =
                          Some (after (eps_success (d :: r)) (after (Success [d] [] r) mk))).
  { intros p. subst x. apply first_seq.
    - apply first_opt_none, no_cls. simpl.
      now destruct (digit_classes d Hd) as (_ & -> & _).
    - apply first_seq.
      + apply (first_plus_run Parser.digit _ [d] r); [now repeat constructor|discriminate|assumption].
      + exact Hk. }
  clear Ex. unfold first_match in *. rewrite matches_seq.
  change (matches (Star Parser.digit) prev (init ++ d :: r))
    with (star_greedy Parser.digit (init ++ d :: r)).
  destruct (star_greedy_run Parser.digit init d r Hi Hd Hr) as [l ->].
  cbn [flat_map rest consumed]. rewrite Hx1. cbn [map app].
  specialize (Hx2 (prev_after prev init)).
  destruct (matches x (prev_after prev init) (d :: r)) as [|m l']; [discriminate|].
  injection Hx2 as ->. cbn [map app hd_error]. unfold after. simpl. reflexivity.
Qed.

(** A numeral of an integer: an optional minus sign and digits. *)
Definition signed (sg : str) : Prop := sg = [] \/ sg = ["-"%char].

Lemma first_sign prev sg body :
  signed sg -> heads is_digit body = true ->
  first_match (Opt (Cls Parser.sign)) prev (sg ++ body) = Some (Success sg [] body).
Proof.
  intros [->| ->] Hb.
  - simpl. apply first_opt_none, no_cls. destruct body as [|c t]; [discriminate|].
    simpl in *. now destruct (digit_classes c Hb) as (_ & _ & _ & -> & _).
  - simpl. apply first_opt_some, first_cls. reflexivity.
Qed.

Lemma heads_digits_true ds : digits ds -> ds <> [] -> heads is_digit ds = true.
Proof.
  intros Hd Hne. destruct ds as [|c t]; [contradiction|]. now inversion Hd.
Qed.

(** The characters of a range of integers. *)
Definition plain (c : ascii) : bool := is_digit c || Parser.minus c.

Lemma plain_classes :
  all_ascii (fun c => implb (plain c)
    (negb (Parser.marker c) && negb (Parser.step_marker c) && negb (Parser.dot c)
     && negb (is_space c))) = true.
Proof. vm_compute. reflexivity. Qed.

Lemma plain_not (p : ascii -> bool) (s : str) :
  all_ascii (fun c => implb (plain c) (negb (p c))) = true ->
  forallb plain s = true -> existsb p s = false.
Proof.
  intros Hp. induction s as [|c s IH]; simpl; [reflexivity|].
  intros H. apply andb_true_iff in H. destruct H as [Hc Hs].
  pose proof (all_ascii_spec _ Hp c) as E. cbv beta in E. rewrite Hc in E.
  simpl in E. apply negb_true_iff in E. rewrite E. auto.
Qed.

Lemma plain_digits (ds : str) : digits ds -> forallb plain ds = true.
Proof.
  induction 1 as [|c ds Hc _ IH]; simpl; [reflexivity|].
  unfold plain at 1. now rewrite Hc, IH.
Qed.

Lemma no_match_needs p r prev s :
  needs p r = true -> existsb p s = false -> matches r prev s = [].
Proof.
  intros Hn Hs. destruct (matches r prev s) as [|m l] eqn:E; [reflexivity|].
  assert (Hin : In m (matches r prev s)) by (rewrite E; now left).
  pose proof (matches_needs p r Hn prev s m Hin) as H1.
  rewrite (matches_split r prev s m Hin), existsb_app, H1 in Hs. discriminate.
Qed.

End FirstMatch.

(** ** The items of a compacted frame list under the three patterns *)

Module TokenFacts.

Import Regex Py Parser RegexFacts PyFacts FirstMatch.

#[local] Arguments is_digit : simpl never.
#[local] Arguments is_space : simpl never.
#[local] Arguments is_word : simpl never.

Ltac tidy := unfold after, eps_success; cbn [consumed groups rest app];
  rewrite ?app_nil_r, <- ?app_assoc; cbn [app]; try reflexivity.

Lemma heads_digits p ds :
  digits ds -> ds <> [] -> (forall c, is_digit c = true -> p c = false) ->
  heads p ds = false.
Proof.
  intros Hd Hne Hp. destruct ds as [|c t]; [contradiction|]. inversion Hd; subst.
  simpl. auto.
Qed.

Lemma heads_numeral p sg ds :
  signed sg -> digits ds -> ds <> [] -> p "-"%char = false ->
  (forall c, is_digit c = true -> p c = false) ->
  heads p (sg ++ ds) = false.
Proof.
  intros [->| ->] Hd Hne Hm Hp; simpl; [now apply heads_digits | exact Hm].
Qed.

Lemma digit_no_space c : is_digit c = true -> is_space c = false.
Proof. intros H. now destruct (digit_classes c H). Qed.

Lemma digit_no_dot c : is_digit c = true -> dot c = false.
Proof. intros H. now destruct (digit_classes c H) as (_ & ? & _). Qed.

Lemma digit_no_sign c : is_digit c = true -> sign c = false.
Proof. intros H. now destruct (digit_classes c H) as (_ & _ & _ & ? & _). Qed.

Lemma digit_no_marker c : is_digit c = true -> marker c = false.
Proof. intros H. now destruct (digit_classes c H) as (_ & _ & _ & _ & ? & _). Qed.

Lemma first_plus_all p prev ds :
  Forall (fun c => p c = true) ds -> ds <> [] ->
  first_match (Plus p) prev ds = Some (Success ds [] []).
Proof.
  intros Hd Hne. rewrite <- (app_nil_r ds) at 1. now apply first_plus_run.
Qed.

(** [\d+ \.?] on a run of digits. *)
Lemma first_whole prev ds :
  digits ds -> ds <> [] -> first_match whole prev ds = Some (Success ds [] []).
Proof.
  intros Hd Hne. unfold whole, seqs. cbn [fold_right].
  rewrite (first_seq _ _ _ _ (Success ds [] []) (eps_success [])).
  - tidy.
  - now apply first_plus_all.
  - cbn [rest consumed].
    rewrite (first_seq _ _ _ _ (eps_success []) (eps_success [])); [tidy| |reflexivity].
    apply first_opt_none. reflexivity.
Qed.

Lemma needs_range_increment : needs step_marker range_increment = true.
Proof. vm_compute. reflexivity. Qed.

Lemma needs_range_plain : needs minus range_plain = true.
Proof. vm_compute. reflexivity. Qed.

Lemma needs_fraction : needs dot fraction = true.
Proof. vm_compute. reflexivity. Qed.

Lemma plain_no_step : all_ascii (fun c => implb (plain c) (negb (step_marker c))) = true.
Proof. vm_compute. reflexivity. Qed.

Lemma plain_no_dot : all_ascii (fun c => implb (plain c) (negb (dot c))) = true.
Proof. vm_compute. reflexivity. Qed.

Lemma plain_no_marker : all_ascii (fun c => implb (plain c) (negb (marker c))) = true.
Proof. vm_compute. reflexivity. Qed.

Lemma digits_no_minus ds : digits ds -> existsb minus ds = false.
Proof.
  induction 1 as [|c ds Hc _ IH]; simpl; [reflexivity|].
  destruct (digit_classes c Hc) as (_ & _ & -> & _). exact IH.
Qed.

(** On a run of digits the whole-number alternative is the one that
    matches. *)
Lemma first_alternatives_whole prev ds :
  digits ds -> ds <> [] -> first_match alternatives prev ds = Some (Success ds [] []).
Proof.
  intros Hd Hne. unfold alternatives.
  rewrite first_alt_r
    by (apply (no_match_needs step_marker); [exact needs_range_increment|];
        apply plain_not; [exact plain_no_step | now apply plain_digits]).
  rewrite first_alt_r
    by (apply (no_match_needs minus); [exact needs_range_plain | now apply digits_no_minus]).
  rewrite first_alt_r
    by (apply (no_match_needs dot); [exact needs_fraction|];
        apply plain_not; [exact plain_no_dot | now apply plain_digits]).
  now apply first_whole.
Qed.

(** [\d* \.? \d+] at the end of the pattern and of the input. *)
Lemma first_number_end prev ds :
  digits ds -> ds <> [] ->
  first_match (seqs number) prev ds = Some (Success ds [] []).
Proof.
  intros Hd Hne. destruct (digits_last ds Hd Hne) as (init & d & -> & Hdig).
  apply Forall_app in Hd. destruct Hd as [Hi _].
  unfold number, seqs. cbn [fold_right].
  rewrite (first_number Eps prev init d [] (eps_success [])) by auto.
  tidy.
Qed.

(** [\d* \.? \d+ \s? \- \s? [-+]? \d* \.? \d+] on two integers around a
    minus sign. *)
Lemma first_range_plain prev da sg db :
  digits da -> da <> [] -> signed sg -> digits db -> db <> [] ->
  first_match range_plain prev (da ++ "-"%char :: sg ++ db) =
  Some (Success (da ++ "-"%char :: sg ++ db) [] []).
Proof.
  intros Hda Hna Hsg Hdb Hnb.
  destruct (digits_last da Hda Hna) as (init & d & -> & Hdig).
  apply Forall_app in Hda. destruct Hda as [Hi _].
  unfold range_plain, number, seqs. cbn [fold_right app]. rewrite <- app_assoc. cbn [app].
  rewrite (first_number _ prev init d ("-"%char :: sg ++ db)
             (Success ("-"%char :: sg ++ db) [] [])); auto.
  rewrite (first_seq _ _ _ _ (eps_success ("-"%char :: sg ++ db))
                       (Success ("-"%char :: sg ++ db) [] [])); [tidy| |].
  - apply first_opt_none, no_cls. reflexivity.
  - cbn [rest consumed eps_success].
    rewrite (first_seq _ _ _ _ (Success ["-"%char] [] (sg ++ db))
                       (Success (sg ++ db) [] [])); [tidy| |].
    + apply first_cls. reflexivity.
    + cbn [rest consumed].
      rewrite (first_seq _ _ _ _ (eps_success (sg ++ db)) (Success (sg ++ db) [] []));
        [tidy| |].
      * apply first_opt_none, no_cls.
        apply heads_numeral; auto using digit_no_space.
      * cbn [rest consumed eps_success].
        rewrite (first_seq _ _ _ _ (Success sg [] db) (Success db [] []));
          [tidy| |].
        -- apply first_sign; [assumption | now apply heads_digits_true].
        -- cbn [rest consumed]. now apply (first_number_end _ db).
Qed.

Lemma heads_body p sg body :
  signed sg -> heads is_digit body = true -> p "-"%char = false ->
  (forall c, is_digit c = true -> p c = false) ->
  heads p (sg ++ body) = false.
Proof.
  intros [->| ->] Hb Hm Hp; simpl; [|exact Hm].
  destruct body as [|c t]; [discriminate|]. simpl in *. auto.
Qed.

(** [numeric_pattern] takes the whole of an optionally negative item whose
    body one of the alternatives takes whole. *)
Lemma first_numeric prev sg body :
  signed sg -> heads is_digit body = true ->
  (forall p, first_match alternatives p body = Some (Success body [] [])) ->
  first_match numeric_pattern prev (sg ++ body) = Some (Success (sg ++ body) [] []).
Proof.
  intros Hsg Hb Ha. unfold numeric_pattern, seqs. cbn [fold_right].
  rewrite (first_seq _ _ _ _ (eps_success (sg ++ body)) (Success (sg ++ body) [] []));
    [tidy| |].
  - apply first_opt_none, no_cls. apply heads_body; auto using digit_no_marker.
  - cbn [rest consumed eps_success].
    rewrite (first_seq _ _ _ _ (eps_success (sg ++ body)) (Success (sg ++ body) [] []));
      [tidy|apply first_star_lazy|].
    cbn [rest consumed eps_success].
    rewrite (first_seq _ _ _ _ (Success sg [] body) (Success body [] [])); [tidy| |].
    + now apply first_sign.
    + cbn [rest consumed].
      rewrite (first_seq _ _ _ _ (Success body [] []) (eps_success [])); [tidy| |reflexivity].
      apply Ha.
Qed.

(** The numeral of an integer: an optional minus sign, then digits. *)
Lemma str_of_int_numeral (x : Z) :
  exists sg ds, str_of_int x = sg ++ ds /\ signed sg /\ digits ds /\ ds <> [] /\
                forallb plain (str_of_int x) = true.
Proof.
  destruct (str_of_int_cases x) as [[Hx E]|[Hx E]]; rewrite E.
  - destruct (str_of_nat_spec x Hx) as (Hne & Hd & _).
    exists [], (str_of_nat x). repeat split; auto; [now left | now apply plain_digits].
  - assert (Hx' : (0 <= - x)%Z) by lia.
    destruct (str_of_nat_spec (- x) Hx') as (Hne & Hd & _).
    exists ["-"%char], (str_of_nat (- x)). repeat split; auto; [now right|].
    simpl. now apply plain_digits.
Qed.

Lemma nonempty_numeric : nonempty numeric_pattern = true.
Proof. reflexivity. Qed.

Lemma findall_skip r : nonempty r = true -> forall t prev,
  findall_from r (length t) prev t = [].
Proof.
  intros Hr. induction t as [|c t IH]; intros prev; simpl.
  - now rewrite (first_match_nil r prev Hr).
  - apply IH.
Qed.

(** An item that the pattern takes whole is the one thing [findall] finds
    in it. *)
Lemma findall_whole r tok :
  nonempty r = true -> tok <> [] ->
  first_match r None tok = Some (Success tok [] []) ->
  findall r tok = [tok].
Proof.
  intros Hr Hne H. destruct tok as [|c t]; [contradiction|].
  unfold findall. simpl. rewrite H. cbn [consumed length pred].
  now rewrite (findall_skip r Hr).
Qed.

Lemma findall_single (x : Z) : findall numeric_pattern (str_of_int x) = [str_of_int x].
Proof.
  destruct (str_of_int_numeral x) as (sg & ds & E & Hsg & Hd & Hne & _).
  apply findall_whole; [reflexivity | |].
  - rewrite E. destruct sg, ds; try discriminate. contradiction.
  - rewrite E. apply first_numeric; auto using heads_digits_true.
    intros p. now apply first_alternatives_whole.
Qed.

(** The text [a-b] of a range of integers. *)
Definition range_text (a b : Z) : str := str_of_int a ++ "-"%char :: str_of_int b.

Lemma plain_range_text (a b : Z) : forallb plain (range_text a b) = true.
Proof.
  unfold range_text.
  destruct (str_of_int_numeral a) as (_ & _ & _ & _ & _ & _ & Ha).
  destruct (str_of_int_numeral b) as (_ & _ & _ & _ & _ & _ & Hb).
  rewrite forallb_app, Ha. simpl. exact Hb.
Qed.

Lemma forallb_app_r {A : Type} (f : A -> bool) (u v : list A) :
  forallb f (u ++ v) = true -> forallb f v = true.
Proof. rewrite forallb_app. intros H. apply andb_true_iff in H. tauto. Qed.

Lemma first_numeric_range prev (a b : Z) :
  first_match numeric_pattern prev (range_text a b) = Some (Success (range_text a b) [] []).
Proof.
  pose proof (plain_range_text a b) as Hp. unfold range_text in *.
  destruct (str_of_int_numeral a) as (sga & da & Ea & Hsa & Hda & Hna & _).
  destruct (str_of_int_numeral b) as (sgb & db & Eb & Hsb & Hdb & Hnb & _).
  rewrite Ea, Eb in *. clear Ea Eb.
  rewrite <- app_assoc in *. apply first_numeric; auto.
  - destruct da as [|c t]; [contradiction|]. now inversion Hda.
  - intros p. unfold alternatives.
    rewrite first_alt_r
      by (apply (no_match_needs step_marker); [exact needs_range_increment|];
          apply plain_not; [exact plain_no_step | exact (forallb_app_r _ _ _ Hp)]).
    apply first_alt_l. now apply first_range_plain.
Qed.

Lemma findall_range (a b : Z) : findall numeric_pattern (range_text a b) = [range_text a b].
Proof.
  apply findall_whole; [reflexivity | | apply first_numeric_range].
  unfold range_text. destruct (str_of_int a); discriminate.
Qed.

(** *** [exclude_pattern] and [range_pattern] on a range of integers *)

Lemma search_needs_first p k s : existsb p s = false -> forall prev,
  search_from (Seq (Cls p) k) prev s = None.
Proof.
  induction s as [|c s IH]; simpl; intros H prev; [reflexivity|].
  apply orb_false_iff in H. destruct H as [Hc Hs].
  unfold first_match. simpl. rewrite Hc. simpl. now apply IH.
Qed.

Lemma search_exclude_plain s :
  forallb plain s = true -> search exclude_pattern s = None.
Proof.
  intros H. apply search_needs_first, plain_not; [exact plain_no_marker | exact H].
Qed.

Lemma prev_after_snoc prev w d : prev_after prev (w ++ [d]) = Some d.
Proof. unfold prev_after. now rewrite rev_app_distr. Qed.

Lemma first_wordb prev s :
  word_at prev = true -> word_at (hd_error s) = false ->
  first_match WordB prev s = Some (eps_success s).
Proof. intros H1 H2. unfold first_match. simpl. now rewrite H1, H2. Qed.

(** The start frame group on a numeral that a minus sign follows. *)
Lemma first_start_frame prev sg ds r :
  signed sg -> digits ds -> ds <> [] ->
  first_match start_frame prev (sg ++ ds ++ "-"%char :: r) =
  Some (Success (sg ++ ds) [] ("-"%char :: r)).
Proof.
  intros Hsg Hd Hne. unfold start_frame, seqs. cbn [fold_right].
  assert (Hh : heads is_digit (ds ++ "-"%char :: r) = true).
  { destruct ds as [|c t]; [contradiction|]. now inversion Hd. }
  rewrite (first_seq _ _ _ _ (Success sg [] (ds ++ "-"%char :: r))
                     (Success ds [] ("-"%char :: r))); [tidy| |].
  - now apply first_sign.
  - cbn [rest consumed].
    rewrite (first_seq _ _ _ _ (eps_success (ds ++ "-"%char :: r))
                       (Success ds [] ("-"%char :: r))); [tidy|apply first_star_lazy|].
    cbn [rest consumed eps_success].
    rewrite (first_seq _ _ _ _ (eps_success (ds ++ "-"%char :: r))
                       (Success ds [] ("-"%char :: r))); [tidy| |].
    + apply first_opt_none, no_cls.
      destruct ds as [|c t]; [contradiction|]. inversion Hd; subst. simpl.
      now apply digit_no_dot.
    + cbn [rest consumed eps_success].
      rewrite (first_seq _ _ _ _ (Success ds [] ("-"%char :: r))
                         (eps_success ("-"%char :: r))); [tidy| |].
      * now apply first_plus_run.
      * cbn [rest consumed].
        rewrite (first_seq _ _ _ _ (eps_success ("-"%char :: r))
                           (eps_success ("-"%char :: r))); [tidy| |reflexivity].
        destruct (digits_last ds Hd Hne) as (init & d & -> & Hdig).
        apply first_wordb; [|reflexivity].
        rewrite prev_after_snoc. simpl.
        now destruct (digit_classes d Hdig) as (_ & _ & _ & _ & _ & _ & -> & _).
Qed.

Lemma first_minus_sign prev r :
  heads is_space r = false ->
  first_match minus_sign prev ("-"%char :: r) = Some (Success ["-"%char] [] r).
Proof.
  intros Hr. unfold minus_sign, seqs. cbn [fold_right].
  rewrite (first_seq _ _ _ _ (eps_success ("-"%char :: r)) (Success ["-"%char] [] r));
    [tidy|apply first_star_lazy|].
  cbn [rest consumed eps_success].
  rewrite (first_seq _ _ _ _ (Success ["-"%char] [] r) (eps_success r)); [tidy| |].
  - apply first_cls. reflexivity.
  - cbn [rest consumed].
    rewrite (first_seq _ _ _ _ (eps_success r) (eps_success r));
      [tidy|apply first_star_lazy|reflexivity].
Qed.

Lemma first_end_frame prev sg ds :
  signed sg -> digits ds -> ds <> [] ->
  first_match end_frame prev (sg ++ ds) = Some (Success (sg ++ ds) [] []).
Proof.
  intros Hsg Hd Hne. unfold end_frame, seqs. cbn [fold_right].
  rewrite (first_seq _ _ _ _ (Success sg [] ds) (Success ds [] [])); [tidy| |].
  - apply first_sign; [assumption | now apply heads_digits_true].
  - cbn [rest consumed]. now apply (first_number_end _ ds).
Qed.

(** [range_pattern] on [a-b]: the groups are the two numerals, and the
    increment group takes no part. *)
Lemma search_range_text (a b : Z) :
  search range_pattern (range_text a b) =
  Some (Success (range_text a b)
                [(1, str_of_int a); (2, ["-"%char]); (3, str_of_int b)] []).
Proof.
  unfold range_text.
  destruct (str_of_int_numeral a) as (sga & da & Ea & Hsa & Hda & Hna & _).
  destruct (str_of_int_numeral b) as (sgb & db & Eb & Hsb & Hdb & Hnb & _).
  rewrite Ea, Eb. clear Ea Eb.
  assert (H : first_match range_pattern None ((sga ++ da) ++ "-"%char :: sgb ++ db) =
              Some (Success ((sga ++ da) ++ "-"%char :: sgb ++ db)
                      [(1, sga ++ da); (2, ["-"%char]); (3, sgb ++ db)] [])).
  { unfold range_pattern, seqs. cbn [fold_right].
    rewrite (first_seq _ _ _ _
               (Success (sga ++ da) [(1, sga ++ da)] ("-"%char :: sgb ++ db))
               (Success ("-"%char :: sgb ++ db) [(2, ["-"%char]); (3, sgb ++ db)] []));
      [tidy| |].
    - rewrite (first_grp 1 _ _ _ (Success (sga ++ da) [] ("-"%char :: sgb ++ db)));
        [reflexivity|].
      rewrite <- app_assoc. now apply first_start_frame.
    - cbn [rest consumed].
      rewrite (first_seq _ _ _ _
                 (Success ["-"%char] [(2, ["-"%char])] (sgb ++ db))
                 (Success (sgb ++ db) [(3, sgb ++ db)] [])); [tidy| |].
      + rewrite (first_grp 2 _ _ _ (Success ["-"%char] [] (sgb ++ db))); [reflexivity|].
        apply first_minus_sign. apply heads_numeral; auto using digit_no_space.
      + cbn [rest consumed].
        rewrite (first_seq _ _ _ _
                   (Success (sgb ++ db) [(3, sgb ++ db)] []) (eps_success [])); [tidy| |].
        * rewrite (first_grp 3 _ _ _ (Success (sgb ++ db) [] [])); [reflexivity|].
          now apply first_end_frame.
        * cbn [rest consumed].
          rewrite (first_seq _ _ _ _ (eps_success []) (eps_success []));
            [tidy| |reflexivity].
          apply first_opt_none. reflexivity. }
  unfold search. destruct ((sga ++ da) ++ "-"%char :: sgb ++ db) eqn:E.
  - destruct (sga ++ da); discriminate.
  - rewrite <- E in *. unfold search_from. rewrite E at 1. rewrite <- E.
    now rewrite H.
Qed.

(** [float] refuses the text of a range. *)
Lemma py_float_range_text (a b : Z) : py_float (range_text a b) = None.
Proof.
  unfold range_text.
  destruct (str_of_int_numeral a) as (sga & da & Ea & Hsa & Hda & Hna & _).
  destruct (str_of_int_numeral b) as (sgb & db & Eb & Hsb & Hdb & Hnb & _).
  rewrite Ea, Eb. clear Ea Eb.
  assert (Hu : unsigned_float (da ++ "-"%char :: sgb ++ db) = None).
  { unfold unsigned_float. rewrite span_digits_app by (assumption || reflexivity).
    cbn. destruct da; [contradiction|]. reflexivity. }
  unfold py_float.
  replace ((sga ++ da) ++ "-"%char :: sgb ++ db)
    with ((sga ++ da ++ "-"%char :: sgb) ++ db)
    by (rewrite <- !app_assoc; reflexivity).
  rewrite strip_numeral; try assumption.
  - rewrite <- !app_assoc. cbn [app].
    destruct Hsa as [->| ->]; cbn [app].
    + destruct da as [|c t]; [contradiction|].
      assert (Hc : is_digit c = true) by now inversion Hda.
      cbn [app]. destruct (digit_not_sign c Hc) as [-> ->]. exact Hu.
    + simpl. now rewrite Hu.
  - rewrite <- !app_assoc. apply heads_body.
    + assumption.
    + destruct da as [|c t]; [contradiction|]. now inversion Hda.
    + reflexivity.
    + apply digit_no_space.
Qed.

End TokenFacts.

(** ** The parser on integers and ranges of integers *)

Module ParserFacts.

Import Regex Py Parser RegexFacts PyFacts FirstMatch TokenFacts.

#[local] Arguments is_digit : simpl never.
#[local] Arguments is_space : simpl never.
#[local] Arguments is_word : simpl never.

Lemma qlt_int (a b : Z) : qlt (inject_Z a) (inject_Z b) = (a <? b)%Z.
Proof.
  unfold qlt. destruct (Z.ltb_spec a b) as [H|H].
  - apply negb_true_iff. destruct (Qle_bool (inject_Z b) (inject_Z a)) eqn:E; [|reflexivity].
    apply Qle_bool_iff in E. rewrite <- Zle_Qle in E. lia.
  - apply negb_false_iff, Qle_bool_iff. rewrite <- Zle_Qle. lia.
Qed.

Lemma Qeq_bool_int (a b : Z) : Qeq_bool (inject_Z a) (inject_Z b) = (a =? b)%Z.
Proof.
  destruct (Z.eqb_spec a b) as [->|H].
  - apply Qeq_bool_refl.
  - destruct (Qeq_bool (inject_Z a) (inject_Z b)) eqn:E; [|reflexivity].
    apply Qeq_bool_eq in E. apply (proj1 (inject_Z_injective a b)) in E. contradiction.
Qed.

Lemma py_min_int (a b : Z) : py_min (inject_Z a) (inject_Z b) = inject_Z (Z.min a b).
Proof.
  unfold py_min. rewrite qlt_int. destruct (Z.ltb_spec b a); f_equal; lia.
Qed.

Lemma py_max_int (a b : Z) : py_max (inject_Z a) (inject_Z b) = inject_Z (Z.max a b).
Proof.
  unfold py_max. rewrite qlt_int. destruct (Z.ltb_spec a b); f_equal; lia.
Qed.

Lemma starts_plain s : forallb plain s = true -> starts_with_exclude s = false.
Proof.
  destruct s as [|c t]; simpl; [reflexivity|]. intros H.
  apply andb_true_iff in H. destruct H as [Hc _].
  pose proof (all_ascii_spec _ plain_no_marker c) as E. cbv beta in E.
  rewrite Hc in E. simpl in E. now apply negb_true_iff in E.
Qed.

Definition add_frames (a : acc) (l : list Q) : acc :=
  Acc (frame_list a ++ l) (exclude_list a)
      (if conform_flag a then conform_list a ++ l else conform_list a)
      (conform_flag a).

(** The item of one integer adds that integer. *)
Lemma step_item_single increment filter_individual a (x : Z) :
  step_item increment filter_individual a (str_of_int x) =
  Ok (add_frames a [inject_Z x]).
Proof. unfold step_item, float_filter. now rewrite py_float_int. Qed.

(** The item [a-b] without a step, under the default increment 1, adds the
    integers from the smaller to the greater of the two, both included. *)
Lemma step_item_range filter_individual acc0 (a b : Z) :
  conform_flag acc0 = false ->
  step_item 1 filter_individual acc0 (range_text a b) =
  Ok (add_frames acc0 (map inject_Z (range (Z.min a b) (Z.max a b + 1)))).
Proof.
  intros Hflag. unfold step_item, float_filter.
  rewrite py_float_range_text, (search_exclude_plain _ (plain_range_text a b)).
  rewrite search_range_text. cbn [group groups find fst snd Nat.eqb].
  rewrite !py_float_int. cbn [need bind].
  rewrite py_min_int, py_max_int, qlt_int, Qeq_bool_int.
  rewrite (starts_plain _ (plain_range_text a b)).
  unfold add_frames. rewrite Hflag.
  destruct (Z.ltb_spec (Z.min a b) (Z.max a b)) as [Hlt|Hge].
  - rewrite (expand_range_int _ _ Hlt). cbn [bind negb].
    rewrite range_snoc, map_app by lia. reflexivity.
  - assert (E : Z.min a b = Z.max a b) by lia. rewrite E, Z.eqb_refl. cbn [negb].
    unfold range.
    replace (Z.to_nat (Z.max a b + 1 - Z.max a b)) with 1 by lia.
    cbn [seq map]. rewrite Z.add_0_r. reflexivity.
Qed.

(** *** Comma-separated items *)

Lemma refuses_comma : refuses ","%char numeric_pattern = true.
Proof. vm_compute. reflexivity. Qed.

Lemma findall_join (toks : list str) :
  Forall (fun tok => findall numeric_pattern tok = [tok]) toks ->
  findall numeric_pattern (join [","%char] toks) = toks.
Proof.
  induction 1 as [|x l Hx Hl IH]; [reflexivity|].
  destruct l as [|y l]; [exact Hx|].
  change (join [","%char] (x :: y :: l)) with (x ++ ","%char :: join [","%char] (y :: l)).
  rewrite (findall_junk numeric_pattern ","%char x _ refuses_comma nonempty_numeric).
  now rewrite Hx, IH.
Qed.

Lemma first_exclude_plain (toks : list str) : forall i,
  Forall (fun tok => forallb plain tok = true) toks ->
  first_exclude_from i toks = None.
Proof.
  induction toks as [|x l IH]; intros i H; [reflexivity|].
  inversion H as [|? ? Hx Hl]; subst. simpl.
  pose proof (plain_not marker x plain_no_marker Hx) as E. unfold marker in E.
  unfold has_exclude. rewrite E. now apply IH.
Qed.

Lemma run_items_app increment fi : forall items1 items2 a,
  run_items increment fi a (items1 ++ items2) =
  bind (run_items increment fi a items1) (fun a' => run_items increment fi a' items2).
Proof.
  induction items1 as [|x l IH]; intros items2 a; simpl; [reflexivity|].
  destruct (step_item increment fi a x); simpl; [apply IH | reflexivity].
Qed.

End ParserFacts.

(** ** The range compactor, and its round trip through the parser *)

Module CompactorFacts.

Import Regex Py Parser Compactor RegexFacts PyFacts FirstMatch TokenFacts ParserFacts SetFacts.

#[local] Arguments is_digit : simpl never.
#[local] Arguments is_space : simpl never.
#[local] Arguments is_word : simpl never.

Definition keyed_from (i : nat) (frames : list Z) : list (Z * Z) :=
  map (fun p => ((Z.of_nat (fst p) - snd p)%Z, snd p))
      (combine (seq i (length frames)) frames).

Lemma keyed_from_cons i x t :
  keyed_from i (x :: t) = ((Z.of_nat i - x)%Z, x) :: keyed_from (S i) t.
Proof. reflexivity. Qed.

(** Each member is the one before it plus one. *)
Fixpoint consecutive (g : list Z) : Prop :=
  match g with
  | a :: ((b :: _) as t) => b = (a + 1)%Z /\ consecutive t
  | _ => True
  end.

(** A run: a non-empty list of consecutive integers. *)
Definition is_run (g : list Z) : Prop := g <> [] /\ consecutive g.

(** Neighbouring groups cannot be merged. *)
Fixpoint separated (gs : list (list Z)) : Prop :=
  match gs with
  | g :: ((g' :: _) as t) => (last g 0 + 1 <> hd 0 g')%Z /\ separated t
  | _ => True
  end.

Lemma range_cons (a b : Z) : (a < b)%Z -> range a b = a :: range (a + 1) b.
Proof.
  intros H. unfold range.
  replace (Z.to_nat (b - a)) with (S (Z.to_nat (b - (a + 1)))) by lia.
  cbn [seq map]. rewrite Z.add_0_r. f_equal.
  rewrite <- seq_shift, map_map. apply map_ext. intros i. lia.
Qed.

Lemma range_empty (a b : Z) : (b <= a)%Z -> range a b = [].
Proof. intros H. unfold range. now replace (Z.to_nat (b - a)) with 0 by lia. Qed.

(** A run is the range from its first to its last member. *)
Lemma run_range (g : list Z) :
  is_run g -> (hd 0 g <= last g 0)%Z /\ g = range (hd 0%Z g) (last g 0%Z + 1).
Proof.
  intros [Hne Hc]. induction g as [|a g IH]; [contradiction|].
  destruct g as [|b g'].
  - simpl. split; [lia|]. rewrite range_cons, range_empty by lia. reflexivity.
  - destruct Hc as [-> Hc]. destruct IH as [Hle E]; [discriminate|assumption|].
    change (hd 0%Z (a :: (a + 1)%Z :: g')) with a.
    change (last (a :: (a + 1)%Z :: g') 0%Z) with (last ((a + 1)%Z :: g') 0%Z).
    change (hd 0%Z ((a + 1)%Z :: g')) with (a + 1)%Z in *.
    split; [lia|]. rewrite range_cons by lia. now rewrite <- E.
Qed.

Lemma groupby_cons p q t :
  groupby (p :: q :: t) =
  match groupby (q :: t) with
  | g :: gs' => if (fst p =? fst q)%Z then (snd p :: g) :: gs' else [snd p] :: g :: gs'
  | [] => [[snd p]]
  end.
Proof.
  change (groupby (p :: q :: t)) with
    (let gs := groupby (q :: t) in
     match gs with
     | g :: gs' => if (fst p =? fst q)%Z then (snd p :: g) :: gs' else [snd p] :: gs
     | _ => [snd p] :: gs
     end).
  cbv zeta. destruct (groupby (q :: t)); reflexivity.
Qed.

Lemma groupby_keyed_cons i x y t :
  groupby (keyed_from i (x :: y :: t)) =
  match groupby (keyed_from (S i) (y :: t)) with
  | g :: gs' => if (y =? x + 1)%Z then (x :: g) :: gs' else [x] :: g :: gs'
  | [] => [[x]]
  end.
Proof.
  rewrite (keyed_from_cons i x), (keyed_from_cons (S i) y), groupby_cons.
  cbn [fst snd].
  replace (Z.of_nat i - x =? Z.of_nat (S i) - y)%Z with (y =? x + 1)%Z
    by (destruct (Z.eqb_spec y (x + 1)), (Z.eqb_spec (Z.of_nat i - x) (Z.of_nat (S i) - y));
        lia || reflexivity).
  reflexivity.
Qed.

(** [groupby] on the keys [i - x] cuts a list into runs that cannot be
    merged, and loses nothing. *)
Lemma groupby_runs (xs : list Z) : forall i,
  concat (groupby (keyed_from i xs)) = xs /\
  Forall is_run (groupby (keyed_from i xs)) /\
  separated (groupby (keyed_from i xs)).
Proof.
  induction xs as [|x t IH]; intros i; [repeat split; constructor|].
  destruct t as [|y t'].
  - split; [reflexivity|]. split; [|exact I].
    repeat constructor. discriminate.
  - rewrite groupby_keyed_cons. destruct (IH (S i)) as (Hc & Hr & Hs).
    destruct (groupby (keyed_from (S i) (y :: t'))) as [|g gs']; [discriminate|].
    inversion Hr as [|? ? [Hne Hg] Hgs]; subst.
    destruct g as [|z g0]; [contradiction|].
    assert (z = y) by (simpl in Hc; congruence). subst z.
    destruct (Z.eqb_spec y (x + 1)) as [E|E].
    + split; [simpl in *; congruence|]. split.
      * constructor; [|assumption]. split; [discriminate|]. simpl. auto.
      * destruct gs' as [|[|w g1] gs'']; simpl in *; tauto.
    + split; [simpl in *; congruence|]. split.
      * constructor; [|assumption]. repeat constructor. discriminate.
      * cbn [separated]. split; [simpl; lia | exact Hs].
Qed.

Lemma length_range (a b : Z) : length (range a b) = Z.to_nat (b - a).
Proof. unfold range. now rewrite length_map, length_seq. Qed.

(** The item of a run: one number, or the first and the last around a
    minus sign. *)
Lemma token_run (g : list Z) :
  is_run g ->
  token g = if (hd 0 g =? last g 0)%Z then str_of_int (hd 0%Z g)
            else range_text (hd 0%Z g) (last g 0%Z).
Proof.
  intros Hg. destruct (run_range g Hg) as [Hle E].
  set (a := hd 0%Z g) in *. set (b := last g 0%Z) in *.
  unfold token. fold a b. destruct (Z.eqb_spec a b) as [Hab|Hab].
  - rewrite E, length_range. replace (Z.to_nat (b + 1 - a)) with 1 by lia. reflexivity.
  - rewrite E, length_range.
    replace (Z.to_nat (b + 1 - a)) with (S (S (Z.to_nat (b - a - 1)))) by lia.
    cbn [firstn]. rewrite firstn_nil. reflexivity.
Qed.

Lemma findall_token (g : list Z) :
  is_run g -> findall numeric_pattern (token g) = [token g].
Proof.
  intros Hg. rewrite (token_run g Hg).
  destruct (_ =? _)%Z; [apply findall_single | apply findall_range].
Qed.

Lemma plain_token (g : list Z) : is_run g -> forallb plain (token g) = true.
Proof.
  intros Hg. rewrite (token_run g Hg). destruct (_ =? _)%Z.
  - now destruct (str_of_int_numeral (hd 0%Z g)) as (_ & _ & _ & _ & _ & _ & H).
  - apply plain_range_text.
Qed.

Lemma step_item_token (g : list Z) (a : acc) :
  is_run g -> conform_flag a = false ->
  step_item 1 false a (token g) = Ok (add_frames a (map inject_Z g)).
Proof.
  intros Hg Hflag. rewrite (token_run g Hg). destruct (run_range g Hg) as [Hle E].
  set (x := hd 0%Z g) in *. set (y := last g 0%Z) in *. clearbody x y. subst g.
  destruct (Z.eqb_spec x y) as [Hab|Hab].
  - rewrite step_item_single. subst y.
    rewrite range_cons, range_empty by lia. reflexivity.
  - rewrite step_item_range by assumption.
    replace (Z.min x y) with x by lia. replace (Z.max x y) with y by lia. reflexivity.
Qed.

Lemma run_items_tokens (gs : list (list Z)) : forall a,
  Forall is_run gs -> conform_flag a = false ->
  run_items 1 false a (map token gs) = Ok (add_frames a (map inject_Z (concat gs))).
Proof.
  induction gs as [|g gs IH]; intros a Hr Hflag.
  - destruct a as [fl el cl cf]. simpl in Hflag. subst cf.
    simpl. unfold add_frames. simpl. now rewrite app_nil_r.
  - inversion Hr; subst. cbn [map run_items concat].
    rewrite step_item_token by assumption. cbn [bind].
    rewrite IH by (assumption || (unfold add_frames; assumption)).
    unfold add_frames. cbn [frame_list exclude_list conform_list conform_flag].
    rewrite Hflag, map_app, app_assoc. reflexivity.
Qed.

Lemma difference_nil (l : list Q) : difference Qeq_bool l [] = l.
Proof.
  unfold difference. induction l as [|x l IH]; [reflexivity|].
  cbn [filter mem existsb negb]. f_equal. exact IH.
Qed.

Lemma all_some_ints (xs : list Z) :
  all_some (map int_filter (map inject_Z xs)) = Some xs.
Proof.
  induction xs as [|x xs IH]; [reflexivity|]. cbn [map all_some].
  unfold int_filter at 1. rewrite is_integer_int, int_of_int, IH. reflexivity.
Qed.

Lemma increasing_floats (xs : list Z) :
  StronglySorted Z.lt xs -> StronglySorted Qlt (map inject_Z xs).
Proof.
  induction 1 as [|x xs _ IH Hx]; simpl; constructor; [assumption|].
  apply Forall_forall. intros q Hq. apply in_map_iff in Hq.
  destruct Hq as (y & <- & Hy). rewrite Forall_forall in Hx.
  rewrite <- Zlt_Qlt. now apply Hx.
Qed.

Lemma set_of_increasing (l : list Q) :
  StronglySorted Qlt l -> sorted Qle_bool (to_set Qeq_bool l) = l.
Proof.
  intros H. rewrite (to_set_increasing Q Qeq_bool Qlt).
  - apply (sorted_increasing Q Qle_bool Qlt); [|assumption].
    intros x y Hxy. apply Qle_bool_iff. now apply Qlt_le_weak.
  - intros x y Hxy. destruct (Qeq_bool x y) eqn:E; [|reflexivity].
    apply Qeq_bool_eq in E. rewrite E in Hxy. now apply Qlt_irrefl in Hxy.
  - assumption.
Qed.

(** What the parser makes of the compacted form of a list. *)
Lemma parse_rangify (xs : list Z) :
  xs <> [] ->
  filter_frames (rangify_frames xs) 1 false =
  Ok (Some (match all_some (map int_filter
                     (sorted Qle_bool (to_set Qeq_bool (map inject_Z xs)))) with
            | Some l => IntFrames l
            | None => FloatFrames (sorted Qle_bool (to_set Qeq_bool (map inject_Z xs)))
            end)).
Proof.
  intros Hne. unfold rangify_frames, keyed. fold (keyed_from 0 xs).
  destruct (groupby_runs xs 0) as (Hc & Hr & _).
  set (gs := groupby (keyed_from 0 xs)) in *.
  unfold filter_frames. rewrite findall_join.
  2: { apply Forall_forall. intros tok Ht. apply in_map_iff in Ht.
       destruct Ht as (g & <- & Hg). rewrite Forall_forall in Hr.
       now apply findall_token, Hr. }
  destruct gs as [|g gs'] eqn:Eg; [simpl in Hc; congruence|]. rewrite <- Eg in *.
  assert (Hnt : map token gs <> []) by (rewrite Eg; discriminate).
  destruct (map token gs) as [|t0 ts] eqn:Et; [contradiction|]. rewrite <- Et.
  cbn [negb]. unfold auto_exclude. rewrite first_exclude_plain.
  2: { apply Forall_forall. intros tok Ht. apply in_map_iff in Ht.
       destruct Ht as (g1 & <- & Hg). rewrite Forall_forall in Hr.
       now apply plain_token, Hr. }
  rewrite run_items_tokens by (assumption || reflexivity).
  cbn [bind add_frames frame_list exclude_list conform_list conform_flag app].
  rewrite Hc, difference_nil.
  destruct (all_some _); reflexivity.
Qed.

(** How a run is written. *)
Definition written (g : list Z) : str :=
  if (hd 0 g =? last g 0)%Z then str_of_int (hd 0%Z g)
  else str_of_int (hd 0%Z g) ++ "-"%char :: str_of_int (last g 0%Z).

(** C4, amended. The compactor cuts the list into maximal runs of
    consecutive integers and writes each run as [start-end], a run of one
    as the number alone, with commas in between:
    [compact([1,2,3,7,9,10])] is ["1-3,7,9-10"]. For every non-empty strictly
    increasing list of integers, parsing the compacted string with the
    default step 1 in global mode gives the list back; the integers are
    those that the floats of the parser hold exactly. *)
Theorem compact_round_trip (xs : list Z) :
  xs <> [] ->
  StronglySorted Z.lt xs ->
  Forall exact_frame xs ->
  (exists gs, concat gs = xs /\ Forall is_run gs /\ separated gs /\
              rangify_frames xs = join [","%char] (map written gs)) /\
  rangify_frames [1; 2; 3; 7; 9; 10]%Z = lit "1-3,7,9-10" /\
  filter_frames (rangify_frames xs) 1 false = Ok (Some (IntFrames xs)).
Proof.
  intros Hne Hs _. split; [|split; [reflexivity|]].
  - destruct (groupby_runs xs 0) as (Hc & Hr & Hsep).
    exists (groupby (keyed_from 0 xs)). repeat split; try assumption.
    unfold rangify_frames, keyed. fold (keyed_from 0 xs). f_equal.
    apply map_ext_in. intros g Hg. rewrite Forall_forall in Hr.
    now rewrite (token_run g (Hr g Hg)).
  - rewrite (parse_rangify xs Hne), (set_of_increasing _ (increasing_floats xs Hs)).
    now rewrite all_some_ints.
Qed.

Lemma compact_round_trip_witness :
  filter_frames (rangify_frames [1; 2; 3; 7; 9; 10]%Z) 1 false =
  Ok (Some (IntFrames [1; 2; 3; 7; 9; 10]%Z)).
Proof.
  apply (compact_round_trip [1; 2; 3; 7; 9; 10]%Z).
  - discriminate.
  - repeat constructor; lia.
  - repeat constructor.
Defined.

(** The empty list is strictly increasing, its compacted form is the empty
    string, and the parser answers [None] to it, not the empty list. *)
Lemma compact_round_trip_fails_on_empty :
  ~ (forall xs : list Z, StronglySorted Z.lt xs -> Forall exact_frame xs ->
       filter_frames (rangify_frames xs) 1 false = Ok (Some (IntFrames xs))).
Proof.
  intros H. specialize (H [] (SSorted_nil _) (Forall_nil _)). vm_compute in H.
  discriminate.
Qed.

End CompactorFacts.

(** ** Ranges *)

Module RangeFacts.

Import Regex Py Parser RegexFacts PyFacts FirstMatch TokenFacts ParserFacts CompactorFacts.









End RangeFacts.

(** ** Numerals with a decimal point *)

Module PointFacts.

Import Regex Py RegexFacts PyFacts.

#[local] Arguments is_digit : simpl never.

(** No character of [s] is the decimal point. *)
Definition pointless (s : str) : Prop := Forall (fun c => Ascii.eqb c "."%char = false) s.

Lemma digit_not_point_all :
  all_ascii (fun c => implb (is_digit c) (negb (Ascii.eqb c "."%char))) = true.
Proof. vm_compute. reflexivity. Qed.

Lemma digits_pointless (ds : str) : digits ds -> pointless ds.
Proof.
  intros H. induction H as [|c ds Hc _ IH]; constructor; [|exact IH].
  pose proof (all_ascii_spec _ digit_not_point_all c) as E. cbv beta in E.
  rewrite Hc in E. cbv [implb] in E. now apply negb_true_iff in E.
Qed.

Lemma pointless_app (a b : str) : pointless a -> pointless b -> pointless (a ++ b).
Proof. intros Ha Hb. apply Forall_app. now split. Qed.

Lemma split_pointless (s : str) : pointless s -> split "."%char s = [s].
Proof.
  intros H. induction H as [|c s Hc _ IH]; [reflexivity|].
  cbn [split]. now rewrite Hc, IH.
Qed.

Lemma split_at_point (a b : str) :
  pointless a -> split "."%char (a ++ "."%char :: b) = a :: split "."%char b.
Proof.
  intros H. induction H as [|c a Hc _ IH]; [reflexivity|].
  cbn [app split]. now rewrite Hc, IH.
Qed.

Lemma digits_repeat_zero (n : nat) : digits (repeat "0"%char n).
Proof. induction n; constructor; [reflexivity | assumption]. Qed.

Lemma digits_zfill (w : nat) (s : str) : digits s -> digits (zfill w s).
Proof. intros H. apply Forall_app. split; [apply digits_repeat_zero | assumption]. Qed.

Lemma length_zfill (w : nat) (s : str) : length (zfill w s) = Nat.max w (length s).
Proof. unfold zfill. rewrite length_app, repeat_length. lia. Qed.

Lemma length_digits_of (fuel : nat) : forall n acc k,
  (0 <= n < 10 ^ Z.of_nat k)%Z -> 1 <= k ->
  length (digits_of fuel n acc) <= k + length acc.
Proof.
  induction fuel as [|fuel IH]; intros n acc k Hn Hk; simpl; [lia|].
  destruct (Z.ltb_spec n 10) as [Hlt|Hge]; simpl; [lia|].
  destruct k as [|[|k]]; [lia | change (10 ^ Z.of_nat 1)%Z with 10%Z in Hn; lia |].
  specialize (IH (n / 10)%Z (digit_char (n mod 10) :: acc) (S k)).
  simpl length in IH. rewrite Nat.add_succ_r in IH. apply IH; [|lia].
  split; [apply Z.div_pos; lia|]. apply Z.div_lt_upper_bound; [lia|].
  replace (Z.of_nat (S (S k))) with (Z.succ (Z.of_nat (S k))) in Hn by lia.
  rewrite Z.pow_succ_r in Hn by lia. lia.
Qed.

(** A number below [10^k] is written with [k] digits at most. *)
Lemma length_str_of_nat (n : Z) (k : nat) :
  (0 <= n < 10 ^ Z.of_nat k)%Z -> 1 <= k -> length (str_of_nat n) <= k.
Proof.
  intros Hn Hk. unfold str_of_nat.
  pose proof (length_digits_of (S (Z.to_nat (Z.log2 n))) n [] k Hn Hk) as H.
  cbn [length] in H. lia.
Qed.

(** [format(x, ".{dec}f")] has [dec] digits after its point. *)
Lemma split_format_fixed (dec : nat) (x : Q) :
  1 <= dec ->
  exists a b, split "."%char (format_fixed dec x) = [a; b] /\ length b = dec /\ digits b.
Proof.
  intros Hdec. unfold format_fixed.
  set (n := rint (Qabs x * inject_Z (pow10Z dec))).
  assert (Hp : (0 < pow10Z dec)%Z) by (unfold pow10Z; apply Z.pow_pos_nonneg; lia).
  assert (Hn : (0 <= n)%Z).
  { unfold n, rint. set (y := (Qabs x * inject_Z (pow10Z dec))%Q).
    assert (Hy : (0 <= y)%Q).
    { unfold y. apply Qmult_le_0_compat; [apply Qabs_nonneg|].
      change 0%Q with (inject_Z 0). rewrite <- Zle_Qle. lia. }
    assert (0 <= Qfloor y)%Z.
    { change 0%Z with (Qfloor 0). now apply Qfloor_resp_le. }
    destruct (_ ?= _)%Q; [destruct (Z.even _)|..]; lia. }
  destruct dec as [|dec']; [lia|]. set (dec := S dec') in *.
  pose proof (Z.mod_pos_bound n (pow10Z dec) Hp) as Hm.
  destruct (str_of_nat_spec (n mod pow10Z dec)) as (_ & Hd & _); [lia|].
  destruct (str_of_nat_spec (n / pow10Z dec)) as (_ & Hq & _); [apply Z.div_pos; lia|].
  exists ((if qlt x 0 then ["-"%char] else []) ++ str_of_nat (n / pow10Z dec)).
  exists (zfill dec (str_of_nat (n mod pow10Z dec))).
  split; [|split].
  - rewrite app_assoc, split_at_point, split_pointless; [reflexivity | |].
    + apply digits_pointless. now apply digits_zfill.
    + apply pointless_app; [|now apply digits_pointless].
      destruct (qlt x 0); repeat constructor.
  - rewrite length_zfill.
    pose proof (length_str_of_nat (n mod pow10Z dec) dec Hm Hdec). lia.
  - now apply digits_zfill.
Qed.

Lemma pointless_firstn (n : nat) (s : str) : pointless s -> pointless (firstn n s).
Proof.
  intros H. rewrite <- (firstn_skipn n s) in H. now apply Forall_app in H.
Qed.

Lemma pointless_skipn (n : nat) (s : str) : pointless s -> pointless (skipn n s).
Proof.
  intros H. rewrite <- (firstn_skipn n s) in H. now apply Forall_app in H.
Qed.

Lemma pointless_strip_zeros_rev (s : str) : pointless s -> pointless (strip_zeros_rev s).
Proof.
  intros H. induction H as [|c s Hc Hs IH]; simpl; [constructor|].
  destruct (Ascii.eqb c "0"%char); [assumption | now constructor].
Qed.

(** When [repr] of a float has a decimal point, something follows it. *)
Lemma repr_float_fraction (x : Q) (d : str) :
  nth_error (split "."%char (repr_float x)) 1 = Some d -> 1 <= length d.
Proof.
  unfold repr_float.
  assert (Ha : (0 <= Qabs x)%Q) by apply Qabs_nonneg.
  set (a := Qabs x) in *. set (k := decimals a).
  set (n := Qfloor (a * inject_Z (pow10Z k))).
  assert (Hp : (0 < pow10Z k)%Z) by (unfold pow10Z; apply Z.pow_pos_nonneg; lia).
  assert (Hn : (0 <= n)%Z).
  { unfold n. change 0%Z with (Qfloor 0). apply Qfloor_resp_le.
    apply Qmult_le_0_compat; [assumption|].
    change 0%Q with (inject_Z 0). rewrite <- Zle_Qle. lia. }
  assert (Hsgn : pointless (if qlt x 0 then ["-"%char] else [])).
  { destruct (qlt x 0); repeat constructor. }
  destruct (Qeq_bool a 0).
  { intros E. vm_compute in E. injection E as <-. simpl. lia. }
  destruct (_ && _).
  - assert (Hf : (0 <= Qfloor a)%Z).
    { change 0%Z with (Qfloor 0). now apply Qfloor_resp_le. }
    destruct (str_of_nat_spec (Qfloor a) Hf) as (_ & Hd & _).
    rewrite app_assoc, split_at_point
      by (apply pointless_app; [assumption | now apply digits_pointless]).
    cbn [nth_error].
    pose proof (Z.mod_pos_bound n (pow10Z k) Hp) as Hm.
    destruct (str_of_nat_spec (n mod pow10Z k)) as (_ & Hd' & _); [lia|].
    destruct k as [|k'].
    + intros E. vm_compute in E. injection E as <-. simpl. lia.
    + rewrite split_pointless by (apply digits_pointless; now apply digits_zfill).
      intros E. injection E as <-. rewrite length_zfill. lia.
  - destruct (str_of_nat_spec n Hn) as (_ & Hd & _).
    set (ds := List.rev (strip_zeros_rev (List.rev (str_of_nat n)))).
    assert (Hds : pointless ds).
    { apply Forall_rev, pointless_strip_zeros_rev, Forall_rev. now apply digits_pointless. }
    set (tail := ("e"%char :: _ :: zfill 2 _)).
    assert (Ht : pointless tail).
    { unfold tail. constructor; [reflexivity|]. constructor; [now destruct (_ <? _)%Z|].
      apply digits_pointless, digits_zfill.
      now destruct (str_of_nat_spec (Z.abs (Z.of_nat (length (str_of_nat n)) - Z.of_nat k - 1)))
        as (_ & ? & _); [lia|]. }
    pose proof (pointless_firstn 1 ds Hds) as H1.
    pose proof (pointless_skipn 1 ds Hds) as H2.
    destruct (skipn 1 ds) as [|c r].
    + rewrite split_pointless by (repeat apply pointless_app; auto; constructor).
      discriminate.
    + rewrite app_assoc. change (("."%char :: c :: r) ++ tail) with ("."%char :: (c :: r) ++ tail).
      rewrite split_at_point by now apply pointless_app.
      rewrite split_pointless by now apply pointless_app.
      intros E. injection E as <-. simpl. lia.
Qed.

End PointFacts.

(** ** The scheduler: triples, and the invariant of a run *)

Module SchedulerFacts.

Import Regex Py Parser Scheduler.

Local Open Scope sched_scope.

(** From a state in [P], the statement [m] ends in [Q] with its value, or in
    [E] with the exception it raises. *)
Definition triple {A : Type} (P : state -> Prop) (m : M A)
  (Q : A -> state -> Prop) (E : exn -> state -> Prop) : Prop :=
  forall s, P s ->
    match m s with
    | (Ok a, s') => Q a s'
    | (Raise e, s') => E e s'
    end.

(** [m] keeps [I], whether it returns or raises. *)
Definition keeps {A : Type} (I : state -> Prop) (m : M A) : Prop :=
  triple I m (fun _ => I) (fun _ => I).

Lemma triple_ret {A : Type} (P : state -> Prop) (a : A) Q E :
  (forall s, P s -> Q a s) -> triple P (ret a) Q E.
Proof. intros H s Hs. simpl. auto. Qed.

Lemma triple_raise {A : Type} (P : state -> Prop) (e : exn) (Q : A -> state -> Prop) E :
  (forall s, P s -> E e s) -> triple P (raise e) Q E.
Proof. intros H s Hs. simpl. auto. Qed.

Lemma triple_bind {A B : Type} P (m : M A) (f : A -> M B) Q R E :
  triple P m Q E -> (forall a, triple (Q a) (f a) R E) -> triple P (mbind m f) R E.
Proof.
  intros Hm Hf s Hs. unfold mbind. specialize (Hm s Hs).
  destruct (m s) as [[a|e] s']; [|exact Hm]. exact (Hf a s' Hm).
Qed.

(** After [s0 <- get], the state is [s0]. *)
Lemma triple_get {B : Type} P (f : state -> M B) Q E :
  (forall s0, P s0 -> triple (fun s => s = s0) (f s0) Q E) -> triple P (mbind get f) Q E.
Proof. intros H s Hs. unfold mbind, get. exact (H s Hs s eq_refl). Qed.

Lemma triple_weaken {A : Type} (P P' : state -> Prop) (m : M A) (Q Q' : A -> state -> Prop)
  (E E' : exn -> state -> Prop) :
  triple P' m Q' E' -> (forall s, P s -> P' s) -> (forall a s, Q' a s -> Q a s) ->
  (forall e s, E' e s -> E e s) -> triple P m Q E.
Proof.
  intros H HP HQ HE s Hs. specialize (H s (HP s Hs)).
  destruct (m s) as [[a|e] s']; auto.
Qed.

Lemma triple_on_self (P : state -> Prop) f (Q : unit -> state -> Prop) E :
  (forall s, P s -> Q tt (State (scn s) (f (self s)))) -> triple P (on_self f) Q E.
Proof. intros H s Hs. simpl. auto. Qed.

Lemma triple_on_scene (P : state -> Prop) f (Q : unit -> state -> Prop) E :
  (forall s, P s -> Q tt (State (f (scn s)) (self s))) -> triple P (on_scene f) Q E.
Proof. intros H s Hs. simpl. auto. Qed.

Lemma keeps_bind {A B : Type} I (m : M A) (f : A -> M B) :
  keeps I m -> (forall a, keeps I (f a)) -> keeps I (mbind m f).
Proof. intros Hm Hf. eapply triple_bind; [exact Hm | exact Hf]. Qed.

Lemma keeps_get {B : Type} (I : state -> Prop) (f : state -> M B) :
  (forall s0, I s0 -> keeps I (f s0)) -> keeps I (mbind get f).
Proof.
  intros H. apply triple_get. intros s0 Hs0 s ->. exact (H s0 Hs0 s0 Hs0).
Qed.

Lemma keeps_ret {A : Type} (I : state -> Prop) (a : A) : keeps I (ret a).
Proof. now apply triple_ret. Qed.

Lemma keeps_raise {A : Type} (I : state -> Prop) (e : exn) : keeps I (raise e : M A).
Proof. now apply triple_raise. Qed.

Lemma keeps_for_each {A : Type} (I : state -> Prop) (l : list A) (body : A -> M unit) :
  (forall x, In x l -> keeps I (body x)) -> keeps I (for_each l body).
Proof.
  induction l as [|x l IH]; intros H; simpl.
  - apply keeps_ret.
  - apply keeps_bind; [apply H; now left|]. intros _. apply IH.
    intros y Hy. apply H. now right.
Qed.

(** *** Updating one element of a list *)

Lemma length_update_nth {A : Type} (k : nat) (f : A -> A) (l : list A) :
  length (update_nth k f l) = length l.
Proof.
  revert k. induction l as [|x l IH]; intros [|k]; simpl; auto.
Qed.

Lemma nth_update_nth_same {A : Type} (k : nat) (f : A -> A) (l : list A) (d : A) :
  k < length l -> nth k (update_nth k f l) d = f (nth k l d).
Proof.
  revert k. induction l as [|x l IH]; intros [|k] H; simpl in *; try lia; auto.
  apply IH. lia.
Qed.

Lemma nth_update_nth_other {A : Type} (j k : nat) (f : A -> A) (l : list A) (d : A) :
  j <> k -> nth j (update_nth k f l) d = nth j l d.
Proof.
  revert j k. induction l as [|x l IH]; intros [|j] [|k] H; simpl; auto; try lia.
Qed.

Lemma update_nth_beyond {A : Type} (k : nat) (f : A -> A) (l : list A) :
  length l <= k -> update_nth k f l = l.
Proof.
  revert k. induction l as [|x l IH]; intros [|k] H; simpl in *; auto; try lia.
  f_equal. apply IH. lia.
Qed.

Lemma update_nth_twice {A : Type} (k : nat) (f g : A -> A) (l : list A) :
  update_nth k f (update_nth k g l) = update_nth k (fun x => f (g x)) l.
Proof.
  revert k. induction l as [|x l IH]; intros [|k]; simpl; auto. now rewrite IH.
Qed.

Lemma update_nth_ext {A : Type} (k : nat) (f g : A -> A) (l : list A) (d : A) :
  f (nth k l d) = g (nth k l d) -> update_nth k f l = update_nth k g l.
Proof.
  revert k. induction l as [|x l IH]; intros [|k] H; simpl in *; auto;
    [congruence | f_equal; auto].
Qed.

Lemma update_nth_id {A : Type} (k : nat) (f : A -> A) (l : list A) (d : A) :
  f (nth k l d) = nth k l d -> update_nth k f l = l.
Proof.
  revert k. induction l as [|x l IH]; intros [|k] H; simpl in *; auto;
    [congruence | f_equal; auto].
Qed.

(** *** The invariant of a run *)

Definition is_key (k : nat) (d : list (nat * saved)) : bool :=
  existsb (fun kv => Nat.eqb (fst kv) k) d.

(** What a run may change in a recorded node: its base path, and the paths
    of its file slots when these were recorded. *)
Definition gentle (n0 n : node) : Prop :=
  layered n = layered n0 /\
  length (file_slots n) = length (file_slots n0) /\
  (layered n0 = true -> file_slots n = file_slots n0).

(** The dictionary holds, for each of its nodes, the paths the node had in
    [store0]. *)
Definition recorded (store0 : list node) (d0 : list (nat * saved)) : Prop :=
  forall k v, In (k, v) d0 ->
    sv_base_path v = base_path (nth k store0 no_node) /\
    sv_file_slots v = (if layered (nth k store0 no_node) then None
                       else Some (file_slots (nth k store0 no_node))).

(** The state of a run that started with the main path [p0], the nodes
    [store0] and recorded [d0]. *)
Definition running (p0 : str) (store0 : list node) (d0 : list (nat * saved))
  (s : state) : Prop :=
  _output_path (self s) = Some p0 /\
  _output_nodes (self s) = d0 /\
  length (node_store (scn s)) = length store0 /\
  forall k, if is_key k d0 then gentle (nth k store0 no_node) (node_at (scn s) k)
            else node_at (scn s) k = nth k store0 no_node.

(** The paths are what they were. *)
Definition restored (p0 : str) (store0 : list node) (s : state) : Prop :=
  filepath (scn s) = p0 /\ node_store (scn s) = store0.

Lemma is_key_in k v d : In (k, v) d -> is_key k d = true.
Proof.
  intros H. unfold is_key. apply existsb_exists. exists (k, v).
  split; [assumption | apply Nat.eqb_refl].
Qed.

Lemma gentle_refl n : gentle n n.
Proof. repeat split. Qed.

(** *** Assignments to the nodes *)

(** [s'] differs from [s] in the fields of the nodes at most. *)
Definition store_only (s s' : state) : Prop :=
  self s' = self s /\
  set_node_store (node_store (scn s)) (scn s') = scn s /\
  length (node_store (scn s')) = length (node_store (scn s)).

Lemma store_only_refl s : store_only s s.
Proof. repeat split. now destruct (scn s). Qed.

Lemma store_only_trans s1 s2 s3 : store_only s1 s2 -> store_only s2 s3 -> store_only s1 s3.
Proof.
  intros (A1 & B1 & C1) (A2 & B2 & C2). repeat split; try congruence.
  rewrite <- B1, <- B2. destruct (scn s3). reflexivity.
Qed.

Lemma store_only_filepath s s' : store_only s s' -> filepath (scn s') = filepath (scn s).
Proof. intros (_ & H & _). rewrite <- H. reflexivity. Qed.

Lemma update_node_spec k f s :
  exists s', update_node k f s = (Ok tt, s') /\ store_only s s' /\
    (forall j, j <> k -> node_at (scn s') j = node_at (scn s) j) /\
    (k < length (node_store (scn s)) -> node_at (scn s') k = f (node_at (scn s) k)) /\
    (length (node_store (scn s)) <= k -> node_at (scn s') k = node_at (scn s) k).
Proof.
  eexists. split; [reflexivity|]. unfold node_at. simpl.
  split; [|split; [|split]].
  - repeat split; [now destruct (scn s) | apply length_update_nth].
  - intros j Hj. now apply nth_update_nth_other.
  - intros Hk. now apply nth_update_nth_same.
  - intros Hk. now rewrite update_nth_beyond.
Qed.

Lemma nth_update_slot (c i : nat) (p : str) (l : list str) :
  nth i (update_nth c (fun _ => p) l) [] =
  if Nat.eqb i c && Nat.ltb c (length l) then p else nth i l [].
Proof.
  destruct (Nat.eqb_spec i c) as [->|Hic]; simpl.
  - destruct (Nat.ltb_spec c (length l)).
    + now apply nth_update_nth_same.
    + now rewrite update_nth_beyond.
  - now apply nth_update_nth_other.
Qed.

(** The loop that gives the slots of node [k] the recorded paths, from
    slot [c] on. *)
Lemma restore_slots_from (k : nat) (slots : list str) : forall m c s,
  c + m = length slots ->
  length (file_slots (node_at (scn s) k)) = length slots ->
  exists s',
    for_each (seq c m) (fun c => p <- item slots c ;; update_node k (set_slot c p)) s
      = (Ok tt, s') /\
    store_only s s' /\
    (forall j, j <> k -> node_at (scn s') j = node_at (scn s) j) /\
    base_path (node_at (scn s') k) = base_path (node_at (scn s) k) /\
    layered (node_at (scn s') k) = layered (node_at (scn s) k) /\
    length (file_slots (node_at (scn s') k)) = length slots /\
    (forall i, nth i (file_slots (node_at (scn s') k)) [] =
               if Nat.leb c i then nth i slots [] else nth i (file_slots (node_at (scn s) k)) []).
Proof.
  induction m as [|m IH]; intros c s Hc Hlen.
  - exists s. split; [reflexivity|]. split; [apply store_only_refl|].
    do 4 (split; [auto|]).
    intros i. destruct (Nat.leb_spec c i); [|reflexivity].
    rewrite !nth_overflow by lia. reflexivity.
  - simpl seq. cbn [for_each]. unfold mbind at 1. unfold mbind at 1. unfold item.
    destruct (nth_error slots c) as [p|] eqn:Ep.
    2: { apply nth_error_None in Ep. lia. }
    cbn [ret].
    destruct (update_node_spec k (set_slot c p) s) as (s1 & E1 & So1 & O1 & K1 & B1).
    rewrite E1.
    assert (Hn1 : node_at (scn s1) k = set_slot c p (node_at (scn s) k) \/
                  (node_at (scn s1) k = node_at (scn s) k /\ length slots = 0)).
    { destruct (Nat.lt_ge_cases k (length (node_store (scn s)))) as [Hlt|Hge]; [left; auto|].
      right. split; [auto|]. unfold node_at in Hlen. rewrite nth_overflow in Hlen by lia.
      simpl in Hlen. lia. }
    destruct Hn1 as [Hn1|[_ Hz]]; [|lia].
    destruct (IH (S c) s1) as (s' & E & So & O & Bp & La & Le & Sl); [lia| |].
    { rewrite Hn1. simpl. rewrite length_update_nth. exact Hlen. }
    exists s'. cbv beta iota. split; [exact E|].
    split; [eapply store_only_trans; eassumption|].
    split; [intros j Hj; rewrite O, O1 by assumption; reflexivity|].
    split; [rewrite Bp, Hn1; reflexivity|].
    split; [rewrite La, Hn1; reflexivity|].
    split; [assumption|].
    intros i. rewrite Sl, Hn1. cbn [set_slot file_slots]. rewrite nth_update_slot.
    apply nth_error_nth with (d := []) in Ep.
    destruct (Nat.eq_dec i c) as [->|Hic].
    + rewrite Nat.eqb_refl, Nat.leb_refl.
      replace (c <? length (file_slots (node_at (scn s) k))) with true
        by (symmetry; apply Nat.ltb_lt; lia).
      replace (S c <=? c) with false by (symmetry; apply Nat.leb_gt; lia).
      cbn [andb]. symmetry. exact Ep.
    + replace (i =? c) with false by (symmetry; now apply Nat.eqb_neq). cbn [andb].
      destruct (Nat.leb_spec (S c) i), (Nat.leb_spec c i); try lia; reflexivity.
Qed.

(** [assign_slots] with the recorded paths, when as many were recorded as
    the node has slots. *)
Lemma restore_slots (k : nat) (slots : list str) (s : state) :
  length (file_slots (node_at (scn s) k)) = length slots ->
  exists s',
    assign_slots k (item slots) s = (Ok tt, s') /\
    store_only s s' /\
    (forall j, j <> k -> node_at (scn s') j = node_at (scn s) j) /\
    node_at (scn s') k = Node (base_path (node_at (scn s) k)) slots (layered (node_at (scn s) k)).
Proof.
  intros Hlen. unfold assign_slots, mbind at 1, get. rewrite Hlen.
  destruct (restore_slots_from k slots (length slots) 0 s eq_refl Hlen)
    as (s' & E & So & O & Bp & La & Le & Sl).
  exists s'. do 3 (split; [assumption|]).
  destruct (node_at (scn s') k) as [b l y] eqn:En. simpl in *. subst b y. f_equal.
  apply (nth_ext _ _ [] []); [assumption|]. intros i _. apply Sl.
Qed.

(** *** Frames that fit the mode of the run *)

Definition is_whole (f : frame) : bool :=
  match f with
  | Whole _ => true
  | Sub _ _ => false
  end.

(** The frame is a pair exactly when the run is one of sub-frames, and then
    the width of the fractions is set, to one digit at least. *)
Definition fits (o : operator) (f : frame) : Prop :=
  if _subframe_flag o
  then is_whole f = false /\ exists dec, _dec o = Some dec /\ 1 <= dec
  else is_whole f = true.

Definition coherent (s : state) : Prop := Forall (fits (self s)) (_frames (self s)).

Lemma fits_same (o o' : operator) (f : frame) :
  _subframe_flag o' = _subframe_flag o -> _dec o' = _dec o -> fits o f -> fits o' f.
Proof. unfold fits. intros -> ->. auto. Qed.

Lemma triple_for_each {A : Type} (I : state -> Prop) (l : list A) (body : A -> M unit) E :
  (forall x, In x l -> triple I (body x) (fun _ => I) E) ->
  triple I (for_each l body) (fun _ => I) E.
Proof.
  induction l as [|x l IH]; intros H; simpl.
  - now apply triple_ret.
  - eapply triple_bind; [apply H; now left|]. intros u. apply IH.
    intros y Hy. apply H. now right.
Qed.

Section Run.

Variable replace_globals : str -> str.
Variable path_join : str -> str -> str.

Variable p0 : str.
Variable store0 : list node.
Variable d0 : list (nat * saved).
Hypothesis Hrec : recorded store0 d0.

Abbreviation inv := (running p0 store0 d0).

Lemma keeps_on_self (f : operator -> operator) :
  (forall o, _output_path (f o) = _output_path o /\ _output_nodes (f o) = _output_nodes o) ->
  keeps inv (on_self f).
Proof.
  intros Hf. apply triple_on_self. intros s (H1 & H2 & H3 & H4).
  destruct (Hf (self s)) as [E1 E2]. unfold running. simpl.
  rewrite E1, E2. auto.
Qed.

Lemma keeps_on_scene (f : scene -> scene) :
  (forall c, node_store (f c) = node_store c) -> keeps inv (on_scene f).
Proof.
  intros Hf. apply triple_on_scene. intros s (H1 & H2 & H3 & H4).
  unfold running, node_at in *. simpl. rewrite Hf. auto.
Qed.

(** A change to a recorded node that [gentle] allows. *)
Lemma keeps_update_node (k : nat) (f : node -> node) :
  is_key k d0 = true ->
  (forall n, gentle (nth k store0 no_node) n -> gentle (nth k store0 no_node) (f n)) ->
  keeps inv (update_node k f).
Proof.
  intros Hk Hf. apply triple_on_scene. intros s (H1 & H2 & H3 & H4).
  unfold running, node_at in *. simpl. rewrite length_update_nth.
  repeat split; try assumption. intros j.
  destruct (Nat.eq_dec j k) as [->|Hj].
  - specialize (H4 k). rewrite Hk in *.
    destruct (Nat.lt_ge_cases k (length (node_store (scn s)))) as [Hlt|Hge].
    + rewrite nth_update_nth_same by assumption. now apply Hf.
    + now rewrite update_nth_beyond.
  - rewrite nth_update_nth_other by assumption. apply H4.
Qed.

Lemma keeps_item (l : list str) (c : nat) : keeps inv (item l c).
Proof. unfold item. destruct (nth_error l c); [apply keeps_ret | apply keeps_raise]. Qed.

Lemma keeps_format_subframe file_name f extension :
  keeps inv (format_subframe replace_globals file_name f extension).
Proof.
  unfold format_subframe. apply keeps_get. intros s0 _.
  destruct f; [apply keeps_raise|]. destruct (_dec (self s0)); [|apply keeps_raise].
  destruct (nth_error _ 1); [apply keeps_ret | apply keeps_raise].
Qed.

Lemma keeps_format_frame file_name f extension :
  keeps inv (format_frame replace_globals file_name f extension).
Proof.
  unfold format_frame. apply keeps_get. intros s0 _.
  destruct f; [apply keeps_ret | apply keeps_raise].
Qed.

Lemma gentle_set_base_path n0 p n : gentle n0 n -> gentle n0 (set_base_path p n).
Proof. intros H. exact H. Qed.

Lemma gentle_set_slot n0 c p n :
  layered n0 = false -> gentle n0 n -> gentle n0 (set_slot c p n).
Proof.
  intros Hl (H1 & H2 & H3). unfold gentle, set_slot. simpl.
  rewrite length_update_nth. repeat split; auto. congruence.
Qed.

Lemma keeps_assign_slots (k : nat) (value : nat -> M str) :
  is_key k d0 = true -> layered (nth k store0 no_node) = false ->
  (forall c, keeps inv (value c)) ->
  keeps inv (assign_slots k value).
Proof.
  intros Hk Hl Hv. unfold assign_slots. apply keeps_get. intros s0 _.
  apply keeps_for_each. intros c _. apply keeps_bind; [apply Hv|].
  intros p. apply keeps_update_node; [assumption|].
  intros n. now apply gentle_set_slot.
Qed.

Lemma recorded_slots k v slots :
  In (k, v) d0 -> sv_file_slots v = Some slots ->
  layered (nth k store0 no_node) = false /\ slots = file_slots (nth k store0 no_node).
Proof.
  intros Hin Hs. destruct (Hrec k v Hin) as [_ E]. rewrite Hs in E.
  destruct (layered (nth k store0 no_node)); [discriminate|]. now injection E.
Qed.

Lemma keeps_frame_repath (f : frame) :
  keeps inv (frame_repath replace_globals path_join f).
Proof.
  unfold frame_repath. apply triple_get. intros s0 Hs0.
  assert (Ed : _output_nodes (self s0) = d0) by apply Hs0.
  eapply triple_weaken with (P' := inv) (Q' := fun _ => inv) (E' := fun _ => inv);
    [|intros s ->; exact Hs0|auto|auto].
  apply keeps_bind.
  { destruct (_subframe_flag (self s0));
      [apply keeps_format_subframe | apply keeps_format_frame]. }
  intros ff. apply keeps_bind; [now apply keeps_on_scene|]. intros _.
  rewrite Ed. apply keeps_for_each. intros [k v] Hin.
  pose proof (is_key_in k v d0 Hin) as Hk.
  destruct (sv_file_slots v) as [slots|] eqn:Es.
  - destruct (recorded_slots k v slots Hin Es) as [Hl _].
    apply keeps_get. intros s1 _.
    apply keeps_bind; [apply keeps_update_node; auto using gentle_set_base_path|].
    intros _. apply keeps_assign_slots; auto.
    intros c. apply keeps_bind; [apply keeps_item|]. intros p.
    destruct (_subframe_flag (self s0)); [apply keeps_format_subframe | apply keeps_ret].
  - apply keeps_bind.
    { destruct (_subframe_flag (self s0)); [apply keeps_format_subframe | apply keeps_ret]. }
    intros name. apply keeps_update_node; auto using gentle_set_base_path.
Qed.

(** *** [reset_output_paths] *)

Lemma running_store_only s s' :
  inv s -> store_only s s' ->
  (forall j, node_at (scn s') j = node_at (scn s) j \/
             node_at (scn s') j = nth j store0 no_node) ->
  inv s'.
Proof.
  intros (H1 & H2 & H3 & H4) (So1 & So2 & So3) Hn. unfold running.
  rewrite So1. do 3 (split; [congruence|]). intros j. specialize (H4 j).
  destruct (Hn j) as [E|E]; rewrite E; [exact H4|].
  destruct (is_key j d0); [apply gentle_refl | reflexivity].
Qed.

(** One turn of the loop of [reset_output_paths]: the node is as it was
    when it was recorded. *)
Lemma reset_node (k : nat) (v : saved) (s : state) :
  inv s -> In (k, v) d0 ->
  exists s',
    (update_node k (set_base_path (sv_base_path v)) ;;;
     match sv_file_slots v with
     | Some slots => assign_slots k (item slots)
     | None => ret tt
     end) s = (Ok tt, s') /\
    store_only s s' /\
    (forall j, j <> k -> node_at (scn s') j = node_at (scn s) j) /\
    node_at (scn s') k = nth k store0 no_node.
Proof.
  intros Hs Hin. pose proof Hs as (_ & _ & Hlen & Hnodes).
  specialize (Hnodes k). rewrite (is_key_in k v d0 Hin) in Hnodes.
  destruct Hnodes as (Gl & Gn & Gs).
  destruct (Hrec k v Hin) as [Eb Es].
  destruct (update_node_spec k (set_base_path (sv_base_path v)) s)
    as (s1 & E1 & So1 & O1 & K1 & B1).
  unfold mbind. rewrite E1.
  assert (N1 : node_at (scn s1) k =
               Node (base_path (nth k store0 no_node)) (file_slots (node_at (scn s) k))
                    (layered (node_at (scn s) k))).
  { destruct (Nat.lt_ge_cases k (length (node_store (scn s)))) as [Hlt|Hge].
    - rewrite (K1 Hlt). unfold set_base_path. now rewrite Eb.
    - rewrite (B1 Hge). unfold node_at. rewrite !nth_overflow by lia. reflexivity. }
  destruct (layered (nth k store0 no_node)) eqn:El; rewrite Es.
  - exists s1. split; [reflexivity|]. split; [assumption|]. split; [assumption|].
    rewrite N1, Gl, (Gs eq_refl). destruct (nth k store0 no_node); simpl in *. now subst.
  - destruct (restore_slots k (file_slots (nth k store0 no_node)) s1)
      as (s' & E & So & O & N); [rewrite N1; exact Gn|].
    exists s'. split; [exact E|]. split; [eapply store_only_trans; eassumption|].
    split; [intros j Hj; rewrite O, O1 by assumption; reflexivity|].
    rewrite N, N1. simpl. rewrite Gl. destruct (nth k store0 no_node); simpl in *. now subst.
Qed.

Lemma reset_nodes (d : list (nat * saved)) : forall s,
  incl d d0 -> inv s ->
  exists s',
    for_each d (fun kv =>
      let (k, v) := kv in
      update_node k (set_base_path (sv_base_path v)) ;;;
      match sv_file_slots v with
      | Some slots => assign_slots k (item slots)
      | None => ret tt
      end) s = (Ok tt, s') /\
    store_only s s' /\ inv s' /\
    forall j, node_at (scn s') j =
              if is_key j d then nth j store0 no_node else node_at (scn s) j.
Proof.
  induction d as [|[k v] d IH]; intros s Hd Hs.
  - exists s. split; [reflexivity|]. split; [apply store_only_refl|]. now split.
  - destruct (reset_node k v s Hs) as (s1 & E1 & So1 & O1 & N1); [apply Hd; now left|].
    assert (Hs1 : inv s1).
    { apply (running_store_only s); [assumption..|]. intros j.
      destruct (Nat.eq_dec j k) as [->|Hj]; [now right | left; now apply O1]. }
    destruct (IH s1) as (s' & E & So & Hs' & N); [intros x Hx; apply Hd; now right|assumption|].
    exists s'. cbn [for_each]. unfold mbind at 1. rewrite E1.
    split; [exact E|]. split; [eapply store_only_trans; eassumption|]. split; [assumption|].
    intros j. rewrite N. unfold is_key. cbn [existsb fst].
    fold (is_key j d). destruct (is_key j d); [now rewrite orb_true_r|].
    rewrite orb_false_r. destruct (Nat.eqb_spec k j) as [->|Hj]; [assumption|].
    apply O1. congruence.
Qed.

(** [reset_output_paths] returns, and the paths are what they were. *)
Lemma reset_restores (s : state) :
  inv s ->
  exists s',
    reset_output_paths s = (Ok tt, s') /\ inv s' /\ restored p0 store0 s' /\
    self s' = self s /\ files (scn s') = files (scn s).
Proof.
  intros Hs. pose proof Hs as (Hp & Hd & Hlen & Hnodes).
  unfold reset_output_paths, mbind at 1, get. rewrite Hp, Hd.
  unfold mbind at 1, on_scene.
  set (s1 := State (set_filepath p0 (scn s)) (self s)).
  assert (Hs1 : inv s1) by (unfold running, node_at in *; simpl; auto).
  destruct (reset_nodes d0 s1 (incl_refl d0) Hs1) as (s' & E & So & Hs' & N).
  exists s'. split; [exact E|]. split; [assumption|].
  split; [split|split].
  - exact (store_only_filepath s1 s' So).
  - apply (nth_ext _ _ no_node no_node); [apply Hs'|]. intros j _.
    fold (node_at (scn s') j). rewrite N. specialize (Hnodes j).
    destruct (is_key j d0); [reflexivity | exact Hnodes].
  - apply So.
  - destruct So as (_ & So & _). change (files (scn s)) with (files (scn s1)).
    rewrite <- So. reflexivity.
Qed.

Lemma triple_reset :
  triple inv reset_output_paths (fun _ s => inv s /\ restored p0 store0 s)
         (fun _ _ => False).
Proof.
  intros s Hs. destruct (reset_restores s Hs) as (s' & E & H1 & H2 & _).
  rewrite E. now split.
Qed.


(** *** The handlers, the timer and the loop of the silent mode *)

Lemma triple_get_same {B : Type} (I : state -> Prop) (f : state -> M B) Q E :
  (forall s0, I s0 -> triple I (f s0) Q E) -> triple I (mbind get f) Q E.
Proof.
  intros H. apply triple_get. intros s0 Hs0 s ->. exact (H s0 Hs0 s0 Hs0).
Qed.

Lemma fields_kept_frames l o :
  _output_path (set_frames l o) = _output_path o /\
  _output_nodes (set_frames l o) = _output_nodes o.
Proof. now split. Qed.

Lemma keeps_pre_render : keeps inv pre_render.
Proof. now apply keeps_on_self. Qed.

Lemma keeps_post_render : keeps inv post_render.
Proof.
  unfold post_render. apply keeps_get. intros s0 _.
  destruct (_frames (self s0)); [apply keeps_raise|].
  apply keeps_bind; [now apply keeps_on_self|]. intros _. now apply keeps_on_self.
Qed.

Lemma keeps_reset : keeps inv reset_output_paths.
Proof.
  eapply triple_weaken; [apply triple_reset | auto | | ]; simpl; tauto.
Qed.

Lemma keeps_cancel_render : keeps inv cancel_render.
Proof.
  unfold cancel_render. apply keeps_bind; [now apply keeps_on_self|]. intros _.
  apply keeps_bind; [apply keeps_reset|]. intros _.
  apply keeps_get. intros s0 _.
  destruct (List.rev _); [apply keeps_raise | now apply keeps_on_self].
Qed.

Lemma keeps_render (silent : bool) : keeps inv (render silent).
Proof. destruct silent; [now apply keeps_on_scene | apply keeps_ret]. Qed.

Lemma keeps_start_render (f : frame) (silent : bool) : keeps inv (start_render f silent).
Proof.
  unfold start_render. apply keeps_get. intros s0 _.
  destruct (negb _ && _).
  - apply keeps_bind; [now apply keeps_on_self | intros _; apply keeps_post_render].
  - apply keeps_bind; [apply keeps_render|]. intros _.
    apply keeps_get. intros s1 _.
    destruct (negb _); [now apply keeps_on_self | apply keeps_ret].
Qed.

Lemma keeps_silent_loop (turns : nat) : forall i,
  keeps inv (silent_loop replace_globals path_join turns i).
Proof.
  induction turns as [|turns IH]; intros i; simpl; [apply keeps_ret|].
  apply keeps_get. intros s0 _.
  destruct (nth_error _ i); [|apply keeps_ret].
  apply keeps_bind; [apply keeps_frame_repath|]. intros _.
  apply keeps_bind; [apply keeps_start_render|]. intros _. apply IH.
Qed.

(** What a call of [modal] or a handler leaves: the invariant, and the
    paths as they were when it reports [FINISHED]. *)
Definition settled (r : status) (s : state) : Prop :=
  inv s /\ (r = Finished -> restored p0 store0 s) /\ (r = Finished \/ r = PassThrough).

Lemma triple_modal :
  triple inv (modal replace_globals path_join) settled (fun _ => inv).
Proof.
  assert (Hfin : triple inv (reset_output_paths ;;; ret Finished) settled (fun _ => inv)).
  { eapply triple_bind.
    - eapply triple_weaken; [apply triple_reset | auto | intros a s H; exact H | simpl; tauto].
    - intros u. apply triple_ret. intros s [H1 H2].
      split; [exact H1 | split; [intros _; exact H2 | now left]]. }
  assert (Hpass : triple inv (ret PassThrough) settled (fun _ => inv)).
  { apply triple_ret. intros s H. split; [exact H | split; [discriminate | now right]]. }
  unfold modal. apply triple_get_same. intros s0 _.
  destruct (_frames (self s0)) as [|f q]; [exact Hfin|].
  assert (Hgo : triple inv
            (match _rendering (self s0) with
             | Some false =>
                 frame_repath replace_globals path_join f ;;;
                 start_render f false ;;; ret PassThrough
             | _ => ret PassThrough
             end) settled (fun _ => inv)).
  { destruct (_rendering (self s0)) as [[|]|]; try exact Hpass.
    eapply triple_bind; [apply keeps_frame_repath|]. intros u.
    eapply triple_bind; [apply keeps_start_render|]. intros u'. exact Hpass. }
  destruct (_stop (self s0)) as [[|]|]; [exact Hfin | exact Hgo | exact Hgo].
Qed.

Lemma triple_handle (m : M unit) :
  keeps inv m -> triple inv (handle m) settled (fun _ => inv).
Proof.
  intros H s Hs. specialize (H s Hs). unfold handle.
  destruct (m s) as [[a|e] s']; simpl;
    (split; [exact H | split; [discriminate | now right]]).
Qed.

Lemma triple_on_event (e : event) :
  triple inv (on_event replace_globals path_join e) settled (fun _ => inv).
Proof.
  destruct e; simpl.
  - apply triple_modal.
  - apply triple_handle, keeps_pre_render.
  - apply triple_handle. apply keeps_bind; [apply keeps_render|].
    intros _. apply keeps_post_render.
  - apply triple_handle, keeps_cancel_render.
Qed.

(** Whatever events arrive, the paths are what they were when the run
    reports [FINISHED]. *)
Lemma triple_run (events : list event) :
  triple inv (run replace_globals path_join events) settled (fun _ => inv).
Proof.
  induction events as [|e events IH]; simpl.
  - apply triple_ret. intros s H. split; [exact H | split; [discriminate | now right]].
  - eapply triple_bind; [apply triple_on_event|]. intros r.
    destruct r.
    + apply triple_ret. intros s H. exact H.
    + apply triple_ret. intros s H. exact H.
    + apply triple_ret. intros s H. exact H.
    + eapply triple_weaken; [exact IH | intros s H; apply H | auto | auto].
Qed.


(** *** Statements that return *)

(** The invariant, in a state whose operator is [o]. *)
Definition calm (o : operator) (s : state) : Prop := inv s /\ self s = o.

(** [m] returns from a calm state, and leaves one. *)
Definition sure {A : Type} (o : operator) (m : M A) : Prop :=
  triple (calm o) m (fun _ => calm o) (fun _ _ => False).

Lemma running_same (s s' : state) :
  inv s -> _output_path (self s') = _output_path (self s) ->
  _output_nodes (self s') = _output_nodes (self s) ->
  node_store (scn s') = node_store (scn s) -> inv s'.
Proof.
  intros (H1 & H2 & H3 & H4) E1 E2 E3. unfold running, node_at in *.
  rewrite E1, E2, E3. auto.
Qed.

Lemma sure_on_scene (o : operator) (g : scene -> scene) :
  keeps inv (on_scene g) -> sure o (on_scene g).
Proof.
  intros H s [H1 H2]. specialize (H s H1). simpl in *. now split.
Qed.

Lemma sure_ret {A : Type} (o : operator) (a : A) : sure o (ret a).
Proof. now apply triple_ret. Qed.

Lemma sure_bind {A B : Type} (o : operator) (m : M A) (f : A -> M B) :
  sure o m -> (forall a, sure o (f a)) -> sure o (mbind m f).
Proof. intros Hm Hf. eapply triple_bind; [exact Hm | exact Hf]. Qed.

Lemma sure_get {B : Type} (o : operator) (f : state -> M B) :
  (forall s0, calm o s0 -> sure o (f s0)) -> sure o (mbind get f).
Proof. apply triple_get_same. Qed.

Lemma sure_item (o : operator) (l : list str) (c : nat) : c < length l -> sure o (item l c).
Proof.
  intros Hc. unfold item. destruct (nth_error l c) eqn:E; [apply sure_ret|].
  apply nth_error_None in E. lia.
Qed.

Lemma sure_update_node (o : operator) (k : nat) (f : node -> node) :
  is_key k d0 = true ->
  (forall n, gentle (nth k store0 no_node) n -> gentle (nth k store0 no_node) (f n)) ->
  sure o (update_node k f).
Proof. intros Hk Hf. apply sure_on_scene. now apply keeps_update_node. Qed.

Lemma sure_assign_slots (o : operator) (k : nat) (v : saved) (slots : list str)
  (value : nat -> M str) :
  In (k, v) d0 -> sv_file_slots v = Some slots ->
  (forall c, c < length slots -> sure o (value c)) ->
  sure o (assign_slots k value).
Proof.
  intros Hin Es Hv. destruct (recorded_slots k v slots Hin Es) as [Hl ->].
  pose proof (is_key_in k v d0 Hin) as Hk.
  unfold assign_slots. apply sure_get. intros s0 [(_ & _ & _ & Hn) _].
  specialize (Hn k). rewrite Hk in Hn. destruct Hn as (_ & Hlen & _). rewrite Hlen.
  apply triple_for_each. intros c Hc. apply in_seq in Hc.
  apply sure_bind; [apply Hv; lia|]. intros p.
  apply sure_update_node; [assumption|]. intros n. now apply gentle_set_slot.
Qed.

Lemma sure_format_frame (o : operator) (file_name : str) (f : frame) (extension : option str) :
  _subframe_flag o = false -> fits o f ->
  sure o (format_frame replace_globals file_name f extension).
Proof.
  unfold fits. intros -> Hf. unfold format_frame. apply sure_get. intros s0 _.
  destruct f; [apply sure_ret | discriminate].
Qed.

Lemma sure_format_subframe (o : operator) (file_name : str) (f : frame)
  (extension : option str) :
  _subframe_flag o = true -> fits o f ->
  sure o (format_subframe replace_globals file_name f extension).
Proof.
  unfold fits. intros -> (Hf & dec & Hd & Hdec). unfold format_subframe.
  apply sure_get. intros s0 [_ Eo]. rewrite Eo, Hd.
  destruct f as [n|main sub]; [discriminate|].
  destruct (PointFacts.split_format_fixed dec sub Hdec) as (a & b & -> & _).
  apply sure_ret.
Qed.

(** [frame_repath] returns for a frame that fits the run. *)
Lemma sure_frame_repath (o : operator) (f : frame) :
  fits o f -> sure o (frame_repath replace_globals path_join f).
Proof.
  intros Hf. unfold frame_repath. apply triple_get. intros s0 [Hs0 Eo]. subst o.
  assert (Ed : _output_nodes (self s0) = d0) by apply Hs0.
  eapply triple_weaken with (P' := calm (self s0)) (Q' := fun _ => calm (self s0))
                            (E' := fun _ _ => False);
    [|intros s ->; now split|auto|auto].
  assert (Hname : forall name ext,
            sure (self s0)
              (if _subframe_flag (self s0)
               then format_subframe replace_globals name f ext
               else ret (replace_globals name))).
  { intros name ext. destruct (_subframe_flag (self s0)) eqn:Ef;
      [now apply sure_format_subframe | apply sure_ret]. }
  apply sure_bind.
  { destruct (_subframe_flag (self s0)) eqn:Ef;
      [now apply sure_format_subframe | now apply sure_format_frame]. }
  intros ff. apply sure_bind; [apply sure_on_scene; now apply keeps_on_scene|]. intros _.
  rewrite Ed. apply triple_for_each. intros [k v] Hin.
  pose proof (is_key_in k v d0 Hin) as Hk.
  destruct (sv_file_slots v) as [slots|] eqn:Es.
  - apply sure_get. intros s1 _.
    apply sure_bind; [apply sure_update_node; auto using gentle_set_base_path|].
    intros _. apply (sure_assign_slots (self s0) k v slots); [assumption..|].
    intros c Hc. apply sure_bind; [now apply sure_item|]. intros p. apply Hname.
  - apply sure_bind; [apply Hname|].
    intros name. apply sure_update_node; auto using gentle_set_base_path.
Qed.

(** *** Runs that do not raise *)

(** The invariant of a run whose queued frames fit its mode. *)
Definition good (s : state) : Prop := inv s /\ coherent s.

Lemma good_same (s s' : state) :
  good s ->
  _output_path (self s') = _output_path (self s) ->
  _output_nodes (self s') = _output_nodes (self s) ->
  node_store (scn s') = node_store (scn s) ->
  _subframe_flag (self s') = _subframe_flag (self s) ->
  _dec (self s') = _dec (self s) ->
  incl (_frames (self s')) (_frames (self s)) ->
  good s'.
Proof.
  intros [Hi Hc] E1 E2 E3 E4 E5 Hin. split; [now apply (running_same s)|].
  unfold coherent in *. rewrite Forall_forall in *. intros f Hf.
  apply (fits_same (self s)); auto.
Qed.

Lemma good_calm (s : state) : good s -> calm (self s) s.
Proof. intros [H _]. now split. Qed.

Lemma calm_good (s0 s : state) : good s0 -> calm (self s0) s -> good s.
Proof. intros [_ Hc] [Hi E]. split; [assumption|]. unfold coherent. now rewrite E. Qed.

Lemma good_pre_render : keeps good pre_render.
Proof.
  apply triple_on_self. intros s Hs. apply (good_same s); auto using incl_refl.
Qed.

Lemma good_post_render : keeps good post_render.
Proof.
  intros s Hs. unfold post_render, mbind at 1, get.
  destruct (_frames (self s)) as [|f q] eqn:Ef; [exact Hs|].
  simpl. apply (good_same s); auto. simpl. rewrite Ef. apply incl_tl, incl_refl.
Qed.

Lemma good_render (silent : bool) : triple good (render silent) (fun _ => good) (fun _ _ => False).
Proof.
  destruct silent; [|now apply triple_ret].
  apply triple_on_scene. intros s Hs. apply (good_same s); auto using incl_refl.
Qed.

Lemma good_reset :
  triple good reset_output_paths (fun _ s => good s /\ restored p0 store0 s) (fun _ _ => False).
Proof.
  intros s [Hi Hc]. destruct (reset_restores s Hi) as (s' & E & H1 & H2 & H3 & _).
  rewrite E. split; [split|]; [assumption | | assumption].
  unfold coherent. now rewrite H3.
Qed.

Lemma good_cancel_render : keeps good cancel_render.
Proof.
  unfold cancel_render. apply keeps_bind.
  { apply triple_on_self. intros s Hs. apply (good_same s); auto using incl_refl. }
  intros _. apply keeps_bind.
  { eapply triple_weaken; [apply good_reset | auto | simpl; tauto | simpl; tauto]. }
  intros _. apply keeps_get. intros s0 _.
  destruct (List.rev _); [apply keeps_raise|].
  apply triple_on_self. intros s Hs. apply (good_same s); auto using incl_refl.
Qed.

(** [start_render] returns when there is a frame in the queue. *)
Lemma good_start_render (f : frame) (silent : bool) :
  triple (fun s => good s /\ _frames (self s) <> []) (start_render f silent)
         (fun _ => good) (fun _ _ => False).
Proof.
  intros s [Hs Hne]. unfold start_render, mbind at 1, get.
  destruct (negb _ && _).
  - unfold mbind at 1, on_self at 1, post_render, mbind at 1, get. cbn [self scn].
    change (_frames (set_skipped (_skipped_frames (self s) ++ [f]) (self s)))
      with (_frames (self s)).
    destruct (_frames (self s)) as [|f' q] eqn:Ef; [congruence|].
    simpl. apply (good_same s); auto. simpl. rewrite Ef. apply incl_tl, incl_refl.
  - unfold mbind at 1.
    pose proof (good_render silent s Hs) as Hr.
    destruct (render silent s) as [[[]|e] s1]; [|contradiction].
    unfold mbind at 1, get. destruct (negb _); [|exact Hr].
    simpl. apply (good_same s1); auto using incl_refl.
Qed.

(** One turn of the timer on the head of the queue, or of the loop of the
    silent mode on its frame. *)
Lemma good_turn (f : frame) (silent : bool) (s0 : state) :
  good s0 -> In f (_frames (self s0)) ->
  triple (fun s => s = s0)
    (frame_repath replace_globals path_join f ;;; start_render f silent)
    (fun _ => good) (fun _ _ => False).
Proof.
  intros Hs0 Hin.
  assert (Hf : fits (self s0) f).
  { destruct Hs0 as [_ Hc]. unfold coherent in Hc. rewrite Forall_forall in Hc. auto. }
  eapply triple_bind.
  - eapply triple_weaken; [apply (sure_frame_repath (self s0) f Hf) | | intros a s H; exact H | auto].
    intros s ->. now apply good_calm.
  - intros u. eapply triple_weaken; [apply good_start_render | | auto | auto].
    intros s Hs. split; [now apply (calm_good s0)|].
    destruct Hs as [_ ->]. intros E. rewrite E in Hin. contradiction.
Qed.

Lemma good_silent_loop (turns : nat) : forall i,
  triple good (silent_loop replace_globals path_join turns i) (fun _ => good)
         (fun _ _ => False).
Proof.
  induction turns as [|turns IH]; intros i; simpl; [now apply triple_ret|].
  apply triple_get. intros s0 Hs0.
  destruct (nth_error _ i) as [f|] eqn:Ef; [|apply triple_ret; now intros s ->].
  apply nth_error_In in Ef.
  pose proof (good_turn f true s0 Hs0 Ef) as T. unfold mbind in T.
  intros s ->. specialize (T s0 eq_refl). cbv beta in T. unfold mbind.
  destruct (frame_repath replace_globals path_join f s0) as [[[]|e] s1]; [|exact T].
  destruct (start_render f true s1) as [[[]|e] s2]; [|exact T].
  exact (IH (S i) s2 T).
Qed.

Definition settled_good (r : status) (s : state) : Prop :=
  good s /\ (r = Finished -> restored p0 store0 s) /\ (r = Finished \/ r = PassThrough).

Lemma good_modal :
  triple good (modal replace_globals path_join) settled_good (fun _ _ => False).
Proof.
  assert (Hfin : forall s0 : state, good s0 ->
            triple (fun s => s = s0) (reset_output_paths ;;; ret Finished) settled_good
                   (fun _ _ => False)).
  { intros s0 Hs0. eapply triple_bind.
    - eapply triple_weaken; [apply good_reset | now intros s -> | intros a s H; exact H | auto].
    - intros u. apply triple_ret. intros s [H1 H2].
      split; [exact H1 | split; [intros _; exact H2 | now left]]. }
  assert (Hpass : forall s0 : state, good s0 ->
            triple (fun s => s = s0) (ret PassThrough) settled_good (fun _ _ => False)).
  { intros s0 Hs0. apply triple_ret. intros s ->.
    split; [exact Hs0 | split; [discriminate | now right]]. }
  unfold modal. apply triple_get. intros s0 Hs0.
  destruct (_frames (self s0)) as [|f q] eqn:Ef; [now apply Hfin|].
  assert (Hgo : triple (fun s => s = s0)
            (match _rendering (self s0) with
             | Some false =>
                 frame_repath replace_globals path_join f ;;;
                 start_render f false ;;; ret PassThrough
             | _ => ret PassThrough
             end) settled_good (fun _ _ => False)).
  { destruct (_rendering (self s0)) as [[|]|]; try now apply Hpass.
    assert (Hin : In f (_frames (self s0))) by (rewrite Ef; now left).
    pose proof (good_turn f false s0 Hs0 Hin) as T. unfold mbind in T.
    intros s ->. specialize (T s0 eq_refl). cbv beta in T. unfold mbind.
    destruct (frame_repath replace_globals path_join f s0) as [[[]|e] s1]; [|exact T].
    destruct (start_render f false s1) as [[[]|e] s2]; [|exact T].
    simpl. split; [exact T | split; [discriminate | now right]]. }
  destruct (_stop (self s0)) as [[|]|]; [now apply Hfin | exact Hgo | exact Hgo].
Qed.

Lemma good_handle (m : M unit) :
  keeps good m -> triple good (handle m) settled_good (fun _ _ => False).
Proof.
  intros H s Hs. specialize (H s Hs). unfold handle.
  destruct (m s) as [[a|e] s']; simpl;
    (split; [exact H | split; [discriminate | now right]]).
Qed.

Lemma good_on_event (e : event) :
  triple good (on_event replace_globals path_join e) settled_good (fun _ _ => False).
Proof.
  destruct e; simpl.
  - apply good_modal.
  - apply good_handle, good_pre_render.
  - apply good_handle. apply keeps_bind; [|intros _; apply good_post_render].
    eapply triple_weaken; [apply good_render | auto | auto | simpl; tauto].
  - apply good_handle, good_cancel_render.
Qed.

(** Whatever events arrive, the run does not raise, and the paths are what
    they were when it reports [FINISHED]. *)
Lemma good_run (events : list event) :
  triple good (run replace_globals path_join events) settled_good (fun _ _ => False).
Proof.
  induction events as [|e events IH]; simpl.
  - apply triple_ret. intros s H. split; [exact H | split; [discriminate | now right]].
  - eapply triple_bind; [apply good_on_event|]. intros r.
    destruct r.
    + apply triple_ret. intros s H. exact H.
    + apply triple_ret. intros s H. exact H.
    + apply triple_ret. intros s H. exact H.
    + eapply triple_weaken; [exact IH | intros s H; apply H | auto | auto].
Qed.

(** *** The events of a render that is cancelled *)

(** The tick that finds a frame to render, and no file at its path or
    leave to overwrite it: the render job is started and the frame counted. *)
Lemma tick_starts_render (s : state) (f : frame) (q : list frame) :
  good s -> _frames (self s) = f :: q ->
  _stop (self s) = Some false -> _rendering (self s) = Some false ->
  exists s1,
    frame_repath replace_globals path_join f s = (Ok tt, s1) /\ calm (self s) s1 /\
    (negb (use_overwrite (scn s1)) && isfile (scn s1) (filepath (scn s1)) = false ->
     existsb (frame_eqb f) (_rendered_frames (self s)) = false ->
     modal replace_globals path_join s =
       (Ok PassThrough,
        State (scn s1) (set_rendered (_rendered_frames (self s) ++ [f]) (self s)))).
Proof.
  intros Hs Ef Hstop Hrend.
  assert (Hf : fits (self s) f).
  { destruct Hs as [_ Hc]. unfold coherent in Hc. rewrite Ef in Hc. now inversion Hc. }
  pose proof (sure_frame_repath (self s) f Hf s (good_calm s Hs)) as T.
  destruct (frame_repath replace_globals path_join f s) as [[[]|e] s1] eqn:E1; [|contradiction].
  exists s1. split; [reflexivity|]. split; [exact T|]. intros Hfile Hnew.
  destruct T as [_ Hself].
  unfold modal, mbind at 1, get. rewrite Ef, Hstop, Hrend.
  unfold mbind at 1. rewrite E1. unfold mbind at 1, start_render, mbind at 1, get.
  rewrite Hfile. unfold mbind at 1, render, ret, mbind at 1, get. rewrite Hself, Hnew.
  cbn [negb]. unfold on_self. rewrite Hself. reflexivity.
Qed.

(** A tick while the job runs. *)
Lemma tick_waits (s : state) (f : frame) (q : list frame) :
  _frames (self s) = f :: q -> _stop (self s) = Some false ->
  _rendering (self s) = Some true ->
  modal replace_globals path_join s = (Ok PassThrough, s).
Proof.
  intros Ef Hstop Hrend. unfold modal, mbind, get. now rewrite Ef, Hstop, Hrend.
Qed.

Lemma ticks_wait (n : nat) (s : state) (f : frame) (q : list frame) (events : list event) :
  _frames (self s) = f :: q -> _stop (self s) = Some false ->
  _rendering (self s) = Some true ->
  run replace_globals path_join (repeat Timer n ++ events) s =
  run replace_globals path_join events s.
Proof.
  intros Ef Hstop Hrend. induction n as [|n IH]; [reflexivity|].
  cbn [repeat app run on_event]. unfold mbind at 1.
  now rewrite (tick_waits s f q Ef Hstop Hrend).
Qed.

(** The cancel handler: the stop flag is set, the paths are what they were,
    and the frame counted last is counted no more. *)
Lemma cancel_render_spec (s : state) (l : list frame) (f : frame) :
  good s -> _rendered_frames (self s) = l ++ [f] ->
  exists s',
    cancel_render s = (Ok tt, s') /\ good s' /\ restored p0 store0 s' /\
    self s' = set_rendered l (set_stop (Some true) (self s)) /\
    files (scn s') = files (scn s).
Proof.
  intros Hs El. unfold cancel_render, mbind at 1, on_self at 1, mbind at 1.
  set (s1 := State (scn s) (set_stop (Some true) (self s))).
  assert (Hs1 : good s1) by (apply (good_same s); auto using incl_refl).
  destruct (reset_restores s1 (proj1 Hs1)) as (s2 & E & Hi & Hr & Hself & Hfiles).
  rewrite E. unfold mbind at 1, get. rewrite Hself. cbn [self s1].
  change (_rendered_frames (set_stop (Some true) (self s))) with (_rendered_frames (self s)).
  rewrite El, rev_app_distr. cbn [List.rev app]. rewrite rev_involutive.
  eexists. split; [reflexivity|]. cbn [self scn]. rewrite Hself.
  split; [|split; [exact Hr | split; [reflexivity | exact Hfiles]]].
  assert (Hs2 : good s2) by (split; [exact Hi | unfold coherent; rewrite Hself; apply Hs1]).
  apply (good_same s2); cbn [self scn]; rewrite ?Hself; auto using incl_refl.
Qed.

(** The tick that finds the queue empty or the stop flag set ends the run. *)
Lemma tick_finishes (s : state) :
  good s -> _frames (self s) = [] \/ _stop (self s) = Some true ->
  exists s',
    modal replace_globals path_join s = (Ok Finished, s') /\ restored p0 store0 s' /\
    self s' = self s /\ files (scn s') = files (scn s).
Proof.
  intros Hs Hend. destruct (reset_restores s (proj1 Hs)) as (s' & E & _ & Hr & Hself & Hfiles).
  exists s'. split; [|now split]. unfold modal, mbind at 1, get.
  assert (Hfin : (reset_output_paths ;;; ret Finished) s = (Ok Finished, s')).
  { unfold mbind. now rewrite E. }
  destruct (_frames (self s)) as [|f q]; [exact Hfin|].
  destruct Hend as [Hend|Hend]; [discriminate|]. now rewrite Hend.
Qed.




(** The frame at the head of the queue is one the renderer is started for:
    no file is at the path [frame_repath] gives it, or files may be
    overwritten. *)
Definition renders (f : frame) (s : state) : Prop :=
  let s1 := snd (frame_repath replace_globals path_join f s) in
  negb (use_overwrite (scn s1)) && isfile (scn s1) (filepath (scn s1)) = false.

(** A cancellation while the frame [f] is rendered: the run ends at the
    next tick, and [f] is not counted. *)
Lemma cancelled_run (s : state) (f : frame) (q : list frame) (n : nat) :
  good s -> _frames (self s) = f :: q ->
  _stop (self s) = Some false -> _rendering (self s) = Some false ->
  existsb (frame_eqb f) (_rendered_frames (self s)) = false ->
  renders f s ->
  exists s',
    run replace_globals path_join
        (Timer :: RenderPre :: repeat Timer n ++ [RenderCancel; Timer]) s = (Ok Finished, s') /\
    _rendered_frames (self s') = _rendered_frames (self s) /\
    _skipped_frames (self s') = _skipped_frames (self s) /\
    _frames (self s') = f :: q /\
    restored p0 store0 s'.
Proof.
  intros Hs Ef Hstop Hrend Hnew Hfile.
  destruct (tick_starts_render s f q Hs Ef Hstop Hrend) as (s1 & E1 & [Hi1 Hself1] & Hrun).
  unfold renders in Hfile. rewrite E1 in Hfile. cbn [snd] in Hfile.
  specialize (Hrun Hfile Hnew).
  cbn [run on_event]. unfold mbind at 1. rewrite Hrun.
  unfold mbind at 1, handle, pre_render, on_self. cbn [snd self scn].
  set (s2 := State (scn s1) _).
  assert (Hs2 : good s2).
  { apply (good_same s1); cbn [self scn s2]; rewrite ?Hself1; auto using incl_refl.
    split; [exact Hi1|]. unfold coherent. rewrite Hself1. apply Hs. }
  rewrite (ticks_wait n s2 f q) by (assumption || reflexivity).
  destruct (cancel_render_spec s2 (_rendered_frames (self s)) f Hs2 eq_refl)
    as (s3 & E3 & Hs3 & _ & Hself3 & _).
  cbn [run on_event]. unfold mbind at 1, handle. rewrite E3. cbn [snd].
  destruct (tick_finishes s3 Hs3) as (s4 & E4 & Hr & Hself4 & _).
  { right. now rewrite Hself3. }
  unfold mbind at 1. rewrite E4. exists s4. split; [reflexivity|].
  rewrite Hself4, Hself3. cbn. auto.
Qed.

(** The end of [execute], once the queue is filled. *)
Definition launched (render_silent : bool) (r : status) (s : state) : Prop :=
  match r with
  | Finished => render_silent = true /\ restored p0 store0 s
  | RunningModal => render_silent = false /\ good s
  | _ => False
  end.

Lemma triple_launch (render_silent : bool) :
  triple good
    (if render_silent then
       s' <- get ;;
       silent_loop replace_globals path_join (length (_frames (self s'))) 0 ;;;
       reset_output_paths ;;;
       ret Finished
     else
       on_self (set_stop (Some false)) ;;;
       on_self (set_rendering (Some false)) ;;;
       ret RunningModal)
    (launched render_silent) (fun _ _ => False).
Proof.
  assert (Hself : forall f : operator -> operator,
            (forall o, _output_path (f o) = _output_path o /\
                       _output_nodes (f o) = _output_nodes o /\
                       _subframe_flag (f o) = _subframe_flag o /\
                       _dec (f o) = _dec o /\ _frames (f o) = _frames o) ->
            triple good (on_self f) (fun _ => good) (fun _ _ => False)).
  { intros f Hf. apply triple_on_self. intros s Hs.
    destruct (Hf (self s)) as (E1 & E2 & E3 & E4 & E5).
    apply (good_same s); auto. simpl. rewrite E5. apply incl_refl. }
  destruct render_silent.
  - apply triple_get_same. intros s' _.
    eapply triple_bind; [apply good_silent_loop|]. intros u4.
    eapply triple_bind; [apply good_reset|].
    intros u5. apply triple_ret. intros s [_ H]. now split.
  - eapply triple_bind; [now apply Hself|]. intros u4.
    eapply triple_bind; [now apply Hself|]. intros u5.
    apply triple_ret. intros s H. now split.
Qed.

End Run.

(** *** [execute] *)

Lemma recorded_dict_set (store : list node) (k : nat) (v : saved) (d : list (nat * saved)) :
  recorded store d ->
  sv_base_path v = base_path (nth k store no_node) ->
  sv_file_slots v = (if layered (nth k store no_node) then None
                     else Some (file_slots (nth k store no_node))) ->
  recorded store (dict_set k v d).
Proof.
  intros Hd Hb Hs. induction d as [|[j w] d IH]; simpl.
  - intros k' v' [E|[]]. injection E as <- <-. now split.
  - destruct (Nat.eqb_spec j k) as [->|Hj].
    + intros k' v' [E|Hin]; [injection E as <- <-; now split|].
      apply Hd. now right.
    + intros k' v' [E|Hin]; [apply Hd; now left|].
      apply IH; [|assumption]. intros k'' v'' H. apply Hd. now right.
Qed.

Section Recording.

Variable split_abs : str -> str * str.
Variable realpath : str -> str.

Lemma record_nodes (l : list nat) : forall s,
  recorded (node_store (scn s)) (_output_nodes (self s)) ->
  exists d,
    for_each l (record_node split_abs realpath) s
      = (Ok tt, State (scn s) (set_output_nodes d (self s))) /\
    recorded (node_store (scn s)) d.
Proof.
  induction l as [|k l IH]; intros s Hs.
  - exists (_output_nodes (self s)). split; [|assumption].
    destruct s as [c o]. destruct o. reflexivity.
  - cbn [for_each]. unfold mbind at 1, record_node at 1, mbind at 1, get.
    destruct (split_abs (base_path (node_at (scn s) k))) as [fd fn].
    unfold on_self.
    match goal with
    | |- context [State (scn s) (set_output_nodes ?d (self s))] =>
        destruct (IH (State (scn s) (set_output_nodes d (self s)))) as (d' & E & Hd')
    end.
    { simpl. apply recorded_dict_set; [assumption | reflexivity | reflexivity]. }
    exists d'. split; [|exact Hd']. rewrite E. reflexivity.
Qed.

End Recording.


Section Execute.

Variable replace_globals : str -> str.
Variable path_join : str -> str -> str.
Variable split_abs : str -> str * str.
Variable realpath : str -> str.
Variable safe_filename : nat -> str -> str * nat.
Variable uses_globals : str -> bool.
Variable isdir_created : str -> bool.

Abbreviation execute' :=
  (execute replace_globals path_join split_abs realpath safe_filename uses_globals
           isdir_created).

Lemma subframes_pairs (l : list Q) (subs : list frame) :
  subframes l = Ok subs -> Forall (fun f => is_whole f = false) subs.
Proof.
  unfold subframes. destruct (pairs repr_float py_float l) as [ps|e]; [|discriminate].
  cbn [bind]. intros E. injection E as <-.
  apply Forall_map, Forall_forall. reflexivity.
Qed.

Lemma fraction_width_positive (f : frame) (w : nat) : fraction_width f = Ok w -> 1 <= w.
Proof.
  destruct f as [n|main x]; cbn [fraction_width]; [discriminate|].
  destruct (nth_error _ 1) as [d|] eqn:E; [|discriminate].
  intros H. injection H as <-. exact (PointFacts.repr_float_fraction x d E).
Qed.

Lemma max_width_positive (l : list frame) (w : nat) : max_width l = Ok w -> 1 <= w.
Proof.
  revert w. induction l as [|f l IH]; intros w; [discriminate|].
  destruct l as [|g l]; [apply fraction_width_positive|].
  change (max_width (f :: g :: l))
    with (bind (fraction_width f)
            (fun w1 => bind (max_width (g :: l)) (fun m => Ok (Nat.max w1 m)))).
  destruct (fraction_width f) as [w1|] eqn:E1; cbn [bind]; [|discriminate].
  destruct (max_width (g :: l)) as [m|]; cbn [bind]; [|discriminate].
  intros H. injection H as <-.
  pose proof (fraction_width_positive f w1 E1). lia.
Qed.

(** What [execute] leaves in each of its outcomes, from a state [s0] whose
    dictionary of nodes holds nothing that differs from the nodes. *)
Definition executed (render_silent : bool) (s0 : state) (r : status) (s : state) : Prop :=
  match r with
  | Finished =>
      render_silent = true /\ restored (filepath (scn s0)) (node_store (scn s0)) s
  | RunningModal =>
      render_silent = false /\
      exists d0, recorded (node_store (scn s0)) d0 /\
                 good (filepath (scn s0)) (node_store (scn s0)) d0 s
  | Cancelled _ => scn s = scn s0
  | PassThrough => False
  end.

Lemma triple_execute (frames : str) (isolate_numbers render_silent : bool) (s0 : state) :
  recorded (node_store (scn s0)) (_output_nodes (self s0)) ->
  _subframe_flag (self s0) = false ->
  triple (fun s => s = s0) (execute' frames isolate_numbers render_silent)
         (executed render_silent s0) (fun _ s => scn s = scn s0).
Proof.
  intros Hrec Hflag. unfold execute. apply triple_get. intros s ->.
  destruct (filter_frames _ _ _) as [parsed|e]; [|apply triple_raise; now intros s ->].
  assert (Hno : triple (fun s => s = s0)
                  (on_self (set_frames []) ;;; ret (Cancelled no_frames_report))
                  (executed render_silent s0) (fun _ s => scn s = scn s0)).
  { intros s ->. reflexivity. }
  assert (Hend : forall d o,
            recorded (node_store (scn s0)) d ->
            _output_path o = Some (filepath (scn s0)) -> _output_nodes o = d ->
            Forall (fits o) (_frames o) ->
            forall tail : M status,
            triple (good (filepath (scn s0)) (node_store (scn s0)) d) tail
                   (launched (filepath (scn s0)) (node_store (scn s0)) d render_silent)
                   (fun _ _ => False) ->
            match tail (State (scn s0) o) with
            | (Ok a, s') => executed render_silent s0 a s'
            | (Raise _, s') => scn s' = scn s0
            end).
  { intros d o Hd H1 H2 H3 tail T.
    assert (HS : good (filepath (scn s0)) (node_store (scn s0)) d (State (scn s0) o)).
    { split; [|exact H3]. do 3 (split; [assumption || reflexivity|]). intros k.
      destruct (is_key k d); [apply gentle_refl | reflexivity]. }
    specialize (T _ HS). destruct (tail _) as [[r|e] s1]; [|contradiction].
    destruct r; simpl in *; try tauto.
    destruct T as [T1 T2]. split; [assumption|]. now exists d. }
  destruct parsed as [[[|x l]|[|x l]]|]; try exact Hno;
    (destruct (split_abs (filepath (scn s0))) as [output_folder name];
     destruct (safe_filename (digits (self s0)) name) as [name' digits']; cbv zeta;
     intros s ->; unfold mbind at 1, on_self at 1;
     (destruct (uses_globals _ && negb _); [reflexivity|]);
     unfold mbind at 1;
     match goal with
     | |- context [for_each _ _ ?s] =>
         destruct (record_nodes split_abs realpath (out_nodes (scn s0)) s Hrec) as (d & E & Hd)
     end;
     cbn [scn self] in E, Hd; rewrite E; clear E;
     unfold mbind at 1, on_self at 1; unfold mbind at 1, on_self at 1;
     unfold mbind at 1; cbn [scn self]).
  - unfold on_self at 1. cbn [scn self].
    apply (Hend d); [assumption | reflexivity | reflexivity | |].
    + cbn [_frames set_frames]. apply Forall_forall. intros y Hy.
      apply in_map_iff in Hy. destruct Hy as (n & <- & _). unfold fits. simpl.
      now rewrite Hflag.
    + apply triple_launch. assumption.
  - destruct (subframes (x :: l)) as [subs|e] eqn:Es; [|reflexivity].
    unfold mbind at 1, on_self at 1. cbn [scn self].
    destruct (max_width subs) as [w|e] eqn:Ew; [|reflexivity].
    unfold on_self at 1. cbn [scn self].
    apply (Hend d); [assumption | reflexivity | reflexivity | |].
    + simpl. pose proof (subframes_pairs _ _ Es) as Hp.
      pose proof (max_width_positive _ _ Ew) as Hw.
      eapply Forall_impl; [|exact Hp]. intros f Hf. unfold fits. simpl.
      split; [assumption|]. now exists w.
    + apply triple_launch. assumption.
Qed.

(** [execute], applied. *)
Lemma execute_spec (frames : str) (isolate_numbers render_silent : bool) (s0 : state) :
  recorded (node_store (scn s0)) (_output_nodes (self s0)) ->
  _subframe_flag (self s0) = false ->
  match execute' frames isolate_numbers render_silent s0 with
  | (Ok r, s1) => executed render_silent s0 r s1
  | (Raise _, s1) => scn s1 = scn s0
  end.
Proof.
  intros Hrec Hflag.
  exact (triple_execute frames isolate_numbers render_silent s0 Hrec Hflag s0 eq_refl).
Qed.


End Execute.


(** C5. A cancellation that arrives while a frame is in flight leaves the
    frame uncounted. In a run that is under way, let the tick find the frame
    [f] at the head of the queue and start the renderer for it; after the
    [render_pre] handler, any number of ticks, the [render_cancel] handler
    and one more tick, the run has reported [FINISHED]: the rendered list
    and the skipped list are what they were before [f] was started, and the
    paths are restored. In the run over the frames 1, 2, 3 in which frame 1
    completes and the cancellation arrives while frame 2 is rendered, the
    rendered list is [[1]], the skipped list is empty and the paths are
    restored. *)
Theorem cancel_discards_frame_in_flight :
  (forall (replace_globals : str -> str) (path_join : str -> str -> str)
          (p0 : str) (store0 : list node) (d0 : list (nat * saved))
          (s : state) (f : frame) (q : list frame) (n : nat),
     recorded store0 d0 -> good p0 store0 d0 s ->
     _frames (self s) = f :: q ->
     _stop (self s) = Some false -> _rendering (self s) = Some false ->
     existsb (frame_eqb f) (_rendered_frames (self s)) = false ->
     renders replace_globals path_join f s ->
     exists s',
       run replace_globals path_join
           (Timer :: RenderPre :: repeat Timer n ++ [RenderCancel; Timer]) s
         = (Ok Finished, s') /\
       _rendered_frames (self s') = _rendered_frames (self s) /\
       _skipped_frames (self s') = _skipped_frames (self s) /\
       restored p0 store0 s') /\
  (let s1 := snd (Host.execute (lit "1-3") false false (Host.stage [])) in
   exists s2,
     Host.run [Timer; RenderPre; RenderPost true; Timer; RenderPre; RenderCancel; Timer] s1
       = (Ok Finished, s2) /\
     _rendered_frames (self s2) = [Whole 1] /\
     _skipped_frames (self s2) = [] /\
     restored (filepath (scn (Host.stage []))) (node_store (scn (Host.stage []))) s2).
Proof.
  split.
  - intros replace_globals path_join p0 store0 d0 s f q n Hrec Hs Ef Hstop Hrend Hnew Hfile.
    destruct (cancelled_run replace_globals path_join p0 store0 d0 Hrec s f q n
                Hs Ef Hstop Hrend Hnew Hfile) as (s' & E & H1 & H2 & _ & H3).
    exists s'. auto.
  - cbv zeta. eexists. split; [vm_compute; reflexivity|].
    split; [reflexivity|]. split; [reflexivity|]. split; reflexivity.
Qed.

Lemma cancel_discards_frame_in_flight_witness :
  let s := snd (Host.run [Timer; RenderPre; RenderPost true]
                  (snd (Host.execute (lit "1-3") false false (Host.stage [])))) in
  exists s',
    Host.run [Timer; RenderPre; RenderCancel; Timer] s = (Ok Finished, s') /\
    _rendered_frames (self s') = [Whole 1] /\ _skipped_frames (self s') = [] /\
    restored (lit "/out/img_") (node_store (scn (Host.stage []))) s'.
Proof.
  assert (Hrec : recorded (node_store (scn (Host.stage [])))
                          (_output_nodes (self (Host.stage []))))
    by (intros k v []).
  pose proof (execute_spec Host.replace_globals Host.path_join Host.split_abs
                Host.realpath Host.safe_filename Host.uses_globals Host.isdir_created
                (lit "1-3") false false (Host.stage []) Hrec eq_refl) as X.
  unfold Host.execute, Host.run.
  remember (execute Host.replace_globals Host.path_join Host.split_abs
              Host.realpath Host.safe_filename Host.uses_globals Host.isdir_created
              (lit "1-3") false false (Host.stage [])) as r eqn:E.
  vm_compute in E. subst r. destruct X as (_ & d0 & Hd & Hgood).
  pose proof (good_run Host.replace_globals Host.path_join _ _ d0 Hd
                [Timer; RenderPre; RenderPost true] _ Hgood) as Y.
  cbn [snd]. 
  remember (run Host.replace_globals Host.path_join [Timer; RenderPre; RenderPost true] _)
    as r eqn:E.
  vm_compute in E. subst r. destruct Y as (Hgood2 & _). cbn [snd].
  simple refine (let H := proj1 cancel_discards_frame_in_flight Host.replace_globals
                  Host.path_join _ _ d0 _ (Whole 2) [Whole 3] 0 Hd Hgood2
                  eq_refl eq_refl eq_refl eq_refl _ in _).
  { vm_compute. reflexivity. }
  destruct H as (s' & E' & R1 & R2 & R3).
  exists s'. split; [exact E'|]. split; [exact R1|]. split; [exact R2|]. exact R3.
Defined.

(** C6. In the silent mode a frame that is skipped takes the frame after it
    out of the run. With overwriting switched off and the file of frame 2
    on disk, the silent run over 1, 2, 3 renders frame 1, skips frame 2 and
    ends: frame 3 is in neither list and its file is not written. With the
    file of frame 1 on disk it is frame 2 that is lost. The modal run over
    the same frames counts each of them once: 1 and 3 rendered, 2
    skipped. *)
Theorem silent_skip_drops_next_frame :
  (let r := Host.execute (lit "1-3") false true (Host.stage [lit "/out/img_0002.png"]) in
   fst r = Ok Finished /\
   _rendered_frames (self (snd r)) = [Whole 1] /\
   _skipped_frames (self (snd r)) = [Whole 2] /\
   files (scn (snd r)) = [lit "/out/img_0001.png"; lit "/out/img_0002.png"]) /\
  (let r := Host.execute (lit "1-3") false true (Host.stage [lit "/out/img_0001.png"]) in
   fst r = Ok Finished /\
   _rendered_frames (self (snd r)) = [Whole 3] /\
   _skipped_frames (self (snd r)) = [Whole 1] /\
   files (scn (snd r)) = [lit "/out/img_0003.png"; lit "/out/img_0001.png"]) /\
  (let s1 := snd (Host.execute (lit "1-3") false false
                    (Host.stage [lit "/out/img_0002.png"])) in
   let r := Host.run [Timer; RenderPre; RenderPost true; Timer; Timer; RenderPre;
                      RenderPost true; Timer] s1 in
   fst r = Ok Finished /\
   _rendered_frames (self (snd r)) = [Whole 1; Whole 3] /\
   _skipped_frames (self (snd r)) = [Whole 2]).
Proof. vm_compute. repeat split. Qed.

(** C8. The width of the fractional suffix is the greatest length of the
    text after the point in [str] of the fractions, and this text is not
    always the digits of the fraction. For the batch 1, 1.25, 2.5 the width
    is 2 and the three names end in [00], [25] and [50]. For the frame
    1.00001 the fraction is written [1e-05]: there is no point to split at,
    and [execute] raises [IndexError] before anything is rendered. For the
    frame 1.000015, of six decimals, the fraction is written [1.5e-05]: the
    width is 5, and the suffix is [00002]. *)
Theorem suffix_width_of_batch :
  (let r := Host.execute (lit "1, 1.25, 2.5") false true (Host.stage []) in
   filter_frames (lit "1, 1.25, 2.5") 1 false = Ok (Some (FloatFrames [1; 5 # 4; 5 # 2]%Q)) /\
   fst r = Ok Finished /\ _dec (self (snd r)) = Some 2 /\
   files (scn (snd r)) =
     [lit "/out/img_000250.png"; lit "/out/img_000125.png"; lit "/out/img_000100.png"]) /\
  (let r := Host.execute (lit "1.00001") false true (Host.stage []) in
   filter_frames (lit "1.00001") 1 false = Ok (Some (FloatFrames [100001 # 100000]%Q)) /\
   repr_float (1 # 100000) = lit "1e-05" /\
   fst r = Raise IndexError /\ files (scn (snd r)) = []) /\
  (let r := Host.execute (lit "1.000015") false true (Host.stage []) in
   filter_frames (lit "1.000015") 1 false = Ok (Some (FloatFrames [200003 # 200000]%Q)) /\
   decimals (200003 # 200000) = 6 /\
   repr_float (3 # 200000) = lit "1.5e-05" /\
   fst r = Ok Finished /\ _dec (self (snd r)) = Some 5 /\
   files (scn (snd r)) = [lit "/out/img_000100002.png"]).
Proof. vm_compute. repeat split. Qed.

End SchedulerFacts.

(** ** The exclusion markers in global mode *)

Module ExcludeFacts.

Import Regex Py Parser.

Lemma first_exclude_from_bounds (l : list str) : forall k j,
  first_exclude_from k l = Some j -> k <= j < k + length l.
Proof.
  induction l as [|v l IH]; intros k j; simpl; [discriminate|].
  destruct (has_exclude v).
  - intros E. injection E as <-. lia.
  - intros E. apply IH in E. lia.
Qed.

(** The item that [auto_exclude] makes of an item behind the first marker
    starts with a marker. *)
Lemma prefixed_starts_with_exclude (elem : str) :
  starts_with_exclude
    (if starts_with_exclude elem then elem else "^"%char :: lstrip_blank elem) = true.
Proof. destruct (starts_with_exclude elem) eqn:E; [exact E | reflexivity]. Qed.

(** C2. In global mode the items behind the first marked item are marked
    too only when that item is not the first of the list: the test
    [if first_exclude_item:] is a truth test on an index, and index 0 is
    false. When the first marked item has index 0, or no item is marked, the
    items are left as they are; when it has a greater index, every item
    behind it starts with a marker afterwards. [parse("^1,2,3")] is
    [[2,3]], in global mode as in isolate mode, while [parse("1,^2,3")]
    is [[1]] in global mode and [[1,3]] in isolate mode. *)
Theorem auto_exclude_skips_index_zero :
  (forall items : list str,
     match first_exclude_from 0 items with
     | Some (S i) =>
         firstn (S i) (auto_exclude items) = firstn (S i) items /\
         Forall (fun elem => starts_with_exclude elem = true)
                (skipn (S i) (auto_exclude items))
     | _ => auto_exclude items = items
     end) /\
  findall numeric_pattern (lit "^1,2,3") = [lit "^1"; lit "2"; lit "3"] /\
  first_exclude_from 0 [lit "^1"; lit "2"; lit "3"] = Some 0 /\
  parse "^1,2,3" = Ok (Some (IntFrames [2; 3]%Z)) /\
  filter_frames (lit "^1,2,3") 1 true = Ok (Some (IntFrames [2; 3]%Z)) /\
  auto_exclude [lit "1"; lit "^2"; lit "3"] = [lit "1"; lit "^2"; lit "^3"] /\
  parse "1,^2,3" = Ok (Some (IntFrames [1]%Z)) /\
  filter_frames (lit "1,^2,3") 1 true = Ok (Some (IntFrames [1; 3]%Z)).
Proof.
  split; [|vm_compute; repeat split].
  intros items. unfold auto_exclude.
  destruct (first_exclude_from 0 items) as [[|i]|] eqn:E; try reflexivity.
  apply first_exclude_from_bounds in E.
  assert (Hlen : length (firstn (S i) items) = S i) by (rewrite length_firstn; lia).
  split.
  - rewrite firstn_app, Hlen, Nat.sub_diag, firstn_firstn, Nat.min_id.
    cbn [firstn]. now rewrite app_nil_r.
  - rewrite skipn_app, Hlen, Nat.sub_diag.
    rewrite skipn_all2 by lia. cbn [app skipn].
    apply Forall_map, Forall_forall. intros elem _. apply prefixed_starts_with_exclude.
Qed.

End ExcludeFacts.

(** ** Text that matches no item *)

Module DropFacts.

Import Regex Py Parser Scheduler RegexFacts TokenFacts ParserFacts.

(** The characters that occur in no item: neither a digit, nor white space,
    nor one of [. - + ^ ! x %]. *)
Definition outside (c : ascii) : bool :=
  negb (is_digit c || is_space c
        || one_of ["."; "-"; "+"; "^"; "!"; "x"; "%"]%char c).

Lemma outside_refused_all :
  all_ascii (fun c => Bool.eqb (outside c) (refuses c numeric_pattern)) = true.
Proof. vm_compute. reflexivity. Qed.

Lemma outside_refused (c : ascii) : outside c = true -> refuses c numeric_pattern = true.
Proof.
  intros H. pose proof (all_ascii_spec _ outside_refused_all c) as E. cbv beta in E.
  rewrite H in E. now destruct (refuses c numeric_pattern).
Qed.

Lemma findall_nil : findall numeric_pattern [] = [].
Proof. reflexivity. Qed.

(** Text of such characters before the items is skipped. *)
Lemma findall_after_junk (junk b : str) :
  Forall (fun c => outside c = true) junk ->
  findall numeric_pattern (junk ++ b) = findall numeric_pattern b.
Proof.
  induction 1 as [|c junk Hc _ IH]; [reflexivity|].
  change ((c :: junk) ++ b) with ([] ++ c :: (junk ++ b)).
  rewrite (findall_junk numeric_pattern c [] _ (outside_refused c Hc) nonempty_numeric).
  exact IH.
Qed.

(** Text of such characters between items separates them, and is dropped. *)
Lemma findall_around_junk (a junk b : str) :
  junk <> [] -> Forall (fun c => outside c = true) junk ->
  findall numeric_pattern (a ++ junk ++ b) =
  findall numeric_pattern a ++ findall numeric_pattern b.
Proof.
  intros Hne Hj. destruct Hj as [|c junk Hc Hj]; [contradiction|].
  change (a ++ (c :: junk) ++ b) with (a ++ c :: (junk ++ b)).
  rewrite (findall_junk numeric_pattern c a _ (outside_refused c Hc) nonempty_numeric).
  now rewrite findall_after_junk.
Qed.

(** [filter_frames] sees its input through [findall] only. *)
Lemma filter_frames_items (x y : str) (increment : Q) (filter_individual : bool) :
  findall numeric_pattern x = findall numeric_pattern y ->
  filter_frames x increment filter_individual = filter_frames y increment filter_individual.
Proof. intros E. unfold filter_frames. now rewrite E. Qed.

Lemma filter_frames_none (input : str) (increment : Q) (filter_individual : bool) :
  filter_frames input increment filter_individual = Ok None <->
  findall numeric_pattern input = [].
Proof.
  unfold filter_frames. destruct (findall numeric_pattern input) as [|t l].
  - split; reflexivity.
  - split; [|discriminate]. 
    destruct (run_items _ _ _ _) as [a|e]; [|discriminate]. cbn [bind].
    destruct (all_some _); discriminate.
Qed.

Lemma execute_no_frames
  (replace_globals : str -> str) (path_join : str -> str -> str)
  (split_abs : str -> str * str) (realpath : str -> str)
  (safe_filename : nat -> str -> str * nat) (uses_globals isdir_created : str -> bool)
  (frames : str) (isolate_numbers render_silent : bool) (s : state) (p : option Parser.frames) :
  filter_frames frames (inject_Z (frame_step (scn s))) isolate_numbers = Ok p ->
  no_frames p = true ->
  execute replace_globals path_join split_abs realpath safe_filename uses_globals
          isdir_created frames isolate_numbers render_silent s
  = (Ok (Cancelled no_frames_report), State (scn s) (set_frames [] (self s))).
Proof.
  intros E Hp. unfold execute, mbind at 1, get. rewrite E.
  destruct p as [[[|x l]|[|x l]]|]; try discriminate; reflexivity.
Qed.

(** C7. Text that matches no item of the grammar is dropped, and the items
    around it contribute as if a comma stood in its place; [filter_frames]
    returns [None] exactly when nothing in the input matches; and when it
    returns [None] or an empty list, [execute] reports "No frames to render"
    and cancels, having assigned nothing but [self._frames].
    [parse("1-3, foo, 7")] is [[1,2,3,7]]. *)
Theorem parse_drops_unmatched_text (a junk b : str) (increment : Q)
  (filter_individual : bool) :
  junk <> [] -> Forall (fun c => outside c = true) junk ->
  findall numeric_pattern (a ++ junk ++ b) =
    findall numeric_pattern a ++ findall numeric_pattern b /\
  filter_frames (a ++ junk ++ b) increment filter_individual =
    filter_frames (a ++ lit "," ++ b) increment filter_individual /\
  (forall input : str,
     filter_frames input increment filter_individual = Ok None <->
     findall numeric_pattern input = []) /\
  (forall replace_globals path_join split_abs realpath safe_filename uses_globals
          isdir_created (frames : str) (render_silent : bool) (s : state)
          (p : option Parser.frames),
     filter_frames frames (inject_Z (frame_step (scn s))) filter_individual = Ok p ->
     no_frames p = true ->
     execute replace_globals path_join split_abs realpath safe_filename uses_globals
             isdir_created frames filter_individual render_silent s
     = (Ok (Cancelled no_frames_report), State (scn s) (set_frames [] (self s)))) /\
  parse "1-3, foo, 7" = Ok (Some (IntFrames [1; 2; 3; 7]%Z)).
Proof.
  intros Hne Hj.
  pose proof (findall_around_junk a junk b Hne Hj) as E.
  split; [exact E|]. split; [|split; [|split]].
  - apply filter_frames_items. rewrite E. symmetry.
    apply (findall_around_junk a (lit ",") b); [discriminate|].
    repeat constructor.
  - intros input. apply filter_frames_none.
  - intros rg pj sa rp sf ug ic frames render_silent s p Hp Hn.
    now apply (execute_no_frames rg pj sa rp sf ug ic frames filter_individual render_silent s p).
  - vm_compute. reflexivity.
Qed.

Lemma parse_drops_unmatched_text_witness :
  findall numeric_pattern (lit "1-3, foo, 7") = [lit "1-3"; lit " 7"].
Proof.
  destruct (parse_drops_unmatched_text (lit "1-3, ") (lit "foo") (lit ", 7") 1 false)
    as [E _]; [discriminate | repeat constructor |].
  vm_compute in E. vm_compute. exact E.
Defined.

(** The input [^5] matches the grammar, and nothing is left to render. *)
Lemma no_frames_with_a_match :
  ~ (forall (input : str) (p : option Parser.frames),
       filter_frames input 1 false = Ok p -> no_frames p = true ->
       findall numeric_pattern input = []).
Proof.
  intros H. specialize (H (lit "^5") (Some (IntFrames [])) eq_refl eq_refl).
  vm_compute in H. discriminate.
Qed.

End DropFacts.

(** ** The digits of a decimal *)

Module DecimalFacts.

Import Regex Py.

Lemma is_integer_iff (x : Q) : is_integer x = true <-> exists z, (x == inject_Z z)%Q.
Proof.
  unfold is_integer. split.
  - intros H. apply Qeq_bool_eq in H. eauto.
  - intros [z H]. apply Qeq_bool_iff. rewrite H at 1. now rewrite H, Qfloor_Z.
Qed.

Lemma size_nat_gt (p : positive) : (Zpos p < 2 ^ Z.of_nat (Pos.size_nat p))%Z.
Proof.
  induction p as [p IH|p IH|]; cbn [Pos.size_nat];
    rewrite ?Nat2Z.inj_succ, ?Z.pow_succ_r by lia; lia.
Qed.

Lemma pow10Z_succ (j : nat) : pow10Z (S j) = (10 * pow10Z j)%Z.
Proof. unfold pow10Z. rewrite Nat2Z.inj_succ, Z.pow_succ_r by lia. reflexivity. Qed.

Lemma pow10Z_pos (j : nat) : (0 < pow10Z j)%Z.
Proof. unfold pow10Z. apply Z.pow_pos_nonneg; lia. Qed.

(** The denominator of the reduced form. *)
Lemma Qden_Qred (q : Q) :
  (Zpos (Qden (Qred q)) * Z.gcd (Qnum q) (Zpos (Qden q)) = Zpos (Qden q))%Z.
Proof.
  destruct q as [a d]. unfold Qred. cbn [Qnum Qden].
  pose proof (Z.ggcd_gcd a (Zpos d)) as Hg.
  pose proof (Z.ggcd_correct_divisors a (Zpos d)) as Hd.
  destruct (Z.ggcd a (Zpos d)) as [g [aa bb]]. cbn [fst snd] in *. destruct Hd as [Ha Hb].
  cbn [Qden]. subst g.
  assert (0 < Z.gcd a (Zpos d))%Z.
  { pose proof (Z.gcd_nonneg a (Zpos d)).
    assert (Z.gcd a (Zpos d) <> 0)%Z by (intros E; rewrite E in Hb; lia). lia. }
  assert (0 < bb)%Z by nia.
  rewrite Z2Pos.id by assumption. lia.
Qed.

Lemma divides_pow10 (d : Z) (j : nat) :
  Z.gcd d 10 = 1%Z -> (d | pow10Z j)%Z -> (d | 1)%Z.
Proof.
  intros Hg. induction j as [|j IH]; [trivial|].
  rewrite pow10Z_succ. intros H. apply IH. now apply (Z.gauss d 10).
Qed.

(** One more decimal halves the denominator, at least, of a decimal that
    is not an integer. *)
Lemma halve_den (y : Q) (j : nat) :
  Z.gcd (Qnum y) (Zpos (Qden y)) = 1%Z -> is_integer y = false ->
  is_integer (y * inject_Z (pow10Z j)) = true ->
  (2 * Zpos (Qden (Qred (y * 10))) <= Zpos (Qden y))%Z.
Proof.
  destruct y as [a d]. cbn [Qnum Qden]. intros Hred Hn Hj.
  apply is_integer_iff in Hj. destruct Hj as [z Hz].
  unfold Qeq, Qmult, inject_Z in Hz. cbn [Qnum Qden] in Hz.
  assert (Hdiv : (Zpos d | pow10Z j)%Z).
  { apply (Z.gauss (Zpos d) a); [|now rewrite Z.gcd_comm].
    exists z. rewrite Pos.mul_1_r in Hz. lia. }
  assert (Hg : Z.gcd (Zpos d) 10 <> 1%Z).
  { intros Hg. pose proof (divides_pow10 (Zpos d) j Hg Hdiv) as H1.
    apply Z.divide_1_r_nonneg in H1; [|lia].
    assert (is_integer (a # d) = true); [|congruence].
    apply is_integer_iff. exists a. injection H1 as ->. reflexivity. }
  pose proof (Qden_Qred ((a # d) * 10)) as Hq.
  change (Qnum ((a # d) * 10)) with (a * 10)%Z in Hq.
  change (Qden ((a # d) * 10)) with (d * 1)%positive in Hq.
  rewrite Pos.mul_1_r in Hq.
  set (G := Z.gcd (a * 10) (Zpos d)) in *.
  set (g := Z.gcd (Zpos d) 10) in *.
  assert (Hg0 : (0 <= g)%Z) by apply Z.gcd_nonneg.
  assert (Hg1 : (g <> 0)%Z).
  { intros E. apply Z.gcd_eq_0_l in E. lia. }
  assert (HG0 : (0 < G)%Z).
  { pose proof (Z.gcd_nonneg (a * 10) (Zpos d)).
    assert (G <> 0)%Z by (intros E; apply Z.gcd_eq_0_r in E; lia). fold G in H. lia. }
  assert (HgG : (g | G)%Z).
  { apply Z.gcd_greatest.
    - apply Z.divide_mul_r. apply Z.gcd_divide_r.
    - apply Z.gcd_divide_l. }
  apply Z.divide_pos_le in HgG; [|assumption].
  set (D := Zpos (Qden (Qred ((a # d) * 10)))) in *.
  assert (0 < D)%Z by (unfold D; lia). nia.
Qed.

Lemma decimals_from_spec (fuel : nat) : forall (k : nat) (y : Q) (j : nat),
  Z.gcd (Qnum y) (Zpos (Qden y)) = 1%Z ->
  (Zpos (Qden y) < 2 ^ Z.of_nat fuel)%Z ->
  is_integer (y * inject_Z (pow10Z j)) = true ->
  exists t, decimals_from fuel k y = (k + t)%nat /\
            is_integer (y * inject_Z (pow10Z t)) = true.
Proof.
  induction fuel as [|fuel IH]; intros k y j Hred Hden Hj.
  - simpl in Hden. lia.
  - cbn [decimals_from]. destruct (is_integer y) eqn:Hy.
    + exists 0. split; [lia|]. apply is_integer_iff. apply is_integer_iff in Hy.
      destruct Hy as [z Hz]. exists z. rewrite Hz. change (pow10Z 0) with 1%Z. ring.
    + pose proof (halve_den y j Hred Hy Hj) as Hhalf.
      destruct j as [|j].
      { exfalso. apply is_integer_iff in Hj. destruct Hj as [z Hz].
        assert (is_integer y = true); [|congruence].
        apply is_integer_iff. exists z. rewrite <- Hz. change (pow10Z 0) with 1%Z. ring. }
      destruct (IH (S k) (Qred (y * 10)) j) as (t & Et & Ht).
      * apply gcd_Qred.
      * rewrite Nat2Z.inj_succ, Z.pow_succ_r in Hden by lia. lia.
      * apply is_integer_iff. apply is_integer_iff in Hj. destruct Hj as [z Hz].
        exists z. rewrite <- Hz, Qred_correct, pow10Z_succ, inject_Z_mult. ring.
      * exists (S t). split; [lia|].
        apply is_integer_iff. apply is_integer_iff in Ht. destruct Ht as [z Hz].
        exists z. rewrite <- Hz, Qred_correct, pow10Z_succ, inject_Z_mult. ring.
Qed.

(** [decimals] finds the digits of every decimal. *)
Lemma decimals_adequate (x : Q) (j : nat) :
  is_integer (x * inject_Z (pow10Z j)) = true ->
  is_integer (x * inject_Z (pow10Z (decimals x))) = true.
Proof.
  intros Hj. unfold decimals.
  destruct (decimals_from_spec (Pos.size_nat (Qden (Qred x))) 0 (Qred x) j)
    as (t & Et & Ht).
  - apply gcd_Qred.
  - apply size_nat_gt.
  - apply is_integer_iff. apply is_integer_iff in Hj. destruct Hj as [z Hz].
    exists z. now rewrite Qred_correct.
  - rewrite Et. cbn [Nat.add].
    apply is_integer_iff. apply is_integer_iff in Ht. destruct Ht as [z Hz].
    exists z. now rewrite <- Hz, Qred_correct.
Qed.

End DecimalFacts.

(** ** The two halves of a sub-frame *)

Module HalvesFacts.

Import Regex Py Parser Scheduler RegexFacts PyFacts PointFacts DecimalFacts.

#[local] Arguments is_digit : simpl never.
#[local] Arguments is_space : simpl never.

(** The text has a decimal point; the text has an exponent. *)
Definition has_point (s : str) : bool := existsb (fun c => Ascii.eqb c "."%char) s.

Definition has_exponent (s : str) : bool := existsb (fun c => Ascii.eqb c "e"%char) s.

(** [x] is a decimal: it has finitely many digits after the point. *)
Definition finite_decimal (x : Q) : Prop :=
  exists j, is_integer (x * inject_Z (pow10Z j)) = true.

Lemma py_int_digits (ds : str) :
  digits ds -> ds <> [] -> py_int ds = Some (digits_value ds).
Proof.
  intros Hd Hne. unfold py_int.
  destruct ds as [|c t]; [contradiction|].
  assert (Hc : is_digit c = true) by now inversion Hd.
  assert (Es : strip (c :: t) = c :: t).
  { apply (strip_numeral [] (c :: t)); auto. simpl.
    now destruct (digit_classes c Hc) as (-> & _). }
  rewrite Es.
  destruct (digit_not_sign c Hc) as [-> ->].
  rewrite (span_digits_all _ Hd). reflexivity.
Qed.

Lemma py_float_fraction (tail : str) :
  digits tail -> tail <> [] ->
  py_float ("."%char :: tail) = Some (Qred (digits_value tail # pow10 (length tail))).
Proof.
  intros Hd Hne. unfold py_float.
  assert (Es : strip ("."%char :: tail) = "."%char :: tail).
  { apply (strip_numeral ["."%char] tail); auto. }
  rewrite Es. change (Ascii.eqb "." "-") with false. change (Ascii.eqb "." "+") with false.
  cbv iota. unfold unsigned_float. cbn [span_digits].
  change (is_digit ".") with false. cbv iota. change (Ascii.eqb "." ".") with true. cbv iota.
  rewrite (span_digits_all _ Hd). cbn [app exponent].
  destruct tail as [|c t]; [contradiction|]. reflexivity.
Qed.

Lemma digits_value_zeros (n : nat) (s : str) :
  digits_value (repeat "0"%char n ++ s) = digits_value s.
Proof.
  induction n as [|n IH]; [reflexivity|]. unfold digits_value in *. exact IH.
Qed.

Lemma digits_value_zfill (w : nat) (s : str) : digits_value (zfill w s) = digits_value s.
Proof. apply digits_value_zeros. Qed.

Lemma pow10_pow10Z (k : nat) : 1 <= k -> Zpos (pow10 k) = pow10Z k.
Proof.
  intros Hk. unfold pow10, pow10Z. rewrite Pos2Z.inj_pow. f_equal.
  destruct k; [lia|]. now rewrite <- Pos.of_nat_succ, Zpos_P_of_succ_nat, Nat2Z.inj_succ.
Qed.

Lemma Qabs_nonneg_id (x : Q) : (0 <= x)%Q -> Qabs x = x.
Proof.
  destruct x as [n d]. unfold Qle, Qabs. simpl. intros H. f_equal. apply Z.abs_eq. lia.
Qed.

Lemma qlt_nonneg (x : Q) : (0 <= x)%Q -> qlt x 0 = false.
Proof. unfold qlt. intros H. apply negb_false_iff. now apply Qle_bool_iff. Qed.

(** The integer [F] and the fraction of numerator [r] over [p] make the
    decimal they were cut from. *)
Lemma sum_of_halves (x : Q) (F r : Z) (p : positive) :
  (x == (F * Zpos p + r) # p)%Q -> (0 <= r < Zpos p)%Z ->
  (0 <= Qred (r # p))%Q /\ (Qred (r # p) < 1)%Q /\ (inject_Z F + Qred (r # p) == x)%Q.
Proof.
  intros Hx Hr. rewrite Hx, (Qred_correct (r # p)).
  unfold Qle, Qlt, Qeq, Qplus, inject_Z. simpl. repeat split; nia.
Qed.

Lemma halves_decimal (x : Q) :
  (0 <= x)%Q -> finite_decimal x ->
  has_point (repr_float x) = true -> has_exponent (repr_float x) = false ->
  exists s,
    halves repr_float py_float x = Ok (Qfloor x, s) /\
    (0 <= s)%Q /\ (s < 1)%Q /\ (inject_Z (Qfloor x) + s == x)%Q.
Proof.
  intros Hx [j Hfin] _ He. unfold halves.
  pose proof (Qabs_nonneg_id x Hx) as Ea. pose proof (qlt_nonneg x Hx) as Hs.
  apply decimals_adequate in Hfin.
  unfold is_integer in Hfin. apply Qeq_bool_eq in Hfin.
  unfold repr_float in *. rewrite Ea, Hs in *. cbn [app] in *.
  destruct (Qeq_bool x 0) eqn:Ez.
  { apply Qeq_bool_eq in Ez. exists 0%Q.
    assert (E0 : Qfloor x = 0%Z) by (rewrite Ez; reflexivity).
    rewrite E0. split; [vm_compute; reflexivity|].
    split; [lra|]. split; [lra|]. rewrite Ez. reflexivity. }
  remember (decimals x) as k eqn:Ek.
  remember (Qfloor (x * inject_Z (pow10Z k))) as n eqn:En.
  destruct (Qle_bool (1 # 10000) x && qlt x (inject_Z (pow10Z 16))).
  2: { exfalso. revert He. unfold has_exponent. rewrite !existsb_app. cbn [existsb].
       change (Ascii.eqb "e" "e") with true. rewrite ?orb_true_r. discriminate. }
  assert (HP : (0 < pow10Z k)%Z) by (unfold pow10Z; apply Z.pow_pos_nonneg; lia).
  assert (HF0 : (0 <= Qfloor x)%Z).
  { change 0%Z with (Qfloor 0). now apply Qfloor_resp_le. }
  assert (Hxn : (x == n # Z.to_pos (pow10Z k))%Q).
  { rewrite Qmake_Qdiv, Z2Pos.id, <- Hfin by assumption. field.
    intros H. apply (inject_Z_injective (pow10Z k) 0) in H. lia. }
  assert (HF : Qfloor x = (n / pow10Z k)%Z).
  { rewrite Hxn. unfold Qfloor. now rewrite Z2Pos.id. }
  assert (Hn0 : (0 <= n)%Z).
  { rewrite En. change 0%Z with (Qfloor 0). apply Qfloor_resp_le.
    apply Qmult_le_0_compat; [assumption|].
    change 0%Q with (inject_Z 0). rewrite <- Zle_Qle. lia. }
  destruct (str_of_nat_spec (Qfloor x) HF0) as (Hne1 & Hd1 & Hv1).
  rewrite split_at_point by now apply digits_pointless.
  assert (Hgo : forall tail r p,
            digits tail -> tail <> [] -> digits_value tail = r -> pow10 (length tail) = p ->
            (x == (Qfloor x * Zpos p + r) # p)%Q -> (0 <= r < Zpos p)%Z ->
            exists s,
              match split "."%char tail with
              | [sub_frame] =>
                  match py_int (str_of_nat (Qfloor x)), py_float ("."%char :: sub_frame) with
                  | Some m, Some f => Ok (m, f)
                  | _, _ => Raise ValueError
                  end
              | _ => Raise ValueError
              end = Ok (Qfloor x, s) /\
              (0 <= s)%Q /\ (s < 1)%Q /\ (inject_Z (Qfloor x) + s == x)%Q).
  { intros tail r p Hd Hne Hv Hlen Hsum Hr.
    rewrite (split_pointless tail) by now apply digits_pointless.
    rewrite (py_int_digits _ Hd1 Hne1), Hv1, (py_float_fraction _ Hd Hne), Hv, Hlen.
    eexists. split; [reflexivity|]. now apply sum_of_halves. }
  destruct k as [|k'].
  - apply (Hgo ["0"%char] 0%Z 10%positive); try reflexivity; try lia.
    + repeat constructor.
    + discriminate.
    + rewrite HF. change (pow10Z 0) with 1%Z in *. rewrite Z.div_1_r.
      change (Z.to_pos 1) with 1%positive in Hxn. rewrite Hxn.
      unfold Qeq. simpl. lia.
  - pose proof (Z.mod_pos_bound n (pow10Z (S k')) HP) as Hm.
    destruct (str_of_nat_spec (n mod pow10Z (S k'))) as (Hne2 & Hd2 & Hv2); [lia|].
    assert (Hlen : length (zfill (S k') (str_of_nat (n mod pow10Z (S k')))) = S k').
    { rewrite length_zfill.
      pose proof (length_str_of_nat (n mod pow10Z (S k')) (S k') Hm). lia. }
    apply (Hgo _ (n mod pow10Z (S k'))%Z (Z.to_pos (pow10Z (S k')))).
    + now apply digits_zfill.
    + intros E. rewrite E in Hlen. discriminate.
    + now rewrite digits_value_zfill.
    + rewrite Hlen. apply Pos2Z.inj. rewrite pow10_pow10Z, Z2Pos.id by lia. reflexivity.
    + rewrite Z2Pos.id by assumption. rewrite HF.
      rewrite (Z.mul_comm (n / _)), <- Z.div_mod by lia. exact Hxn.
    + now rewrite Z2Pos.id.
Qed.

(** The precondition of [subframes] on a queued value: not negative, a
    decimal, and printed by [repr] with a point and without an exponent. *)
Definition splits_well (x : Q) : Prop :=
  (0 <= x)%Q /\ finite_decimal x /\
  has_point (repr_float x) = true /\ has_exponent (repr_float x) = false.

(** The pair made of [x]: its integer part, and a fraction that adds up
    to [x] with it. *)
Definition halves_of (x : Q) (f : frame) : Prop :=
  exists sub, f = Sub (Qfloor x) sub /\ (0 <= sub)%Q /\ (sub < 1)%Q /\
              (inject_Z (Qfloor x) + sub == x)%Q.

(** C10. Under the precondition that no queued value is negative and that
    [repr] prints each with a decimal point and without an exponent,
    [subframes] returns, and its pairs are in the order of the queue, one
    for each value [v]: [main] is the integer part of [v], [0 <= sub < 1],
    and [main + sub] is [v] in the arithmetic of decimals. *)
Theorem subframes_keep_decimals (l : list Q) :
  Forall splits_well l ->
  exists subs, subframes l = Ok subs /\ Forall2 halves_of l subs.
Proof.
  intros Hl. unfold subframes.
  assert (H : exists ps, pairs repr_float py_float l = Ok ps /\
                         Forall2 halves_of l (map (fun p => Sub (fst p) (snd p)) ps)).
  { induction Hl as [|x l (Hx & Hfin & Hp & He) _ (ps & E & IH)].
    - exists []. split; [reflexivity | constructor].
    - destruct (halves_decimal x Hx Hfin Hp He) as (s & Es & H0 & H1 & Hsum).
      exists ((Qfloor x, s) :: ps). cbn [pairs]. rewrite Es, E. split; [reflexivity|].
      constructor; [|exact IH]. now exists s. }
  destruct H as (ps & E & H). rewrite E. eexists. split; [reflexivity | exact H].
Qed.

Lemma subframes_keep_decimals_witness :
  subframes [1; 5 # 4; 5 # 2]%Q = Ok [Sub 1 0; Sub 1 (1 # 4); Sub 2 (1 # 2)].
Proof.
  destruct (subframes_keep_decimals [1; 5 # 4; 5 # 2]%Q) as (subs & E & _).
  - repeat (constructor; [split; [discriminate | split; [now exists 2 | now split]]|]).
    constructor.
  - rewrite E. vm_compute in E. now injection E as <-.
Defined.

(** Outside the precondition: for a negative value the fraction is that of
    the absolute value, and a value printed with an exponent either has no
    point to split at or gives digits that are not its fraction. *)
Lemma subframes_outside_precondition :
  subframes [- (3 # 2)]%Q = Ok [Sub (-1) (1 # 2)] /\
  repr_float (1 # 100000) = lit "1e-05" /\
  subframes [1 # 100000]%Q = Raise ValueError /\
  repr_float (3 # 200000) = lit "1.5e-05" /\
  subframes [3 # 200000]%Q = Ok [Sub 1 (1 # 200000)].
Proof. vm_compute. repeat split. Qed.

(** In binary64 the two halves are rounded one by one: [1.00544] is split
    into [1] and [0.00544], and [1 + 0.00544 == 1.00544] is false. *)
Lemma halves_sum_is_rounded :
  ~ (forall v : spec_float,
       SFleb (S754_zero false) v = true ->
       has_point (Binary64.repr v) = true -> has_exponent (Binary64.repr v) = false ->
       exists main sub,
         halves Binary64.repr Binary64.float v = Ok (main, sub) /\
         Binary64.eqb (Binary64.add (Binary64.of_int main) sub) v = true).
Proof.
  intros H.
  destruct (H (Binary64.of_Q (100544 # 100000)) eq_refl eq_refl eq_refl)
    as (main & sub & E & Hsum).
  vm_compute in E. injection E as <- <-. vm_compute in Hsum. discriminate.
Qed.

End HalvesFacts.
